(** * Sudoku CSP solver: a shallow embedding of [core/csp.py] and
    [puzzles/generator.py], and the properties of the search engine.

    Python integers are [Z]; a cell coordinate is a pair of integers; a
    [dict] is a [gmap]; a Python list is a [list].  A function that can
    raise returns a [res], whose [Raise] carries the exception class.
    Where it matters that an argument is passed by reference, the
    function is given a second time on a heap of mutable objects, and
    related to the first. *)

From stdpp Require Import base option list gmap fin_maps sorting.
From Stdlib Require Import ZArith Lia.

Open Scope Z_scope.

(** ** Exceptions *)

Inductive exn :=
| ValueError
| KeyError
| IndexError
| ZeroDivisionError
| TypeError.

Inductive res (A : Type) :=
| Ok (a : A)
| Raise (x : exn).

Arguments Ok {A} a.
Arguments Raise {A} x.

#[global] Instance res_ret : MRet res := λ A a, Ok a.
#[global] Instance res_bind : MBind res := λ A B f m,
  match m with
  | Ok a => f a
  | Raise x => Raise x
  end.

(** ** Cells, lists and the row/column/box test *)

Abbreviation cell := (Z * Z)%type.

(** [range(n)] *)
Definition range (n : Z) : list Z := seqZ 0 n.

(** [list.remove(x)]: deletes the first occurrence only. *)
Fixpoint py_remove (x : Z) (l : list Z) : list Z :=
  match l with
  | [] => []
  | y :: l' => if decide (y = x) then l' else y :: py_remove x l'
  end.

(** [x in l] *)
Definition py_in (x : Z) (l : list Z) : bool := bool_decide (x ∈ l).

(** The test the source writes out in every loop over cells:
    [r == row or c == col or (r // bs == row // bs and c // bs == col // bs)].
    Python's [//] is floor division, as [Z.div] is for a divisor that is
    not zero; a zero divisor raises in Python, and the theorems below that
    reach a division assume [0 < box_size]. *)
Definition same_unit (bs : Z) (rc : cell) (var : cell) : bool :=
  (rc.1 =? var.1) || (rc.2 =? var.2)
  || ((rc.1 / bs =? var.1 / bs) && (rc.2 / bs =? var.2 / bs)).

(** All coordinates of the grid, in the order of the nested loops
    [for r in range(size): for c in range(size)]. *)
Definition cells (size : Z) : list cell :=
  r ← range size; c ← range size; [(r, c)].

(** ** The engine *)

Record stats := Stats {
  nodes : Z;
  backtracks : Z;
  solutions : Z
}.

Record SudokuCSP := Engine {
  size : Z;
  box_size : Z;
  variables : list cell;
  initial_domains : gmap cell (list Z);
  initial_board : list (list Z);
  counters : stats
}.

(** [reset] *)
Definition reset (self : SudokuCSP) : SudokuCSP :=
  Engine (size self) (box_size self) (variables self) (initial_domains self)
         (initial_board self) (Stats 0 0 0).

(** [_remove_conflicts]: every key of [domains] in the row, column or box
    of [(row, col)] loses the first occurrence of [value]. *)
Definition _remove_conflicts (bs : Z) (row col value : Z)
    (domains : gmap cell (list Z)) : gmap cell (list Z) :=
  map_imap (λ rc d,
    Some (if same_unit bs rc (row, col)
          then (if py_in value d then py_remove value d else d)
          else d)) domains.

(** [board[r][c]], with the [IndexError] of a short grid or row. *)
Definition board_at (board : list (list Z)) (rc : cell) : res Z :=
  match board !! Z.to_nat rc.1 with
  | None => Raise IndexError
  | Some row =>
      match row !! Z.to_nat rc.2 with
      | None => Raise IndexError
      | Some v => Ok v
      end
  end.

(** [int(np.sqrt(size))].  A Python int below [-2^63] fits none of
    numpy's integer types: it becomes an array of objects, for which
    [np.sqrt] has no loop, a [TypeError].  For the other negative sizes
    [np.sqrt] gives NaN, which [int] refuses with a [ValueError].  From 0
    on the result is the integer square root: for every size below 2^52
    the conversion to a float is exact and the rounded float square root
    truncates to it.  Lists have no bound on their length here, and for
    the sizes from 2^52 on the integer square root stands for numpy's
    result as well, without its rounding and without its [TypeError]
    from 2^64 on; what is stated about the exceptions of the constructor
    is stated for sizes below 2^52. *)
Definition int_sqrt (size : Z) : res Z :=
  if size <? - 2 ^ 63 then Raise TypeError
  else if size <? 0 then Raise ValueError
  else Ok (Z.sqrt size).

(** First pair of loops of [__init__]: collect the empty cells. *)
Definition collect_step (n : Z) (board : list (list Z))
    (acc : res (list cell * gmap cell (list Z))) (rc : cell)
  : res (list cell * gmap cell (list Z)) :=
  st ← acc;
  v ← board_at board rc;
  if v =? 0
  then Ok (st.1 ++ [rc], <[rc := seqZ 1 n]> st.2)
  else Ok st.

(** Second pair of loops of [__init__]: prune against the filled cells. *)
Definition prune_step (bs : Z) (board : list (list Z))
    (acc : res (gmap cell (list Z))) (rc : cell) : res (gmap cell (list Z)) :=
  doms ← acc;
  v ← board_at board rc;
  if v =? 0 then Ok doms else Ok (_remove_conflicts bs rc.1 rc.2 v doms).

(** [[[0 for _ in range(size)] for _ in range(size)]] *)
Definition empty_board (n : Z) : list (list Z) :=
  (λ _, (λ _, 0) <$> range n) <$> range n.

(** The two pairs of loops of [__init__] and the final [reset], on the
    grid that the engine keeps. *)
Definition setup (n bs : Z) (board' : list (list Z)) : res SudokuCSP :=
  st ← foldl (collect_step n board') (Ok ([], ∅)) (cells n);
  doms ← foldl (prune_step bs board') (Ok st.2) (cells n);
  Ok (reset (Engine n bs st.1 doms board' (Stats 0 0 0))).

(** [SudokuCSP.__init__] *)
Definition __init__ (n : Z) (board : option (list (list Z))) : res SudokuCSP :=
  bs ← int_sqrt n;
  setup n bs (match board with None => empty_board n | Some b => b end).

(** ** Consistency check *)

(** [(r, c) in assignment and assignment[(r, c)] == value] *)
Definition holds (assignment : gmap cell Z) (rc : cell) (value : Z) : bool :=
  bool_decide (assignment !! rc = Some value).

(** [is_consistent].  The row and the column scans come first; the box
    corner needs [//], which raises when [box_size] is zero. *)
Definition is_consistent (self : SudokuCSP) (var : cell) (value : Z)
    (assignment : gmap cell Z) : res bool :=
  let row := var.1 in
  let col := var.2 in
  if existsb (λ c, holds assignment (row, c) value) (range (size self))
  then Ok false
  else if existsb (λ r, holds assignment (r, col) value) (range (size self))
  then Ok false
  else if box_size self =? 0 then Raise ZeroDivisionError
  else
    let box_row := (row / box_size self) * box_size self in
    let box_col := (col / box_size self) * box_size self in
    if existsb (λ r,
         existsb (λ c, holds assignment (r, c) value)
                 (seqZ box_col (box_size self)))
         (seqZ box_row (box_size self))
    then Ok false
    else Ok true.

(** ** Variable ordering *)

(** [_count_constraints] *)
Definition _count_constraints (self : SudokuCSP) (var : cell)
    (assignment : gmap cell Z) : Z :=
  foldl (λ count rc,
    if bool_decide (assignment !! rc = None) && bool_decide (rc ≠ var)
       && same_unit (box_size self) rc var
    then count + 1 else count) 0 (variables self).

(** The key of the [min]: [(len(domains[v]), -_count_constraints(v))]. *)
Definition mrv_key (self : SudokuCSP) (domains : gmap cell (list Z))
    (assignment : gmap cell Z) (v : cell) : res (cell * (Z * Z)) :=
  match domains !! v with
  | None => Raise KeyError
  | Some d => Ok (v, (Z.of_nat (length d), - _count_constraints self v assignment))
  end.

(** Python compares tuples lexicographically. *)
Definition key_lt (a b : Z * Z) : bool :=
  (a.1 <? b.1) || ((a.1 =? b.1) && (a.2 <? b.2)).

(** [min] keeps the first of the smallest items. *)
Fixpoint py_min (best : cell * (Z * Z)) (rest : list (cell * (Z * Z))) : cell :=
  match rest with
  | [] => best.1
  | x :: rest' => py_min (if key_lt x.2 best.2 then x else best) rest'
  end.

Definition unassigned (self : SudokuCSP) (assignment : gmap cell Z) : list cell :=
  filter (λ v, assignment !! v = None) (variables self).

(** [select_unassigned_var]: [min] of an empty list is a [ValueError]. *)
Definition select_unassigned_var (self : SudokuCSP)
    (domains : gmap cell (list Z)) (assignment : gmap cell Z) : res cell :=
  keyed ← mapM (mrv_key self domains assignment) (unassigned self assignment);
  match keyed with
  | [] => Raise ValueError
  | x :: rest => Ok (py_min x rest)
  end.

(** ** Value ordering *)

(** The inner [eliminated_count] of [order_domain_values]. *)
Definition eliminated_count (self : SudokuCSP) (var : cell)
    (domains : gmap cell (list Z)) (assignment : gmap cell Z) (value : Z) : res Z :=
  foldl (λ acc rc,
    count ← acc;
    if bool_decide (rc = var) || bool_decide (is_Some (assignment !! rc))
    then Ok count
    else if same_unit (box_size self) rc var
    then match domains !! rc with
         | None => Raise KeyError
         | Some d => Ok (if py_in value d then count + 1 else count)
         end
    else Ok count) (Ok 0) (variables self).

(** [list.sort(key=...)] is stable: an item goes in front of the first
    later item whose key is not smaller. *)
Fixpoint insert_by_key (kx : Z * Z) (l : list (Z * Z)) : list (Z * Z) :=
  match l with
  | [] => [kx]
  | ky :: l' => if ky.1 <? kx.1 then ky :: insert_by_key kx l' else kx :: l
  end.

Definition sort_by_key (l : list (Z * Z)) : list (Z * Z) :=
  foldr insert_by_key [] l.

(** [order_domain_values]: the keys are computed first, then the sort. *)
Definition order_domain_values (self : SudokuCSP) (var : cell)
    (domains : gmap cell (list Z)) (assignment : gmap cell Z) : res (list Z) :=
  match domains !! var with
  | None => Raise KeyError
  | Some values =>
      keys ← mapM (eliminated_count self var domains assignment) values;
      Ok ((sort_by_key (zip keys values)).*2)
  end.

(** ** Forward checking *)

(** The loop of [forward_check] over [self.variables]. *)
Fixpoint fc_loop (bs : Z) (var : cell) (value : Z) (vars : list cell)
    (new_domains removed : gmap cell (list Z))
  : res (option (gmap cell (list Z)) * gmap cell (list Z)) :=
  match vars with
  | [] => Ok (Some new_domains, removed)
  | rc :: vars' =>
      if bool_decide (rc = var) then fc_loop bs var value vars' new_domains removed
      else if same_unit bs rc var then
        match new_domains !! rc with
        | None => Raise KeyError
        | Some d =>
            if py_in value d then
              match removed !! rc with
              | None => Raise KeyError
              | Some rm =>
                  let d' := py_remove value d in
                  let new_domains' := <[rc := d']> new_domains in
                  let removed' := <[rc := rm ++ [value]]> removed in
                  match d' with
                  | [] => Ok (None, removed')
                  | _ => fc_loop bs var value vars' new_domains' removed'
                  end
              end
            else
              match d with
              | [] => Ok (None, removed)
              | _ => fc_loop bs var value vars' new_domains removed
              end
        end
      else fc_loop bs var value vars' new_domains removed
  end.

(** [forward_check]: the copy of [domains] with [var] pinned to [[value]],
    then the loop. *)
Definition forward_check (self : SudokuCSP) (var : cell) (value : Z)
    (domains : gmap cell (list Z))
  : res (option (gmap cell (list Z)) * gmap cell (list Z)) :=
  let new_domains := <[var := [value]]> domains in
  let removed := (λ _, []) <$> domains in
  fc_loop (box_size self) var value (variables self) new_domains removed.

(** ** Backtracking search *)

(** The events of the generator; a snapshot is the [dict(assignment)] copy
    made at the [yield]. *)
Inductive event :=
| Solution (snapshot : gmap cell Z)
| Mrv (var : cell) (domain : list Z)
| Lcv (var : cell) (order : list Z)
| Pruned (var : cell) (value : Z)
| Assign (var : cell) (value : Z) (snapshot : gmap cell Z)
| FcFail (var : cell) (value : Z) (removed : gmap cell (list Z))
| FcOk (var : cell) (value : Z) (removed : gmap cell (list Z))
| Unassign (var : cell) (snapshot : gmap cell Z).

(** How a drained generator stops: it returns, an exception escapes, or
    the recursion budget of the model is used up. *)
Inductive ending :=
| Returned
| Raised (x : exn)
| OutOfFuel.

(** A full drain: the events in order, and the counters and the shared
    assignment dict as the generator leaves them. *)
Record run := Run {
  events : list event;
  final_stats : stats;
  final_assignment : gmap cell Z;
  ending_of : ending
}.

Definition emit (evs : list event) (r : run) : run :=
  Run (evs ++ events r) (final_stats r) (final_assignment r) (ending_of r).

Definition bump_nodes (st : stats) : stats :=
  Stats (nodes st + 1) (backtracks st) (solutions st).
Definition bump_backtracks (st : stats) : stats :=
  Stats (nodes st) (backtracks st + 1) (solutions st).
Definition bump_solutions (st : stats) : stats :=
  Stats (nodes st) (backtracks st) (solutions st + 1).

(** The [for value in lcv_order] loop; [rec] is the recursive call. *)
Fixpoint try_values (rec : gmap cell (list Z) → gmap cell Z → stats → run)
    (self : SudokuCSP) (var : cell) (domains : gmap cell (list Z))
    (values : list Z) (assignment : gmap cell Z) (st : stats) : run :=
  match values with
  | [] => Run [] st assignment Returned
  | value :: rest =>
      match is_consistent self var value assignment with
      | Raise x => Run [] st assignment (Raised x)
      | Ok false =>
          emit [Pruned var value]
               (try_values rec self var domains rest assignment st)
      | Ok true =>
          let assignment1 := <[var := value]> assignment in
          match forward_check self var value domains with
          | Raise x => Run [Assign var value assignment1] st assignment1 (Raised x)
          | Ok (None, removed) =>
              let assignment2 := delete var assignment1 in
              emit [Assign var value assignment1; FcFail var value removed;
                    Unassign var assignment2]
                   (try_values rec self var domains rest assignment2
                               (bump_backtracks st))
          | Ok (Some new_domains, removed) =>
              let r := rec new_domains assignment1 st in
              let seen := Assign var value assignment1 :: FcOk var value removed
                          :: events r in
              match ending_of r with
              | Returned =>
                  match final_assignment r !! var with
                  | None => Run seen (final_stats r) (final_assignment r)
                                (Raised KeyError)
                  | Some _ =>
                      let assignment2 := delete var (final_assignment r) in
                      emit (seen ++ [Unassign var assignment2])
                           (try_values rec self var domains rest assignment2
                                       (bump_backtracks (final_stats r)))
                  end
              | e => Run seen (final_stats r) (final_assignment r) e
              end
          end
      end
  end.

(** The body of [backtrack_generator], drained; [fuel] bounds the depth
    of the recursion. *)
Fixpoint search (fuel : nat) (self : SudokuCSP) (domains : gmap cell (list Z))
    (assignment : gmap cell Z) (st : stats) : run :=
  match fuel with
  | O => Run [] st assignment OutOfFuel
  | S fuel' =>
      let st1 := bump_nodes st in
      if bool_decide (base.size assignment = length (variables self))
      then Run [Solution assignment] (bump_solutions st1) assignment Returned
      else
        match select_unassigned_var self domains assignment with
        | Raise x => Run [] st1 assignment (Raised x)
        | Ok var =>
            match domains !! var with
            | None => Run [] st1 assignment (Raised KeyError)
            | Some d =>
                match order_domain_values self var domains assignment with
                | Raise x => Run [Mrv var d] st1 assignment (Raised x)
                | Ok lcv_order =>
                    emit [Mrv var d; Lcv var lcv_order]
                         (try_values (search fuel' self) self var domains
                                     lcv_order assignment st1)
                end
            end
        end
  end.

(** [{v: list(self.initial_domains[v]) for v in self.variables}], one
    key at a time. *)
Definition default_step (self : SudokuCSP) (acc : res (gmap cell (list Z)))
    (v : cell) : res (gmap cell (list Z)) :=
  m ← acc;
  match initial_domains self !! v with
  | None => Raise KeyError
  | Some d => Ok (<[v := d]> m)
  end.

Definition default_domains (self : SudokuCSP) : res (gmap cell (list Z)) :=
  foldl (default_step self) (Ok ∅) (variables self).

(** The depth of the recursion never exceeds the number of variables
    still to assign (lemma [search_total] below), so this budget is
    never used up. *)
Definition depth_bound (self : SudokuCSP) (assignment : gmap cell Z) : nat :=
  S (length (unassigned self assignment)).

(** [backtrack_generator(domains=None, assignment=None)], drained. *)
Definition backtrack_generator (self : SudokuCSP)
    (domains : option (gmap cell (list Z))) (assignment : option (gmap cell Z)) : run :=
  let assignment' := match assignment with None => ∅ | Some a => a end in
  match match domains with None => default_domains self | Some d => Ok d end with
  | Raise x => Run [] (counters self) assignment' (Raised x)
  | Ok domains' =>
      search (depth_bound self assignment') self domains' assignment' (counters self)
  end.

(** ** Puzzle validation *)

(** The [for event in gen] loop of [is_valid_puzzle]: the verdict, and
    how many events were requested from the generator before it. *)
Fixpoint count_loop (evs : list event) (fin : ending) (solution_count : Z)
    (pulled : nat) : option (res bool) * nat :=
  match evs with
  | [] =>
      (match fin with
       | Returned => Some (Ok (solution_count =? 1))
       | Raised x => Some (Raise x)
       | OutOfFuel => None
       end, pulled)
  | Solution _ :: evs' =>
      let solution_count' := solution_count + 1 in
      if 1 <? solution_count' then (Some (Ok false), S pulled)
      else count_loop evs' fin solution_count' (S pulled)
  | _ :: evs' => count_loop evs' fin solution_count (S pulled)
  end.

(** [is_valid_puzzle] *)
Definition is_valid_puzzle (board : list (list Z)) : option (res bool) * nat :=
  let n := Z.of_nat (length board) in
  match __init__ n (Some board) with
  | Raise x => (Some (Raise x), O)
  | Ok csp =>
      let r := backtrack_generator csp None None in
      count_loop (events r) (ending_of r) 0 O
  end.

(** ** Puzzle generation *)

(** The position that Python's [l[i]] reads or writes: a negative index
    counts from the end. *)
Definition py_index {A} (l : list A) (i : Z) : option nat :=
  let len := Z.of_nat (length l) in
  if 0 <=? i
  then (if i <? len then Some (Z.to_nat i) else None)
  else (if 0 <=? i + len then Some (Z.to_nat (i + len)) else None).

(** [l[i]] *)
Definition get_item {A} (l : list A) (i : Z) : res A :=
  match py_index l i ≫= (λ k, l !! k) with
  | Some x => Ok x
  | None => Raise IndexError
  end.

(** [board[r][c] = v]; the rows of the board are separate lists. *)
Definition set_cell (board : list (list Z)) (rc : cell) (v : Z)
  : res (list (list Z)) :=
  match py_index board rc.1 with
  | None => Raise IndexError
  | Some i =>
      match board !! i with
      | None => Raise IndexError
      | Some row =>
          match py_index row rc.2 with
          | None => Raise IndexError
          | Some j => Ok (<[i := <[j := v]> row]> board)
          end
      end
  end.

(** The body of the loops over one diagonal box: the board and [idx];
    [nums] is what [np.random.shuffle] left in it. *)
Definition seed_step (box_size box_num : Z) (nums : list Z)
    (acc : res (list (list Z) * Z)) (rc : cell) : res (list (list Z) * Z) :=
  st ← acc;
  v ← get_item nums st.2;
  board ← set_cell st.1 (box_num * box_size + rc.1, box_num * box_size + rc.2) v;
  Ok (board, st.2 + 1).

(** One round of [for box_num in range(box_size)]; [shuffled box_num] is
    the content of [nums] after the shuffle of that round. *)
Definition seed_box (box_size : Z) (shuffled : Z → list Z)
    (acc : res (list (list Z))) (box_num : Z) : res (list (list Z)) :=
  board ← acc;
  st ← foldl (seed_step box_size box_num (shuffled box_num)) (Ok (board, 0))
             (cells box_size);
  Ok st.1.

(** The board after the diagonal boxes are filled. *)
Definition seed_board (size box_size : Z) (shuffled : Z → list Z)
  : res (list (list Z)) :=
  foldl (seed_box box_size shuffled) (Ok (empty_board size)) (range box_size).

(** The loop that takes the first solution event and leaves the
    generator there: [None] when the generator ends without one. *)
Fixpoint first_solution (evs : list event) (fin : ending)
  : option (res (option (gmap cell Z))) :=
  match evs with
  | [] =>
      match fin with
      | Returned => Some (Ok None)
      | Raised x => Some (Raise x)
      | OutOfFuel => None
      end
  | Solution s :: _ => Some (Ok (Some s))
  | _ :: evs' => first_solution evs' fin
  end.

(** [if (r, c) in solution: board[r][c] = solution[(r, c)]] *)
Definition fill_step (solution : gmap cell Z) (acc : res (list (list Z)))
    (rc : cell) : res (list (list Z)) :=
  board ← acc;
  match solution !! rc with
  | None => Ok board
  | Some v => set_cell board rc v
  end.

(** [r, c = cells[i]; board[r][c] = 0] *)
Definition blank_step (cells : list cell) (acc : res (list (list Z)))
    (i : Z) : res (list (list Z)) :=
  board ← acc;
  rc ← get_item cells i;
  set_cell board rc 0.

(** [generate_puzzle].  What is random or computed in floating point is
    an argument: [cells_to_remove] is the integer that
    [_get_cells_to_remove(difficulty, size)] returns, [shuffled_nums] and
    [shuffled_cells] are the lists as [np.random.shuffle] leaves them.
    The result is [None] only if the model of the generator runs out of
    its recursion budget, which it never does. *)
Definition generate_puzzle (size : Z) (cells_to_remove : Z)
    (shuffled_nums : Z → list Z) (shuffled_cells : list cell)
  : option (res (list (list Z))) :=
  match int_sqrt size with
  | Raise x => Some (Raise x)
  | Ok box_size =>
      match seed_board size box_size shuffled_nums with
      | Raise x => Some (Raise x)
      | Ok board =>
          match __init__ size (Some board) with
          | Raise x => Some (Raise x)
          | Ok temp_csp =>
              let r := backtrack_generator temp_csp None None in
              match first_solution (events r) (ending_of r) with
              | None => None
              | Some (Raise x) => Some (Raise x)
              | Some (Ok None) => Some (Ok board)
              | Some (Ok (Some solution)) =>
                  if bool_decide (solution = ∅) then Some (Ok board)
                  else
                    Some (board1 ← foldl (fill_step solution) (Ok board)
                                         (cells size);
                          foldl (blank_step shuffled_cells) (Ok board1)
                                (range (Z.min cells_to_remove
                                          (Z.of_nat (length shuffled_cells)))))
              end
          end
      end
  end.

(** ** Objects shared by reference

    What a call leaves untouched is a statement about the objects that the
    caller still holds afterwards: the grid given to the constructor, the
    domain dict given to [forward_check], the assignment dict given to
    [is_consistent].  These live in a heap of mutable objects; a Python
    variable that holds one of them is a location.  The functions below
    are the same methods with their arguments passed by reference, every
    copy, every new object and every in-place update written out. *)

Definition loc := positive.

Inductive obj :=
| OList (xs : list Z)          (* a list of ints: a row, a domain, a removal record *)
| OGrid (rows : list loc)      (* a list of rows *)
| ODict (m : gmap cell loc)    (* a dict from cells to lists *)
| OAsg (m : gmap cell Z).      (* a dict from cells to ints *)

Abbreviation store := (gmap loc obj).

(** A computation on the heap that may raise. *)
Definition M (A : Type) : Type := store → res A * store.

#[global] Instance M_ret : MRet M := λ A a σ, (Ok a, σ).
#[global] Instance M_bind : MBind M := λ A B f m σ,
  match m σ with
  | (Ok a, σ') => f a σ'
  | (Raise x, σ') => (Raise x, σ')
  end.

Definition lift {A} (r : res A) : M A := λ σ, (r, σ).

(** A new object, at a location that nothing refers to yet. *)
Definition alloc (o : obj) : M loc := λ σ,
  let l := fresh (dom σ) in (Ok l, <[l := o]> σ).

(** An in-place update of the object at [l]. *)
Definition put (l : loc) (o : obj) : M unit := λ σ, (Ok (), <[l := o]> σ).

(** Reading an object as a list, a grid or a dict; Python raises a
    [TypeError] on an object of another kind, and a location without an
    object, which Python cannot have, is treated the same way. *)
Definition get_list (l : loc) : M (list Z) := λ σ,
  match σ !! l with
  | Some (OList xs) => (Ok xs, σ)
  | _ => (Raise TypeError, σ)
  end.

Definition get_grid (l : loc) : M (list loc) := λ σ,
  match σ !! l with
  | Some (OGrid rows) => (Ok rows, σ)
  | _ => (Raise TypeError, σ)
  end.

Definition get_dict (l : loc) : M (gmap cell loc) := λ σ,
  match σ !! l with
  | Some (ODict m) => (Ok m, σ)
  | _ => (Raise TypeError, σ)
  end.

Definition get_asg (l : loc) : M (gmap cell Z) := λ σ,
  match σ !! l with
  | Some (OAsg m) => (Ok m, σ)
  | _ => (Raise TypeError, σ)
  end.

(** [d[k]] for a dict of lists: the list object under the key. *)
Definition dict_at (d : loc) (k : cell) : M loc :=
  m ← get_dict d;
  match m !! k with
  | None => lift (Raise KeyError)
  | Some l => mret l
  end.

(** *** The constructor *)

(** [row[:]] *)
Definition copy_row (row : loc) : M loc :=
  xs ← get_list row; alloc (OList xs).

(** [[0 for _ in range(size)]] *)
Definition zero_row (n : Z) (_ : Z) : M loc :=
  alloc (OList ((λ _, 0) <$> range n)).

(** The content of a grid object, row by row. *)
Definition get_board (b : loc) : M (list (list Z)) :=
  rows ← get_grid b; mapM get_list rows.

(** An engine object: its fields, and the grid object behind
    [self.initial_board]. *)
Record SudokuObj := Built {
  engine : SudokuCSP;
  board_ref : loc
}.

(** [SudokuCSP.__init__] with the grid passed by reference.  The loops
    read [self.initial_board], the engine's own grid, which nothing writes
    while they run; the variable list and the domain dict that they fill
    are new objects of the engine. *)
Definition init_st (n : Z) (initial_board : option loc) : M SudokuObj :=
  bs ← lift (int_sqrt n);
  rows ← match initial_board with
          | None => mapM (zero_row n) (range n)
          | Some b => rs ← get_grid b; mapM copy_row rs
          end;
  b' ← alloc (OGrid rows);
  board' ← get_board b';
  csp ← lift (setup n bs board');
  mret (Built csp b').

(** [is_valid_puzzle] with the grid passed by reference. *)
Definition is_valid_puzzle_st (board : loc) (σ : store)
  : (option (res bool) * nat) * store :=
  match (rs ← get_grid board;
         init_st (Z.of_nat (length rs)) (Some board)) σ with
  | (Raise x, σ') => ((Some (Raise x), O), σ')
  | (Ok csp, σ') =>
      let r := backtrack_generator (engine csp) None None in
      (count_loop (events r) (ending_of r) 0 O, σ')
  end.

(** *** The consistency check *)

(** [is_consistent] with the assignment passed by reference: the scans
    only look keys up. *)
Definition is_consistent_st (self : SudokuCSP) (var : cell) (value : Z)
    (assignment : loc) : M bool :=
  a ← get_asg assignment;
  lift (is_consistent self var value a).

(** *** Forward checking *)

(** One item of [{v: list(domains[v]) for v in domains}]. *)
Definition copy_entry (kl : cell * loc) : M (cell * loc) :=
  xs ← get_list kl.2; l ← alloc (OList xs); mret (kl.1, l).

(** One item of [{v: [] for v in domains}]. *)
Definition empty_entry (kl : cell * loc) : M (cell * loc) :=
  l ← alloc (OList []); mret (kl.1, l).

(** The loop of [forward_check] over [self.variables], on the two new
    dicts: [.remove] and [.append] update the list objects in place. *)
Fixpoint fc_loop_st (bs : Z) (var : cell) (value : Z) (vars : list cell)
    (new_domains removed : loc) : M (option loc * loc) :=
  match vars with
  | [] => mret (Some new_domains, removed)
  | rc :: vars' =>
      if bool_decide (rc = var)
      then fc_loop_st bs var value vars' new_domains removed
      else if same_unit bs rc var then
        dl ← dict_at new_domains rc;
        d ← get_list dl;
        (if py_in value d then
           put dl (OList (py_remove value d));;
           rl ← dict_at removed rc;
           rm ← get_list rl;
           put rl (OList (rm ++ [value]))
         else mret ());;
        dl' ← dict_at new_domains rc;
        d' ← get_list dl';
        match d' with
        | [] => mret (None, removed)
        | _ => fc_loop_st bs var value vars' new_domains removed
        end
      else fc_loop_st bs var value vars' new_domains removed
  end.

(** [forward_check] with the domain dict passed by reference. *)
Definition forward_check_st (self : SudokuCSP) (var : cell) (value : Z)
    (domains : loc) : M (option loc * loc) :=
  m ← get_dict domains;
  copies ← mapM copy_entry (map_to_list m);
  new_domains ← alloc (ODict (list_to_map copies));
  empties ← mapM empty_entry (map_to_list m);
  removed ← alloc (ODict (list_to_map empties));
  pinned ← alloc (OList [value]);
  nm ← get_dict new_domains;
  put new_domains (ODict (<[var := pinned]> nm));;
  fc_loop_st (box_size self) var value (variables self) new_domains removed.


(** ** Boards, completions and solved grids *)

(** The content of a cell of the board ([0] where the board has no cell). *)
Definition cell_val (board : list (list Z)) (rc : cell) : Z :=
  match board_at board rc with
  | Ok v => v
  | Raise _ => 0
  end.

(** The board has an entry for every coordinate the constructor reads. *)
Definition covers_grid (n : Z) (board : list (list Z)) : bool :=
  forallb (λ rc, match board_at board rc with
                 | Ok _ => true
                 | Raise _ => false
                 end) (cells n).

(** [x] is in [1..n] and no filled cell in the row, column or box of [k]
    holds it. *)
Definition allowed (n bs : Z) (board : list (list Z)) (k : cell) (x : Z) : Prop :=
  1 ≤ x ≤ n ∧
  ∀ rc, rc ∈ cells n → cell_val board rc ≠ 0 →
        same_unit bs k rc = true → cell_val board rc ≠ x.

(** The two pairs of loops of [__init__] when no [IndexError] occurs. *)
Definition collect_pure (n : Z) (board : list (list Z))
    (m : gmap cell (list Z)) (rc : cell) : gmap cell (list Z) :=
  if decide (cell_val board rc = 0) then <[rc := seqZ 1 n]> m else m.

Definition prune_pure (bs : Z) (board : list (list Z))
    (m : gmap cell (list Z)) (rc : cell) : gmap cell (list Z) :=
  if decide (cell_val board rc = 0) then m
  else _remove_conflicts bs rc.1 rc.2 (cell_val board rc) m.

(** What [__init__] leaves in the engine. *)
Record engine_for (n : Z) (board : list (list Z)) (self : SudokuCSP) : Prop := {
  ef_size : size self = n;
  ef_box_size : box_size self = Z.sqrt n;
  ef_variables :
    variables self = filter (λ rc, cell_val board rc = 0) (cells n);
  ef_board : initial_board self = board;
  ef_counters : counters self = Stats 0 0 0;
  ef_domains : ∀ k, k ∈ variables self →
    ∃ d, initial_domains self !! k = Some d ∧ NoDup d ∧
         ∀ x, x ∈ d ↔ allowed n (Z.sqrt n) board k x;
  ef_domains_none : ∀ k, k ∉ variables self → initial_domains self !! k = None
}.

(** A well-formed input: an N×N grid with N a positive square, entries in
    [0..N], and no two filled cells of one row, column or box equal. *)
Definition is_square (n : Z) : bool :=
  (0 <? n) && (Z.sqrt n * Z.sqrt n =? n).

Definition filled_consistent (n : Z) (board : list (list Z)) : bool :=
  forallb (λ p,
    forallb (λ q,
      bool_decide (p = q) || (cell_val board p =? 0)
      || negb (same_unit (Z.sqrt n) p q)
      || negb (cell_val board p =? cell_val board q)) (cells n)) (cells n).

Definition well_formed (board : list (list Z)) : bool :=
  let n := Z.of_nat (length board) in
  is_square n
  && forallb (λ row, bool_decide (length row = length board)) board
  && forallb (λ rc, (0 <=? cell_val board rc) && (cell_val board rc <=? n)) (cells n)
  && filled_consistent n board.

(** The grid a solution event stands for: the filled cells of the board,
    and the assignment on the empty ones. *)
Definition merged (board : list (list Z)) (s : gmap cell Z) (rc : cell) : Z :=
  if cell_val board rc =? 0 then default 0 (s !! rc) else cell_val board rc.

Definition row_of (g : cell → Z) (n r : Z) : list Z :=
  (λ c, g (r, c)) <$> range n.
Definition col_of (g : cell → Z) (n c : Z) : list Z :=
  (λ r, g (r, c)) <$> range n.
Definition box_of (g : cell → Z) (bs br bc : Z) : list Z :=
  r ← seqZ (br * bs) bs; c ← seqZ (bc * bs) bs; [g (r, c)].

(** Every row, column and box is a permutation of [1..n]. *)
Definition grid_solved (n bs : Z) (g : cell → Z) : Prop :=
  (∀ r, r ∈ range n → row_of g n r ≡ₚ seqZ 1 n) ∧
  (∀ c, c ∈ range n → col_of g n c ≡ₚ seqZ 1 n) ∧
  (∀ br bc, br ∈ range bs → bc ∈ range bs → box_of g bs br bc ≡ₚ seqZ 1 n).

(** A completion of the board: a value for exactly the empty cells that
    solves the grid. *)
Definition completion (board : list (list Z)) (s : gmap cell Z) : Prop :=
  let n := Z.of_nat (length board) in
  (∀ rc, is_Some (s !! rc) ↔ rc ∈ cells n ∧ cell_val board rc = 0) ∧
  grid_solved n (Z.sqrt n) (merged board s).

(** The assignments of the solution events, in order. *)
Definition solutions_of (evs : list event) : list (gmap cell Z) :=
  omap (λ e, match e with Solution s => Some s | _ => None end) evs.

(** The cells [is_consistent] looks at: the row and the column of [var]
    inside the grid, and the box of [var]. *)
Definition scanned (self : SudokuCSP) (var k : cell) : Prop :=
  (k.1 = var.1 ∧ 0 ≤ k.2 < size self) ∨
  (k.2 = var.2 ∧ 0 ≤ k.1 < size self) ∨
  (k.1 / box_size self = var.1 / box_size self ∧
   k.2 / box_size self = var.2 / box_size self).

(** ** Counting events *)

Definition is_solution (e : event) : bool :=
  match e with Solution _ => true | _ => false end.
Definition is_fc_ok (e : event) : bool :=
  match e with FcOk _ _ _ => true | _ => false end.
Definition is_fc_fail (e : event) : bool :=
  match e with FcFail _ _ _ => true | _ => false end.

Fixpoint count_events (p : event → bool) (evs : list event) : Z :=
  match evs with
  | [] => 0
  | e :: evs' => (if p e then 1 else 0) + count_events p evs'
  end.

(** ** What the search relies on

    The variables are pairwise different, and the box size is not zero
    when there is a variable; the keys of the assignment are variables;
    every variable has a domain, and the domains are duplicate-free. *)
Definition engine_ok (self : SudokuCSP) : Prop :=
  NoDup (variables self) ∧ (variables self = [] ∨ box_size self ≠ 0).

Definition state_ok (self : SudokuCSP) (d : gmap cell (list Z))
    (a : gmap cell Z) : Prop :=
  (∀ k, is_Some (a !! k) → k ∈ variables self) ∧
  (∀ k, k ∈ variables self → is_Some (d !! k)) ∧
  map_Forall (λ _ dk, NoDup dk) d.

(** ** Grids without a repeated value

    The cells of a rectangle of the grid, row by row; [cells n] is
    [rect 0 n 0 n], and a box is a [box_size] by [box_size] rectangle. *)
Definition rect (r0 h c0 w : Z) : list cell :=
  r ← seqZ r0 h; c ← seqZ c0 w; [(r, c)].

(** Every cell of the grid holds a value of [1..n], and two different
    cells of one row, column or box hold different values. *)
Definition latin (n bs : Z) (g : cell → Z) : Prop :=
  (∀ k, k ∈ cells n → 1 ≤ g k ≤ n) ∧
  (∀ k1 k2, k1 ∈ cells n → k2 ∈ cells n → k1 ≠ k2 →
            same_unit bs k1 k2 = true → g k1 ≠ g k2).

(** ** Assignments that respect the constraints

    [A k x] stands for what makes the value [x] admissible for the
    variable [k] on its own (for a constructed engine: [allowed]).  A valid
    assignment gives admissible values to variables, and different values
    to two variables of one row, column or box. *)
Definition valid_partial (self : SudokuCSP) (A : cell → Z → Prop)
    (a : gmap cell Z) : Prop :=
  (∀ k x, a !! k = Some x → k ∈ variables self ∧ A k x) ∧
  (∀ k1 k2 x, a !! k1 = Some x → a !! k2 = Some x → k1 ≠ k2 →
              same_unit (box_size self) k1 k2 = false).

Definition valid_total (self : SudokuCSP) (A : cell → Z → Prop)
    (s : gmap cell Z) : Prop :=
  valid_partial self A s ∧ ∀ k, k ∈ variables self → is_Some (s !! k).

Definition domains_within (self : SudokuCSP) (A : cell → Z → Prop)
    (d : gmap cell (list Z)) : Prop :=
  ∀ k dk x, k ∈ variables self → d !! k = Some dk → x ∈ dk → A k x.

(** [s] takes the value of every variable in its domain. *)
Definition fits (self : SudokuCSP) (d : gmap cell (list Z)) (s : gmap cell Z) : Prop :=
  ∀ k, k ∈ variables self →
       ∃ dk x, d !! k = Some dk ∧ s !! k = Some x ∧ x ∈ dk.

(** What the solution events of a call, and of the loop of a call, are:
    valid total assignments that extend the assignment of the call, each
    once, and all of those that fit the domains. *)
Definition node_spec (self : SudokuCSP) (A : cell → Z → Prop)
    (d : gmap cell (list Z)) (a : gmap cell Z) (r : run) : Prop :=
  (∀ s, s ∈ solutions_of (events r) → valid_total self A s ∧ a ⊆ s) ∧
  NoDup (solutions_of (events r)) ∧
  (∀ s, valid_total self A s → a ⊆ s → fits self d s →
        s ∈ solutions_of (events r)).

Definition loop_spec (self : SudokuCSP) (A : cell → Z → Prop) (var : cell)
    (d : gmap cell (list Z)) (values : list Z) (a : gmap cell Z) (r : run) : Prop :=
  (∀ s, s ∈ solutions_of (events r) →
        valid_total self A s ∧ a ⊆ s ∧ ∃ x, x ∈ values ∧ s !! var = Some x) ∧
  NoDup (solutions_of (events r)) ∧
  (∀ s, valid_total self A s → a ⊆ s → fits self d s →
        (∃ x, x ∈ values ∧ s !! var = Some x) →
        s ∈ solutions_of (events r)).

(** ** Reading the heap *)

(** The content of the list, the grid and the dict of lists behind a
    location, when it holds one whose parts are all there. *)
Definition read_list (σ : store) (l : loc) : option (list Z) :=
  match σ !! l with
  | Some (OList xs) => Some xs
  | _ => None
  end.

Definition read_board (σ : store) (b : loc) : option (list (list Z)) :=
  match σ !! b with
  | Some (OGrid rows) => mapM (read_list σ) rows
  | _ => None
  end.

Definition read_dict (σ : store) (d : loc) : option (gmap cell (list Z)) :=
  match σ !! d with
  | Some (ODict m) =>
      if bool_decide (map_Forall (λ _ l, is_Some (read_list σ l)) m)
      then Some (omap (read_list σ) m)
      else None
  | _ => None
  end.

(** The lists of the dict [m] hold the domain map [D]; none of them
    existed in [σ0], and no two keys share one. *)
Definition owns (σ0 σ : store) (m : gmap cell loc) (D : gmap cell (list Z)) : Prop :=
  (∀ k, m !! k ≫= read_list σ = D !! k) ∧
  (∀ k l, m !! k = Some l → σ0 !! l = None ∧ is_Some (read_list σ l)) ∧
  (∀ k1 k2 l, m !! k1 = Some l → m !! k2 = Some l → k1 = k2).

(** The state of the loop of [forward_check]: the two new dicts, apart
    from each other and from everything that existed in [σ0]. *)
Definition fc_inv (σ0 σ : store) (nd rm : loc) (D R : gmap cell (list Z)) : Prop :=
  σ0 ⊆ σ ∧
  ∃ ndm rmm,
    σ !! nd = Some (ODict ndm) ∧ σ !! rm = Some (ODict rmm) ∧
    owns σ0 σ ndm D ∧ owns σ0 σ rmm R ∧
    (∀ k1 k2 l, ndm !! k1 = Some l → rmm !! k2 = Some l → False).

(** ** What the constructor and the value ordering compute *)

(** The values of [1..n], in ascending order, that no filled cell in the
    row, column or box of [k] holds. *)
Definition candidates (n bs : Z) (board : list (list Z)) (k : cell) : list Z :=
  filter (λ x, Forall (λ rc, cell_val board rc = 0 ∨ same_unit bs k rc = false
                             ∨ cell_val board rc ≠ x) (cells n))
         (seqZ 1 n).

(** The number of variables other than [var], not assigned, in the row,
    column or box of [var], whose domain holds [value]. *)
Definition lcv_count (self : SudokuCSP) (var : cell) (d : gmap cell (list Z))
    (a : gmap cell Z) (value : Z) : Z :=
  Z.of_nat (length (filter (λ rc, rc ≠ var ∧ a !! rc = None
                                  ∧ same_unit (box_size self) rc var = true
                                  ∧ value ∈ default [] (d !! rc))
                           (variables self))).

Definition is_assign (e : event) : bool :=
  match e with Assign _ _ _ => true | _ => false end.
Definition is_unassign (e : event) : bool :=
  match e with Unassign _ _ => true | _ => false end.

(** Between two states of the loop of [forward_check], under the key
    [k]: the removal record has grown by copies of [value], nothing under
    [var], and the domain has lost what the record gained. *)
Definition recorded (var : cell) (value : Z) (nd rm : gmap cell (list Z))
    (ond : option (gmap cell (list Z))) (rm' : gmap cell (list Z))
    (k : cell) : Prop :=
  ∃ r', Forall (λ x, x = value) r' ∧ (k = var → r' = []) ∧
        rm' !! k = (λ r, r ++ r') <$> rm !! k ∧
        ∀ nd', ond = Some nd' →
          match nd !! k with
          | Some dk => ∃ dk', nd' !! k = Some dk' ∧ dk ≡ₚ dk' ++ r'
          | None => nd' !! k = None
          end.

(** ** Boards under the writes of the puzzle generator *)

(** A board of [n] rows of [n] entries. *)
Definition shaped (n : Z) (board : list (list Z)) : Prop :=
  Z.of_nat (length board) = n ∧
  Forall (λ row, Z.of_nat (length row) = n) board.

(** Writes [board[r][c] = v], done in order. *)
Definition set_step (acc : res (list (list Z))) (w : cell * Z)
  : res (list (list Z)) :=
  board ← acc; set_cell board w.1 w.2.

(** The writes of the seeding: the cells of each diagonal box, row by
    row, with the items of its shuffled list. *)
Definition seed_writes (bs : Z) (shuffled : Z → list Z) : list (cell * Z) :=
  j ← range bs; zip (rect (j * bs) bs (j * bs) bs) (shuffled j).

(** The number of empty cells of a board. *)
Definition empty_cells (n : Z) (board : list (list Z)) : list cell :=
  filter (λ rc, cell_val board rc = 0) (cells n).

(** ** A sample input

    A well-formed 4×4 board without a completion; the concrete instances
    of the theorems below are taken on it. *)
Definition sample_board : list (list Z) :=
  [[3; 0; 0; 0];
   [0; 0; 4; 0];
   [0; 0; 0; 0];
   [0; 4; 0; 0]].

Definition sample_engine : SudokuCSP :=
  match __init__ 4 (Some sample_board) with
  | Ok self => self
  | Raise _ => Engine 0 0 [] ∅ [] (Stats 0 0 0)
  end.

(** A board with a single empty cell. *)
Definition almost_full_board : list (list Z) :=
  [[1; 2; 3; 4];
   [3; 4; 1; 2];
   [2; 1; 4; 3];
   [4; 3; 2; 0]].

(** A board with two empty cells, and its engine. *)
Definition two_gaps_board : list (list Z) :=
  [[1; 0; 0; 4];
   [3; 4; 1; 2];
   [2; 1; 4; 3];
   [4; 3; 2; 1]].

Definition two_gaps_engine : SudokuCSP :=
  match __init__ 4 (Some two_gaps_board) with
  | Ok self => self
  | Raise _ => Engine 0 0 [] ∅ [] (Stats 0 0 0)
  end.

(** A heap: the four rows and the grid of [sample_board], two domains and
    the dict that holds them, and an assignment dict. *)
Definition sample_heap : store :=
  {[ 1%positive := OList [3; 0; 0; 0];
     2%positive := OList [0; 0; 4; 0];
     3%positive := OList [0; 0; 0; 0];
     4%positive := OList [0; 4; 0; 0];
     5%positive := OGrid [1; 2; 3; 4]%positive;
     6%positive := OList [2; 3];
     7%positive := OList [2; 3];
     8%positive := ODict {[ (0, 1) := 6%positive; (0, 2) := 7%positive ]};
     9%positive := OAsg {[ (1, 2) := 4 ]} ]}.

(** ** The search as a derivation

    [node_run self d a st r]: draining one call of the generator on
    domains [d] and assignment [a], with the counters at [st], gives [r].
    [loop_run] is the same for the loop over the ordered values.  The
    rules follow [search] and [try_values] case by case (lemma
    [search_node_run]); they are the induction principle of the proofs. *)
Inductive node_run (self : SudokuCSP) :
    gmap cell (list Z) → gmap cell Z → stats → run → Prop :=
| nr_solution d a st :
    base.size a = length (variables self) →
    node_run self d a st
      (Run [Solution a] (bump_solutions (bump_nodes st)) a Returned)
| nr_select_raise d a st x :
    base.size a ≠ length (variables self) →
    select_unassigned_var self d a = Raise x →
    node_run self d a st (Run [] (bump_nodes st) a (Raised x))
| nr_domain_missing d a st var :
    base.size a ≠ length (variables self) →
    select_unassigned_var self d a = Ok var →
    d !! var = None →
    node_run self d a st (Run [] (bump_nodes st) a (Raised KeyError))
| nr_order_raise d a st var dv x :
    base.size a ≠ length (variables self) →
    select_unassigned_var self d a = Ok var →
    d !! var = Some dv →
    order_domain_values self var d a = Raise x →
    node_run self d a st (Run [Mrv var dv] (bump_nodes st) a (Raised x))
| nr_loop d a st var dv order r :
    base.size a ≠ length (variables self) →
    select_unassigned_var self d a = Ok var →
    d !! var = Some dv →
    order_domain_values self var d a = Ok order →
    loop_run self var d order a (bump_nodes st) r →
    node_run self d a st (emit [Mrv var dv; Lcv var order] r)
with loop_run (self : SudokuCSP) :
    cell → gmap cell (list Z) → list Z → gmap cell Z → stats → run → Prop :=
| lr_done var d a st :
    loop_run self var d [] a st (Run [] st a Returned)
| lr_consistent_raise var d value rest a st x :
    is_consistent self var value a = Raise x →
    loop_run self var d (value :: rest) a st (Run [] st a (Raised x))
| lr_pruned var d value rest a st r :
    is_consistent self var value a = Ok false →
    loop_run self var d rest a st r →
    loop_run self var d (value :: rest) a st (emit [Pruned var value] r)
| lr_fc_raise var d value rest a st x :
    is_consistent self var value a = Ok true →
    forward_check self var value d = Raise x →
    loop_run self var d (value :: rest) a st
      (Run [Assign var value (<[var := value]> a)] st (<[var := value]> a)
           (Raised x))
| lr_fc_fail var d value rest a st removed r :
    is_consistent self var value a = Ok true →
    forward_check self var value d = Ok (None, removed) →
    loop_run self var d rest (delete var (<[var := value]> a))
             (bump_backtracks st) r →
    loop_run self var d (value :: rest) a st
      (emit [Assign var value (<[var := value]> a); FcFail var value removed;
             Unassign var (delete var (<[var := value]> a))] r)
| lr_fc_ok var d value rest a st nd removed r1 r2 :
    is_consistent self var value a = Ok true →
    forward_check self var value d = Ok (Some nd, removed) →
    node_run self nd (<[var := value]> a) st r1 →
    ending_of r1 = Returned →
    is_Some (final_assignment r1 !! var) →
    loop_run self var d rest (delete var (final_assignment r1))
             (bump_backtracks (final_stats r1)) r2 →
    loop_run self var d (value :: rest) a st
      (emit ((Assign var value (<[var := value]> a) :: FcOk var value removed
              :: events r1) ++ [Unassign var (delete var (final_assignment r1))])
            r2)
| lr_fc_ok_missing var d value rest a st nd removed r1 :
    is_consistent self var value a = Ok true →
    forward_check self var value d = Ok (Some nd, removed) →
    node_run self nd (<[var := value]> a) st r1 →
    ending_of r1 = Returned →
    final_assignment r1 !! var = None →
    loop_run self var d (value :: rest) a st
      (Run (Assign var value (<[var := value]> a) :: FcOk var value removed
            :: events r1) (final_stats r1) (final_assignment r1)
           (Raised KeyError))
| lr_fc_ok_raised var d value rest a st nd removed r1 x :
    is_consistent self var value a = Ok true →
    forward_check self var value d = Ok (Some nd, removed) →
    node_run self nd (<[var := value]> a) st r1 →
    ending_of r1 = Raised x →
    loop_run self var d (value :: rest) a st
      (Run (Assign var value (<[var := value]> a) :: FcOk var value removed
            :: events r1) (final_stats r1) (final_assignment r1) (Raised x)).

Scheme node_run_mut := Minimality for node_run Sort Prop
  with loop_run_mut := Minimality for loop_run Sort Prop.


(** * Properties *)

(** ** Lists *)

Lemma py_in_true x l : py_in x l = true ↔ x ∈ l.
Proof. unfold py_in. by rewrite bool_decide_eq_true. Qed.

Lemma py_in_false x l : py_in x l = false ↔ x ∉ l.
Proof. unfold py_in. by rewrite bool_decide_eq_false. Qed.

Lemma py_remove_subseteq x l y : y ∈ py_remove x l → y ∈ l.
Proof.
  induction l as [|z l IH]; simpl; [done|].
  case_decide; intros Hy; [by right|].
  apply elem_of_cons in Hy as [->|Hy]; [by left|right; auto].
Qed.

Lemma py_remove_NoDup x l : NoDup l → NoDup (py_remove x l).
Proof.
  induction 1 as [|z l Hz Hl IH]; simpl; [constructor|].
  case_decide; [done|].
  constructor; [|done]. intros Hin. by apply Hz, (py_remove_subseteq x).
Qed.

Lemma py_remove_elem_of x l y :
  NoDup l → (y ∈ py_remove x l ↔ y ∈ l ∧ y ≠ x).
Proof.
  induction 1 as [|z l Hz Hl IH]; simpl.
  - split; [by intros ?%elem_of_nil | by intros [?%elem_of_nil _]].
  - case_decide as Hzx.
    + subst z. rewrite elem_of_cons. split.
      * intros Hy. split; [by right|]. by intros ->.
      * by intros [[->|Hy] Hne].
    + rewrite !elem_of_cons, IH. split.
      * intros [->|[Hy Hne]]; split; auto.
      * intros [[->|Hy] Hne]; auto.
Qed.

Lemma py_remove_notin x l : x ∉ l → py_remove x l = l.
Proof.
  induction l as [|z l IH]; simpl; [done|].
  intros Hx. apply not_elem_of_cons in Hx as [Hne Hx].
  case_decide; [congruence|]. by rewrite IH.
Qed.

(** What a domain that forward checking wipes out looked like. *)
Lemma py_remove_nil x l : py_remove x l = [] → l = [] ∨ l = [x].
Proof.
  destruct l as [|z l]; simpl; [by left|].
  case_decide; [intros ->; subst; by right | done].
Qed.

Lemma py_remove_length x l :
  x ∈ l → S (length (py_remove x l)) = length l.
Proof.
  induction l as [|z l IH]; simpl; [by intros ?%elem_of_nil|].
  intros Hx. case_decide as Hz; [done|].
  apply elem_of_cons in Hx as [->|Hx]; [done|]. simpl. by rewrite IH.
Qed.

(** ** The grid *)

Lemma elem_of_range n k : k ∈ range n ↔ 0 ≤ k < n.
Proof. unfold range. rewrite elem_of_seqZ. lia. Qed.

Lemma elem_of_cells n rc : rc ∈ cells n ↔ 0 ≤ rc.1 < n ∧ 0 ≤ rc.2 < n.
Proof.
  unfold cells. rewrite list_elem_of_bind. split.
  - intros (r & Hrc & Hr). apply list_elem_of_bind in Hrc as (c & Hrc & Hc).
    apply list_elem_of_singleton in Hrc as ->. simpl.
    by rewrite <- !elem_of_range.
  - intros [Hr Hc]. exists rc.1. split; [|by apply elem_of_range].
    apply list_elem_of_bind. exists rc.2. split; [|by apply elem_of_range].
    destruct rc. apply list_elem_of_singleton. done.
Qed.

Lemma NoDup_cells n : NoDup (cells n).
Proof.
  unfold cells. apply NoDup_bind.
  - intros r1 r2 rc _ _ H1 H2.
    apply list_elem_of_bind in H1 as (c1 & H1 & _).
    apply list_elem_of_bind in H2 as (c2 & H2 & _).
    apply list_elem_of_singleton in H1, H2. congruence.
  - intros r _. apply NoDup_bind.
    + intros c1 c2 rc _ _ H1 H2.
      apply list_elem_of_singleton in H1, H2. congruence.
    + intros c _. apply NoDup_singleton.
    + apply NoDup_seqZ.
  - apply NoDup_seqZ.
Qed.

(** ** The row/column/box test *)

Lemma same_unit_sym bs a b : same_unit bs a b = same_unit bs b a.
Proof.
  unfold same_unit.
  rewrite (Z.eqb_sym a.1), (Z.eqb_sym a.2),
    (Z.eqb_sym (a.1 / bs)), (Z.eqb_sym (a.2 / bs)). done.
Qed.

Lemma same_unit_refl bs a : same_unit bs a a = true.
Proof. unfold same_unit. by rewrite Z.eqb_refl. Qed.

Lemma same_unit_true bs a b :
  same_unit bs a b = true ↔
  a.1 = b.1 ∨ a.2 = b.2 ∨ (a.1 / bs = b.1 / bs ∧ a.2 / bs = b.2 / bs).
Proof.
  unfold same_unit.
  rewrite !orb_true_iff, andb_true_iff, !Z.eqb_eq. tauto.
Qed.

(** ** The exception monad *)

Lemma mapM_Ok_inv {A B} (f : A → res B) l k :
  mapM f l = Ok k → Forall2 (λ x y, f x = Ok y) l k.
Proof.
  revert k. induction l as [|x l IH]; intros k; simpl.
  - intros [= <-]. constructor.
  - destruct (f x) as [y|e] eqn:Hx; simpl; [|done].
    destruct (mapM f l) as [k'|e]; simpl; [|done].
    intros [= <-]. constructor; auto.
Qed.

Lemma mapM_Ok {A B} (f : A → res B) l :
  Forall (λ x, ∃ y, f x = Ok y) l → ∃ k, mapM f l = Ok k.
Proof.
  induction 1 as [|x l [y Hy] Hl [k IH]]; simpl; [by eexists|].
  rewrite Hy. simpl. rewrite IH. simpl. by eexists.
Qed.

Lemma mapM_Ok_length {A B} (f : A → res B) l k :
  mapM f l = Ok k → length k = length l.
Proof. intros H%mapM_Ok_inv. symmetry. by eapply Forall2_length. Qed.


(** ** The constructor *)

Section init.
Context (n bs : Z) (board : list (list Z)).

Lemma cell_val_Ok rc v : board_at board rc = Ok v → cell_val board rc = v.
Proof. unfold cell_val. by intros ->. Qed.

Lemma collect_step_Ok vs m rc v :
  board_at board rc = Ok v →
  collect_step n board (Ok (vs, m)) rc
  = Ok (if v =? 0 then (vs ++ [rc], <[rc := seqZ 1 n]> m) else (vs, m)).
Proof. unfold collect_step. simpl. intros ->. simpl. by destruct (v =? 0). Qed.

Lemma prune_step_Ok m rc v :
  board_at board rc = Ok v →
  prune_step bs board (Ok m) rc
  = Ok (if v =? 0 then m else _remove_conflicts bs rc.1 rc.2 v m).
Proof. unfold prune_step. simpl. intros ->. simpl. by destruct (v =? 0). Qed.

Lemma collect_fold l vs m :
  (∀ rc, rc ∈ l → ∃ v, board_at board rc = Ok v) →
  foldl (collect_step n board) (Ok (vs, m)) l
  = Ok (vs ++ filter (λ rc, cell_val board rc = 0) l, foldl (collect_pure n board) m l).
Proof.
  revert vs m. induction l as [|rc l IH]; intros vs m Hl; cbn [foldl].
  - by rewrite filter_nil, app_nil_r.
  - destruct (Hl rc) as [v Hv]; [by left|].
    rewrite (collect_step_Ok _ _ _ _ Hv).
    unfold collect_pure at 2. rewrite (cell_val_Ok _ _ Hv).
    rewrite filter_cons. rewrite (cell_val_Ok _ _ Hv).
    destruct (Z.eqb_spec v 0) as [->|Hne].
    + rewrite decide_True by done. rewrite decide_True by done.
      rewrite IH; [|intros; apply Hl; by right].
      by rewrite <- app_assoc.
    + rewrite decide_False by done. rewrite decide_False by done.
      apply IH; intros; apply Hl; by right.
Qed.

Lemma collect_fold_raise l x :
  foldl (collect_step n board) (Raise x) l = Raise x.
Proof. induction l; simpl; auto. Qed.

Lemma collect_fold_inv l vs m r :
  foldl (collect_step n board) (Ok (vs, m)) l = Ok r →
  ∀ rc, rc ∈ l → ∃ v, board_at board rc = Ok v.
Proof.
  revert vs m. induction l as [|rc l IH]; intros vs m Hf rc' Hin.
  - by apply elem_of_nil in Hin.
  - cbn [foldl] in Hf.
    destruct (board_at board rc) as [v|x] eqn:Hv.
    + rewrite (collect_step_Ok _ _ _ _ Hv) in Hf.
      apply elem_of_cons in Hin as [->|Hin]; [eauto|].
      destruct (v =? 0); eapply IH; eauto.
    + unfold collect_step at 2 in Hf. simpl in Hf. rewrite Hv in Hf.
      simpl in Hf. by rewrite collect_fold_raise in Hf.
Qed.

Lemma collect_lookup l m k :
  foldl (collect_pure n board) m l !! k
  = if decide (k ∈ l ∧ cell_val board k = 0) then Some (seqZ 1 n) else m !! k.
Proof.
  revert m. induction l as [|rc l IH]; intros m; cbn [foldl].
  - rewrite decide_False; [done|]. by intros [?%elem_of_nil _].
  - rewrite IH. unfold collect_pure.
    destruct (decide (k ∈ l ∧ cell_val board k = 0)) as [[Hk H0]|Hn].
    + rewrite decide_True; [done|]. split; [by right|done].
    + destruct (decide (cell_val board rc = 0)) as [Hrc|Hrc].
      * destruct (decide (rc = k)) as [->|Hne].
        -- rewrite lookup_insert_eq. rewrite decide_True; [done|].
           split; [by left|done].
        -- rewrite lookup_insert_ne by done.
           rewrite decide_False; [done|].
           intros [[->|Hk]%elem_of_cons H0]; [done|]. by apply Hn.
      * rewrite decide_False; [done|].
        intros [[->|Hk]%elem_of_cons H0]; [done|]. by apply Hn.
Qed.

Lemma prune_fold l m :
  (∀ rc, rc ∈ l → ∃ v, board_at board rc = Ok v) →
  foldl (prune_step bs board) (Ok m) l = Ok (foldl (prune_pure bs board) m l).
Proof.
  revert m. induction l as [|rc l IH]; intros m Hl; cbn [foldl]; [done|].
  destruct (Hl rc) as [v Hv]; [by left|].
  rewrite (prune_step_Ok _ _ _ Hv).
  unfold prune_pure at 2. rewrite (cell_val_Ok _ _ Hv).
  destruct (Z.eqb_spec v 0) as [->|Hne].
  - rewrite decide_True by done. apply IH. intros; apply Hl; by right.
  - rewrite decide_False by done. apply IH. intros; apply Hl; by right.
Qed.

Lemma remove_conflicts_lookup row col v m k :
  _remove_conflicts bs row col v m !! k
  = (λ d, if same_unit bs k (row, col)
          then (if py_in v d then py_remove v d else d) else d) <$> m !! k.
Proof.
  unfold _remove_conflicts. rewrite map_lookup_imap.
  by destruct (m !! k).
Qed.

Lemma prune_lookup_None l m k :
  m !! k = None → foldl (prune_pure bs board) m l !! k = None.
Proof.
  revert m. induction l as [|rc l IH]; intros m Hk; cbn [foldl]; [done|].
  apply IH. unfold prune_pure. case_decide; [done|].
  by rewrite remove_conflicts_lookup, Hk.
Qed.

Lemma prune_lookup l m k d :
  m !! k = Some d → NoDup d →
  ∃ d', foldl (prune_pure bs board) m l !! k = Some d' ∧ NoDup d' ∧
    ∀ x, x ∈ d' ↔
         x ∈ d ∧ ∀ rc, rc ∈ l → cell_val board rc ≠ 0 →
                       same_unit bs k rc = true → cell_val board rc ≠ x.
Proof.
  revert m d. induction l as [|rc l IH]; intros m d Hk Hd; cbn [foldl].
  - exists d. split; [done|]. split; [done|].
    intros x. split; [|by intros []].
    intros Hx. split; [done|]. by intros ? ?%elem_of_nil.
  - set (d1 := if decide (cell_val board rc = 0) then d
               else if same_unit bs k rc
                    then py_remove (cell_val board rc) d else d).
    assert (prune_pure bs board m rc !! k = Some d1) as Hk1.
    { unfold prune_pure, d1. case_decide; [done|].
      rewrite remove_conflicts_lookup, Hk. simpl.
      destruct rc as [r c]. simpl. f_equal.
      destruct (same_unit bs k (r, c)); [|done].
      destruct (py_in _ d) eqn:Hin; [done|].
      apply py_in_false in Hin. by rewrite py_remove_notin. }
    assert (NoDup d1) as Hd1.
    { unfold d1. case_decide; [done|].
      destruct (same_unit bs k rc); [by apply py_remove_NoDup|done]. }
    destruct (IH _ _ Hk1 Hd1) as (d' & Hl & Hnd & Hx).
    exists d'. split; [done|]. split; [done|].
    intros x. rewrite Hx. clear Hx. split.
    + intros [Hx1 Hrest]. split.
      * unfold d1 in Hx1. case_decide; [done|].
        destruct (same_unit bs k rc); [|done].
        by apply py_remove_elem_of in Hx1 as [? _].
      * intros rc' [->|Hin]%elem_of_cons Hne Hsu; [|by apply Hrest].
        unfold d1 in Hx1. rewrite decide_False in Hx1 by done.
        rewrite Hsu in Hx1.
        apply py_remove_elem_of in Hx1 as [_ ?]; [congruence|done].
    + intros [Hx1 Hall]. split.
      * unfold d1. case_decide; [done|].
        destruct (same_unit bs k rc) eqn:Hsu; [|done].
        apply py_remove_elem_of; [done|]. split; [done|].
        intros ->. eapply Hall; [by left|done|done|done].
      * intros rc' Hin. apply Hall. by right.
Qed.
End init.

Lemma empty_board_at n rc : rc ∈ cells n → board_at (empty_board n) rc = Ok 0.
Proof.
  intros [Hr Hc]%elem_of_cells. unfold board_at, empty_board, range.
  rewrite list_lookup_fmap, lookup_seqZ_lt by lia. simpl.
  rewrite list_lookup_fmap, lookup_seqZ_lt by lia. done.
Qed.

Lemma covers_grid_spec n board :
  covers_grid n board = true ↔ ∀ rc, rc ∈ cells n → ∃ v, board_at board rc = Ok v.
Proof.
  unfold covers_grid. rewrite forallb_forall. split.
  - intros H rc Hrc. apply list_elem_of_In, H in Hrc.
    destruct (board_at board rc); [eauto|done].
  - intros H rc Hrc. apply list_elem_of_In, H in Hrc as [v ->]. done.
Qed.

Lemma empty_board_covers n : covers_grid n (empty_board n) = true.
Proof. apply covers_grid_spec. intros rc Hrc. exists 0. by apply empty_board_at. Qed.

Lemma int_sqrt_nonneg n : 0 ≤ n → int_sqrt n = Ok (Z.sqrt n).
Proof.
  intros Hn. unfold int_sqrt.
  destruct (Z.ltb_spec n (- 2 ^ 63)) as [?|_]; [lia|].
  destruct (Z.ltb_spec n 0) as [?|_]; [lia|]. done.
Qed.

Lemma int_sqrt_negative n :
  n < 0 →
  int_sqrt n = Raise (if bool_decide (n < - 2 ^ 63) then TypeError else ValueError).
Proof.
  intros Hn. unfold int_sqrt.
  destruct (Z.ltb_spec n (- 2 ^ 63)) as [?|?].
  - by rewrite bool_decide_eq_true_2.
  - destruct (Z.ltb_spec n 0) as [?|?]; [|lia]. by rewrite bool_decide_eq_false_2 by lia.
Qed.

Lemma init_ok n board :
  0 ≤ n →
  let board' := match board with None => empty_board n | Some b => b end in
  covers_grid n board' = true →
  ∃ self, __init__ n board = Ok self ∧ engine_for n board' self.
Proof.
  intros Hn board' Hcov. pose proof (proj1 (covers_grid_spec _ _) Hcov) as Hcov'.
  clear Hcov. rename Hcov' into Hcov.
  unfold __init__, setup. rewrite int_sqrt_nonneg by done. simpl.
  fold board'. rewrite collect_fold by done. simpl.
  rewrite (prune_fold (Z.sqrt n)) by done. simpl.
  eexists. split; [done|].
  split; simpl; try done.
  - intros k Hk. apply list_elem_of_filter in Hk as [Hk0 Hkc].
    destruct (prune_lookup (Z.sqrt n) board' (cells n)
                (foldl (collect_pure n board') ∅ (cells n)) k (seqZ 1 n))
      as (d & Hd & Hnd & Hx).
    { rewrite collect_lookup. by rewrite decide_True. }
    { apply NoDup_seqZ. }
    exists d. split; [done|]. split; [done|].
    intros x. rewrite Hx, elem_of_seqZ. unfold allowed.
    split; intros [H1 H2]; (split; [lia|done]).
  - intros k Hk. apply prune_lookup_None. rewrite collect_lookup.
    rewrite decide_False; [done|]. intros [? ?]. apply Hk.
    by apply list_elem_of_filter.
Qed.

Lemma init_inv n board self :
  __init__ n board = Ok self →
  0 ≤ n ∧
  covers_grid n (match board with None => empty_board n | Some b => b end) = true.
Proof.
  unfold __init__, setup. destruct (Z.lt_ge_cases n 0) as [?|Hn].
  { by rewrite int_sqrt_negative. }
  rewrite int_sqrt_nonneg by done.
  simpl. intros Hi. split; [done|]. apply covers_grid_spec.
  destruct (foldl (collect_step n _) _ (cells n)) as [st|x] eqn:Hf; [|done].
  intros rc Hrc. eapply collect_fold_inv; eauto.
Qed.

(** The only exceptions of the two pairs of loops are those of
    [board[r][c]]. *)
Lemma collect_fold_IndexError (n : Z) (b : list (list Z)) (l : list cell)
    (st : list cell * gmap cell (list Z)) (x : exn) :
  foldl (collect_step n b) (Ok st) l = Raise x → x = IndexError.
Proof.
  revert st. induction l as [|rc l IH]; intros st; cbn [foldl]; [done|].
  unfold collect_step at 2. cbn [mbind res_bind]. unfold board_at.
  destruct (b !! _) as [row|]; cbn [mbind res_bind].
  - destruct (row !! _) as [v|]; cbn [mbind res_bind].
    + destruct (v =? 0); apply IH.
    + rewrite collect_fold_raise. by intros [= <-].
  - rewrite collect_fold_raise. by intros [= <-].
Qed.

Lemma prune_fold_raise (bs : Z) (b : list (list Z)) (l : list cell) (x : exn) :
  foldl (prune_step bs b) (Raise x) l = Raise x.
Proof. induction l; simpl; auto. Qed.

Lemma prune_fold_IndexError (bs : Z) (b : list (list Z)) (l : list cell)
    (m : gmap cell (list Z)) (x : exn) :
  foldl (prune_step bs b) (Ok m) l = Raise x → x = IndexError.
Proof.
  revert m. induction l as [|rc l IH]; intros m; cbn [foldl]; [done|].
  unfold prune_step at 2. cbn [mbind res_bind]. unfold board_at.
  destruct (b !! _) as [row|]; cbn [mbind res_bind].
  - destruct (row !! _) as [v|]; cbn [mbind res_bind].
    + destruct (v =? 0); apply IH.
    + rewrite prune_fold_raise. by intros [= <-].
  - rewrite prune_fold_raise. by intros [= <-].
Qed.

Lemma setup_raises (n bs : Z) (b : list (list Z)) (x : exn) :
  setup n bs b = Raise x → x = IndexError.
Proof.
  unfold setup.
  destruct (foldl (collect_step n b) _ (cells n)) as [st|y] eqn:Hf;
    cbn [mbind res_bind].
  - destruct (foldl (prune_step _ b) _ (cells n)) as [m|y] eqn:Hg;
      cbn [mbind res_bind]; [done|].
    intros [= <-]. by eapply prune_fold_IndexError.
  - intros [= <-]. by eapply collect_fold_IndexError.
Qed.

(** What the constructor raises, by the size. *)
Lemma init_raises (n : Z) (board : option (list (list Z))) (x : exn) :
  __init__ n board = Raise x →
  (x = TypeError ∧ n < - 2 ^ 63) ∨ (x = ValueError ∧ - 2 ^ 63 ≤ n < 0)
  ∨ (x = IndexError ∧ 0 ≤ n).
Proof.
  unfold __init__. destruct (Z.lt_ge_cases n 0) as [Hn|Hn].
  - rewrite int_sqrt_negative by done. cbn [mbind res_bind].
    case_bool_decide; intros [= <-]; [left|right; left]; split; [done|lia|done|lia].
  - rewrite int_sqrt_nonneg by done. cbn [mbind res_bind].
    intros ->%setup_raises. by right; right.
Qed.

Lemma init_raises_TypeError (n : Z) (board : option (list (list Z))) :
  __init__ n board = Raise TypeError ↔ n < - 2 ^ 63.
Proof.
  split.
  - intros Hi. by destruct (init_raises _ _ _ Hi) as [[_ ?]|[[? _]|[? _]]].
  - intros Hn. unfold __init__. rewrite int_sqrt_negative by lia.
    by rewrite bool_decide_eq_true_2.
Qed.

Lemma init_raises_ValueError (n : Z) (board : option (list (list Z))) :
  __init__ n board = Raise ValueError ↔ - 2 ^ 63 ≤ n < 0.
Proof.
  split.
  - intros Hi. by destruct (init_raises _ _ _ Hi) as [[? _]|[[_ ?]|[? _]]].
  - intros Hn. unfold __init__. rewrite int_sqrt_negative by lia.
    by rewrite bool_decide_eq_false_2 by lia.
Qed.


(** ** Construction and the size argument *)

(** C2, as stated, fails: 5 has no integer square root, and constructing
    an engine of size 5 raises nothing; it yields an engine with the 25
    cells of the grid as variables and the miscomputed box size 2. *)
Lemma init_size_5_is_accepted :
  (∀ k : Z, k * k ≠ 5) ∧
  (∀ x, __init__ 5 None ≠ Raise x) ∧
  ∃ self, __init__ 5 None = Ok self ∧ box_size self = 2
          ∧ length (variables self) = 25%nat.
Proof.
  split; [|split].
  - intros k Hk. assert (-3 < k < 3) as Hr by nia.
    assert (k = -2 ∨ k = -1 ∨ k = 0 ∨ k = 1 ∨ k = 2) as Hc by lia.
    destruct Hc as [ -> | [ -> | [ -> | [ -> | -> ] ] ] ]; done.
  - intros x. vm_compute. done.
  - eexists. split; [vm_compute; reflexivity|]. done.
Qed.

(** C2, amended: for a size below 2^52, the only sizes the constructor
    rejects are the negative ones, with a [TypeError] below -2^63 and
    with the [ValueError] of [int(nan)] from -2^63 on; every size
    [0 <= n < 2^52], square or not, is accepted when the board (if one is
    given) has [n] rows of [n] entries, and the box size is then the floor
    of the square root. *)
Theorem init_rejects_only_negative_sizes (n : Z) (board : option (list (list Z))) :
  n < 2 ^ 52 →
  (__init__ n board = Raise TypeError ↔ n < - 2 ^ 63) ∧
  (__init__ n board = Raise ValueError ↔ - 2 ^ 63 ≤ n < 0) ∧
  (covers_grid n (match board with None => empty_board n | Some b => b end) = true →
   ((∃ x, __init__ n board = Raise x) ↔ n < 0)) ∧
  (0 ≤ n →
   covers_grid n (match board with None => empty_board n | Some b => b end) = true →
   ∃ self, __init__ n board = Ok self ∧ size self = n
           ∧ box_size self * box_size self ≤ n
             < (box_size self + 1) * (box_size self + 1)).
Proof.
  intros _. split; [apply init_raises_TypeError|].
  split; [apply init_raises_ValueError|]. split.
  - intros Hcov. split.
    + intros [x Hx]. destruct (Z.lt_ge_cases n 0) as [?|Hn]; [done|].
      destruct (init_ok n board Hn Hcov) as (self & Hi & _). congruence.
    + intros Hn. destruct (__init__ n board) as [self|x] eqn:Hi; [|by exists x].
      apply init_inv in Hi as [? _]. lia.
  - intros Hn Hcov. destruct (init_ok n board Hn Hcov) as (self & Hi & Hef).
    exists self. split; [done|]. split; [apply Hef|].
    rewrite (ef_box_size _ _ _ Hef).
    pose proof (Z.sqrt_spec n Hn) as Hs. unfold Z.succ in Hs. lia.
Qed.

Lemma init_rejects_only_negative_sizes_witness :
  5 < 2 ^ 52 ∧
  ∃ self, __init__ 5 None = Ok self ∧ size self = 5
          ∧ box_size self * box_size self ≤ 5
            < (box_size self + 1) * (box_size self + 1).
Proof.
  split; [reflexivity|].
  apply (init_rejects_only_negative_sizes 5 None); [reflexivity | lia |].
  vm_compute. reflexivity.
Defined.


(** ** Forward checking *)

Section forward_check.
Context (bs : Z) (var : cell) (value : Z).

(** The three ways the loop of [forward_check] ends. *)
Lemma fc_loop_spec (vars : list cell) (nd rm : gmap cell (list Z)) :
  (∀ k d, nd !! k = Some d → k ≠ var → NoDup d) →
  match fc_loop bs var value vars nd rm with
  | Ok (Some nd', _) =>
      (∀ k, k ∉ vars ∨ k = var ∨ same_unit bs k var = false →
            nd' !! k = nd !! k) ∧
      (∀ k, k ∈ vars → k ≠ var → same_unit bs k var = true →
            ∃ d, nd !! k = Some d ∧ nd' !! k = Some (py_remove value d)
                 ∧ py_remove value d ≠ [])
  | Ok (None, _) =>
      ∃ n dn, n ∈ vars ∧ n ≠ var ∧ same_unit bs n var = true ∧
              nd !! n = Some dn ∧ py_remove value dn = []
  | Raise _ =>
      ∃ n, n ∈ vars ∧ n ≠ var ∧ same_unit bs n var = true ∧
           (nd !! n = None ∨ rm !! n = None)
  end.
Proof.
  revert nd rm. induction vars as [|rc vars IH]; intros nd rm Hnd; cbn [fc_loop].
  { split; [done|]. by intros k ?%elem_of_nil. }
  destruct (bool_decide (rc = var)) eqn:Hrc.
  { apply bool_decide_eq_true in Hrc. subst rc.
    specialize (IH nd rm Hnd).
    destruct (fc_loop bs var value vars nd rm) as [[[nd'|] rm']|x].
    - destruct IH as [Ha Hb]. split.
      + intros k Hk. apply Ha. rewrite not_elem_of_cons in Hk. tauto.
      + intros k [->|Hk]%elem_of_cons Hne Hsu; [done|]. by apply Hb.
    - destruct IH as (n & dn & Hn & ?). exists n, dn. split; [by right|done].
    - destruct IH as (n & Hn & ?). exists n. split; [by right|done]. }
  apply bool_decide_eq_false in Hrc.
  destruct (same_unit bs rc var) eqn:Hsu.
  2:{ specialize (IH nd rm Hnd).
    destruct (fc_loop bs var value vars nd rm) as [[[nd'|] rm']|x].
    - destruct IH as [Ha Hb]. split.
      + intros k Hk. apply Ha. rewrite not_elem_of_cons in Hk.
        destruct Hk as [[_ ?]|[?|?]]; auto.
      + intros k [->|Hk]%elem_of_cons Hne Hsu'; [congruence|]. by apply Hb.
    - destruct IH as (n & dn & Hn & ?). exists n, dn. split; [by right|done].
    - destruct IH as (n & Hn & ?). exists n. split; [by right|done]. }
  destruct (nd !! rc) as [d|] eqn:Hd.
  2:{ exists rc. split; [by left|]. auto. }
  assert (NoDup d) as Hnodup by eauto.
  destruct (py_in value d) eqn:Hin.
  - apply py_in_true in Hin.
    destruct (rm !! rc) as [r|] eqn:Hr.
    2:{ exists rc. split; [by left|]. auto. }
    assert (value ∉ py_remove value d) as Hgone.
    { intros H. apply py_remove_elem_of in H as [_ ?]; done. }
    destruct (py_remove value d) as [|y d'] eqn:Hd'.
    { exists rc, d. split; [by left|]. done. }
    rewrite <- Hd' in *.
    specialize (IH (<[rc := py_remove value d]> nd) (<[rc := r ++ [value]]> rm)).
    destruct (fc_loop bs var value vars _ _) as [[[nd'|] rm']|x].
    + destruct IH as [Ha Hb].
      { intros k dk. destruct (decide (rc = k)) as [<-|Hne].
        - rewrite lookup_insert_eq. intros [= <-] _. by apply py_remove_NoDup.
        - rewrite lookup_insert_ne by done. apply Hnd. }
      split.
      * intros k Hk. rewrite Ha.
        -- apply lookup_insert_ne. rewrite not_elem_of_cons in Hk.
           destruct Hk as [[? _]|[->|?]]; congruence.
        -- rewrite not_elem_of_cons in Hk. tauto.
      * intros k Hk Hne Hsu'. destruct (decide (k = rc)) as [->|Hkrc].
        -- exists d. split; [done|]. split; [|by rewrite Hd'].
           destruct (decide (rc ∈ vars)) as [Hrv|Hrv].
           ++ destruct (Hb rc Hrv Hne Hsu') as (d1 & Hd1 & -> & _).
              rewrite lookup_insert_eq in Hd1. injection Hd1 as <-.
              by rewrite (py_remove_notin _ _ Hgone).
           ++ rewrite Ha by auto. apply lookup_insert_eq.
        -- apply elem_of_cons in Hk as [?|Hk]; [done|].
           destruct (Hb k Hk Hne Hsu') as (d1 & Hd1 & ? & ?).
           rewrite lookup_insert_ne in Hd1 by done. eauto.
    + destruct IH as (n & dn & Hn & Hne & Hsu' & Hdn & Hnil).
      { intros k dk. destruct (decide (rc = k)) as [<-|Hne].
        - rewrite lookup_insert_eq. intros [= <-] _. by apply py_remove_NoDup.
        - rewrite lookup_insert_ne by done. apply Hnd. }
      destruct (decide (rc = n)) as [<-|Hrn].
      * rewrite lookup_insert_eq in Hdn. injection Hdn as <-.
        rewrite (py_remove_notin _ _ Hgone) in Hnil. congruence.
      * rewrite lookup_insert_ne in Hdn by done.
        exists n, dn. split; [by right|done].
    + destruct IH as (n & Hn & Hne & Hsu' & Hnone).
      { intros k dk. destruct (decide (rc = k)) as [<-|Hne].
        - rewrite lookup_insert_eq. intros [= <-] _. by apply py_remove_NoDup.
        - rewrite lookup_insert_ne by done. apply Hnd. }
      exists n. split; [by right|]. split; [done|]. split; [done|].
      destruct (decide (rc = n)) as [<-|Hrn].
      * rewrite !lookup_insert_eq in Hnone. by destruct Hnone.
      * by rewrite !lookup_insert_ne in Hnone.
  - apply py_in_false in Hin.
    destruct d as [|y d'].
    { exists rc, []. split; [by left|]. done. }
    remember (y :: d') as d eqn:Hdeq in *.
    specialize (IH nd rm Hnd).
    destruct (fc_loop bs var value vars nd rm) as [[[nd'|] rm']|x].
    + destruct IH as [Ha Hb]. split.
      * intros k Hk. apply Ha. rewrite not_elem_of_cons in Hk.
        destruct Hk as [[_ ?]|[?|?]]; auto.
      * intros k Hk Hne Hsu'. destruct (decide (k ∈ vars)) as [Hkv|Hkv];
          [by apply Hb|].
        apply elem_of_cons in Hk as [->|Hk]; [|done].
        exists d. rewrite Ha by auto. rewrite (py_remove_notin _ _ Hin).
        split; [done|]. split; [done|]. by rewrite Hdeq.
    + destruct IH as (n & dn & Hn & ?). exists n, dn. split; [by right|done].
    + destruct IH as (n & Hn & ?). exists n. split; [by right|done].
Qed.
End forward_check.

(** [forward_check] on a map of duplicate-free domains. *)
Lemma forward_check_spec (self : SudokuCSP) (var : cell) (value : Z)
    (domains : gmap cell (list Z)) :
  map_Forall (λ _ d, NoDup d) domains →
  match forward_check self var value domains with
  | Ok (Some nd, _) =>
      nd !! var = Some [value] ∧
      (∀ k, k ≠ var → k ∉ variables self ∨ same_unit (box_size self) k var = false →
            nd !! k = domains !! k) ∧
      (∀ k, k ∈ variables self → k ≠ var →
            same_unit (box_size self) k var = true →
            ∃ d, domains !! k = Some d ∧ nd !! k = Some (py_remove value d)
                 ∧ py_remove value d ≠ [])
  | Ok (None, _) =>
      ∃ n dn, n ∈ variables self ∧ n ≠ var ∧
              same_unit (box_size self) n var = true ∧
              domains !! n = Some dn ∧ py_remove value dn = []
  | Raise _ =>
      ∃ n, n ∈ variables self ∧ n ≠ var ∧
           same_unit (box_size self) n var = true ∧ domains !! n = None
  end.
Proof.
  intros Hnd. unfold forward_check.
  pose proof (fc_loop_spec (box_size self) var value (variables self)
                (<[var := [value]]> domains) ((λ _, []) <$> domains)) as H.
  destruct (fc_loop _ _ _ _ _ _) as [[[nd'|] rm']|x].
  - destruct H as [Ha Hb].
    { intros k d Hk Hne. rewrite lookup_insert_ne in Hk by done. by eapply Hnd. }
    split; [|split].
    + rewrite Ha by auto. apply lookup_insert_eq.
    + intros k Hne Hk. rewrite Ha by tauto. by apply lookup_insert_ne.
    + intros k Hk Hne Hsu. destruct (Hb k Hk Hne Hsu) as (d & Hd & ?).
      rewrite lookup_insert_ne in Hd by done. eauto.
  - destruct H as (n & dn & Hn & Hne & Hsu & Hdn & Hnil).
    { intros k d Hk Hne. rewrite lookup_insert_ne in Hk by done. by eapply Hnd. }
    rewrite lookup_insert_ne in Hdn by done. eauto 10.
  - destruct H as (n & Hn & Hne & Hsu & Hnone).
    { intros k d Hk Hne. rewrite lookup_insert_ne in Hk by done. by eapply Hnd. }
    exists n. do 3 (split; [done|]).
    rewrite lookup_insert_ne, lookup_fmap in Hnone by done.
    destruct Hnone as [?|Hnone]; [done|]. by destruct (domains !! n).
Qed.

(** C4, amended: when every domain is a duplicate-free list, a failure of
    [forward_check] means that some other variable in the row, column or
    box of [var] has a domain that is empty once [value] is taken out of
    it; on success the returned map has [[value]] for [var], and [value]
    is in the domain of no other variable in the row, column or box. *)
Theorem forward_check_sound (self : SudokuCSP) (var : cell) (value : Z)
    (domains : gmap cell (list Z)) :
  map_Forall (λ _ d, NoDup d) domains →
  (∀ removed, forward_check self var value domains = Ok (None, removed) →
     ∃ n dn, n ∈ variables self ∧ n ≠ var ∧
             same_unit (box_size self) n var = true ∧
             domains !! n = Some dn ∧ py_remove value dn = [] ∧
             (dn = [] ∨ dn = [value])) ∧
  (∀ new_domains removed,
     forward_check self var value domains = Ok (Some new_domains, removed) →
     new_domains !! var = Some [value] ∧
     ∀ n, n ∈ variables self → n ≠ var →
          same_unit (box_size self) n var = true →
          ∃ dn, new_domains !! n = Some dn ∧ value ∉ dn).
Proof.
  intros Hnd. pose proof (forward_check_spec self var value domains Hnd) as H.
  split.
  - intros removed Heq. rewrite Heq in H.
    destruct H as (n & dn & Hn & Hne & Hsu & Hdn & Hnil).
    exists n, dn. do 5 (split; [done|]). by apply py_remove_nil.
  - intros nd removed Heq. rewrite Heq in H. destruct H as (Hv & _ & Hb).
    split; [done|]. intros n Hn Hne Hsu.
    destruct (Hb n Hn Hne Hsu) as (d & Hd & Hnd' & _).
    exists (py_remove value d). split; [done|].
    intros Hin. apply py_remove_elem_of in Hin as [_ ?]; [done|]. by eapply Hnd.
Qed.

Lemma forward_check_sound_witness :
  map_Forall (λ _ d, NoDup d) (initial_domains sample_engine) ∧
  ∃ new_domains removed,
    forward_check sample_engine (0, 1) 1 (initial_domains sample_engine)
    = Ok (Some new_domains, removed) ∧
    new_domains !! (0, 1) = Some [1] ∧
    ∃ dn, new_domains !! (0, 2) = Some dn ∧ 1 ∉ dn.
Proof.
  assert (map_Forall (λ _ d, NoDup d) (initial_domains sample_engine)) as H.
  { apply (bool_decide_unpack _). vm_compute. exact I. }
  split; [exact H|].
  destruct (forward_check sample_engine (0, 1) 1 (initial_domains sample_engine))
    as [[[nd|] rm]|x] eqn:Heq; [|vm_compute in Heq; discriminate..].
  exists nd, rm. split; [reflexivity|].
  destruct (proj2 (forward_check_sound sample_engine (0, 1) 1 _ H) nd rm Heq)
    as [Hv Hn].
  split; [exact Hv|]. apply Hn.
  - apply (bool_decide_unpack _). vm_compute. exact I.
  - discriminate.
  - reflexivity.
Defined.

(** C4, as stated, fails on its success clause: [list.remove] deletes
    one occurrence only.  On the engine of the sample board, with the
    domain of (0, 2) holding 1 twice, [forward_check] for 1 at (0, 1)
    returns success, and the returned domain of (0, 2), a variable in
    the row of (0, 1), still holds 1. *)
Lemma forward_check_keeps_a_duplicate :
  __init__ 4 (Some sample_board) = Ok sample_engine ∧
  (0, 1) ∈ variables sample_engine ∧
  (0, 2) ∈ variables sample_engine ∧
  same_unit (box_size sample_engine) (0, 2) (0, 1) = true ∧
  ∃ new_domains removed,
    forward_check sample_engine (0, 1) 1
      (<[(0, 2) := [1; 2; 1]]> (initial_domains sample_engine))
    = Ok (Some new_domains, removed) ∧
    new_domains !! (0, 1) = Some [1] ∧
    new_domains !! (0, 2) = Some [2; 1] ∧
    ¬ (∃ dn, new_domains !! (0, 2) = Some dn ∧ 1 ∉ dn).
Proof.
  split; [vm_compute; reflexivity|].
  split; [apply (bool_decide_unpack _); vm_compute; exact I|].
  split; [apply (bool_decide_unpack _); vm_compute; exact I|].
  split; [vm_compute; reflexivity|].
  destruct (forward_check sample_engine (0, 1) 1
              (<[(0, 2) := [1; 2; 1]]> (initial_domains sample_engine)))
    as [[[nd|] rm]|x] eqn:Heq; [|vm_compute in Heq; discriminate..].
  exists nd, rm. split; [reflexivity|].
  assert (nd !! (0, 1) = Some [1] ∧ nd !! (0, 2) = Some [2; 1]) as [H1 H2].
  { assert (Ok (Some nd, rm) = forward_check sample_engine (0, 1) 1
              (<[(0, 2) := [1; 2; 1]]> (initial_domains sample_engine)))
      as Heq' by done.
    vm_compute in Heq'. injection Heq' as -> _. split; vm_compute; reflexivity. }
  split; [done|]. split; [done|].
  intros (dn & Hdn & Hnot). rewrite H2 in Hdn. injection Hdn as <-.
  apply Hnot. right. left.
Qed.


(** ** Variable ordering *)

Lemma key_lt_spec a b :
  key_lt a b = true ↔ a.1 < b.1 ∨ (a.1 = b.1 ∧ a.2 < b.2).
Proof.
  unfold key_lt. rewrite orb_true_iff, andb_true_iff, !Z.ltb_lt, Z.eqb_eq. done.
Qed.

Lemma key_lt_false a b :
  key_lt a b = false ↔ b.1 < a.1 ∨ (a.1 = b.1 ∧ b.2 ≤ a.2).
Proof.
  rewrite <- not_true_iff_false, key_lt_spec. lia.
Qed.

(** [min] returns an item of the list no other item is smaller than. *)
Lemma py_min_spec best rest :
  ∃ x, x ∈ best :: rest ∧ py_min best rest = x.1 ∧
       ∀ y, y ∈ best :: rest → key_lt y.2 x.2 = false.
Proof.
  revert best. induction rest as [|z rest IH]; intros best; simpl.
  - exists best. split; [by left|]. split; [done|].
    intros y ->%list_elem_of_singleton. apply key_lt_false. lia.
  - destruct (IH (if key_lt z.2 best.2 then z else best)) as (x & Hx & Hm & Hall).
    exists x. split; [|split; [done|]].
    + apply elem_of_cons in Hx as [->|Hx].
      * destruct (key_lt z.2 best.2); [right; by left | by left].
      * by do 2 right.
    + intros y Hy.
      assert (key_lt (if key_lt z.2 best.2 then z else best).2 x.2 = false) as Hb.
      { apply Hall. by left. }
      apply elem_of_cons in Hy as [Hy|Hy].
      * subst y. destruct (key_lt z.2 best.2) eqn:Hz.
        -- apply key_lt_spec in Hz. apply key_lt_false in Hb.
           apply key_lt_false. lia.
        -- done.
      * apply elem_of_cons in Hy as [Hy|Hy].
        -- subst y. destruct (key_lt z.2 best.2) eqn:Hz; [done|].
           apply key_lt_false in Hz. apply key_lt_false in Hb.
           apply key_lt_false. lia.
        -- apply Hall. by right.
Qed.

Lemma elem_of_unassigned self assignment u :
  u ∈ unassigned self assignment ↔ u ∈ variables self ∧ assignment !! u = None.
Proof. unfold unassigned. rewrite list_elem_of_filter. tauto. Qed.

(** [_count_constraints] is the number of other variables, not assigned,
    in the row, column or box of [var]. *)
Lemma count_constraints_length self var assignment :
  _count_constraints self var assignment
  = Z.of_nat (length (filter (λ rc, assignment !! rc = None ∧ rc ≠ var
                                    ∧ same_unit (box_size self) rc var = true)
                             (variables self))).
Proof.
  unfold _count_constraints.
  assert (∀ l c, foldl (λ count rc,
            if bool_decide (assignment !! rc = None) && bool_decide (rc ≠ var)
               && same_unit (box_size self) rc var
            then count + 1 else count) c l
          = c + Z.of_nat (length (filter (λ rc, assignment !! rc = None ∧ rc ≠ var
                                    ∧ same_unit (box_size self) rc var = true) l)))
    as H.
  { induction l as [|rc l IH]; intros c; cbn [foldl].
    - rewrite filter_nil. simpl. lia.
    - rewrite IH, filter_cons.
      destruct (decide _) as [(H1 & H2 & H3)|Hn].
      + rewrite (bool_decide_eq_true_2 _ H1), (bool_decide_eq_true_2 _ H2), H3.
        simpl. lia.
      + destruct (bool_decide (assignment !! rc = None)) eqn:E1; simpl; [|done].
        destruct (bool_decide (rc ≠ var)) eqn:E2; simpl; [|done].
        destruct (same_unit _ rc var) eqn:E3; [|done].
        apply bool_decide_eq_true in E1, E2. exfalso. by apply Hn. }
  rewrite H. lia.
Qed.

(** C5: with at least one variable left to assign, and a domain for each
    of them, [select_unassigned_var] returns an unassigned variable of
    smallest domain, and among those one of largest degree, the degree
    being the number of other unassigned variables in its row, column or
    box. *)
Theorem select_unassigned_var_mrv_degree (self : SudokuCSP)
    (domains : gmap cell (list Z)) (assignment : gmap cell Z) :
  unassigned self assignment ≠ [] →
  Forall (λ u, is_Some (domains !! u)) (unassigned self assignment) →
  ∃ var d,
    select_unassigned_var self domains assignment = Ok var ∧
    var ∈ variables self ∧ assignment !! var = None ∧
    domains !! var = Some d ∧
    (∀ u du, u ∈ variables self → assignment !! u = None →
             domains !! u = Some du →
             (length d ≤ length du)%nat ∧
             (length du = length d →
              _count_constraints self u assignment
              ≤ _count_constraints self var assignment)) ∧
    _count_constraints self var assignment
    = Z.of_nat (length (filter (λ rc, assignment !! rc = None ∧ rc ≠ var
                                      ∧ same_unit (box_size self) rc var = true)
                               (variables self))).
Proof.
  intros Hne Hdom. unfold select_unassigned_var.
  destruct (mapM_Ok (mrv_key self domains assignment) (unassigned self assignment))
    as [keyed Hk].
  { eapply Forall_impl; [exact Hdom|]. intros u [d Hd]. unfold mrv_key.
    rewrite Hd. by eexists. }
  rewrite Hk. simpl. pose proof (mapM_Ok_inv _ _ _ Hk) as HF.
  destruct keyed as [|x rest].
  { apply Forall2_nil_inv_r in HF. done. }
  destruct (py_min_spec x rest) as (m & Hm & Hres & Hall).
  rewrite Hres.
  assert (∀ y, y ∈ x :: rest →
            ∃ dy, y.1 ∈ unassigned self assignment ∧ domains !! y.1 = Some dy ∧
                  y.2 = (Z.of_nat (length dy), - _count_constraints self y.1 assignment))
    as Hkeyed.
  { intros y Hy. apply list_elem_of_lookup in Hy as [i Hi].
    destruct (Forall2_lookup_r _ _ _ _ _ HF Hi) as (u & Hu & Hfu).
    unfold mrv_key in Hfu. destruct (domains !! u) as [du|] eqn:Hdu; [|done].
    injection Hfu as <-. simpl. exists du. split; [|done].
    apply list_elem_of_lookup. eauto. }
  destruct (Hkeyed m Hm) as (d & Hmu & Hmd & Hmk).
  apply elem_of_unassigned in Hmu as [Hmv Hma].
  exists m.1, d. split; [done|]. do 3 (split; [done|]).
  split; [|apply count_constraints_length].
  intros u du Hu Hua Hud.
  assert (u ∈ unassigned self assignment) as Huu by by apply elem_of_unassigned.
  apply list_elem_of_lookup in Huu as [i Hi].
  destruct (Forall2_lookup_l _ _ _ _ _ HF Hi) as (y & Hy & Hfy).
  unfold mrv_key in Hfy. rewrite Hud in Hfy. injection Hfy as <-.
  assert (key_lt (Z.of_nat (length du), - _count_constraints self u assignment) m.2
          = false) as Hlt.
  { apply (Hall (u, _)). apply list_elem_of_lookup. eauto. }
  rewrite Hmk in Hlt. apply key_lt_false in Hlt. simpl in Hlt. lia.
Qed.

Lemma select_unassigned_var_mrv_degree_witness :
  unassigned sample_engine ∅ ≠ [] ∧
  Forall (λ u, is_Some (initial_domains sample_engine !! u))
         (unassigned sample_engine ∅) ∧
  ∃ var d,
    select_unassigned_var sample_engine (initial_domains sample_engine) ∅ = Ok var ∧
    initial_domains sample_engine !! var = Some d ∧
    ∀ u du, u ∈ variables sample_engine →
            initial_domains sample_engine !! u = Some du →
            (length d ≤ length du)%nat.
Proof.
  assert (unassigned sample_engine ∅ ≠ []) as H1 by (vm_compute; discriminate).
  assert (Forall (λ u, is_Some (initial_domains sample_engine !! u))
                 (unassigned sample_engine ∅)) as H2.
  { apply (bool_decide_unpack _). vm_compute. exact I. }
  split; [exact H1|]. split; [exact H2|].
  destruct (select_unassigned_var_mrv_degree sample_engine
              (initial_domains sample_engine) ∅ H1 H2)
    as (var & d & Hs & _ & _ & Hd & Hmin & _).
  exists var, d. split; [exact Hs|]. split; [exact Hd|].
  intros u du Hu Hdu. apply (Hmin u du Hu (lookup_empty u) Hdu).
Defined.

(** What [select_unassigned_var] returns is a variable without a value and
    with a domain. *)
Lemma select_unassigned_var_Ok (self : SudokuCSP) (domains : gmap cell (list Z))
    (assignment : gmap cell Z) (var : cell) :
  select_unassigned_var self domains assignment = Ok var →
  var ∈ variables self ∧ assignment !! var = None ∧ is_Some (domains !! var).
Proof.
  unfold select_unassigned_var.
  destruct (mapM _ _) as [keyed|x] eqn:Hk; simpl; [|done].
  destruct keyed as [|x rest]; [done|]. intros [= <-].
  pose proof (mapM_Ok_inv _ _ _ Hk) as HF.
  destruct (py_min_spec x rest) as (m & Hm & -> & _).
  apply list_elem_of_lookup in Hm as [i Hi].
  destruct (Forall2_lookup_r _ _ _ _ _ HF Hi) as (u & Hu & Hfu).
  unfold mrv_key in Hfu. destruct (domains !! u) as [du|] eqn:Hdu; [|done].
  injection Hfu as <-. simpl.
  assert (u ∈ unassigned self assignment) as Huu.
  { apply list_elem_of_lookup. eauto. }
  apply elem_of_unassigned in Huu as [? ?]. eauto.
Qed.

(** It raises [ValueError] on an empty candidate list, [KeyError] on a
    candidate without a domain, and nothing else. *)
Lemma select_unassigned_var_Raise (self : SudokuCSP) (domains : gmap cell (list Z))
    (assignment : gmap cell Z) (x : exn) :
  select_unassigned_var self domains assignment = Raise x →
  unassigned self assignment = [] ∨
  ∃ u, u ∈ unassigned self assignment ∧ domains !! u = None.
Proof.
  unfold select_unassigned_var. intros Hs.
  destruct (decide (Forall (λ u, is_Some (domains !! u))
                           (unassigned self assignment))) as [HF|HF].
  - left. destruct (mapM_Ok (mrv_key self domains assignment)
                            (unassigned self assignment)) as [keyed Hk].
    { eapply Forall_impl; [exact HF|]. intros u [d Hd]. unfold mrv_key.
      rewrite Hd. by eexists. }
    rewrite Hk in Hs. simpl in Hs. destruct keyed; [|done].
    apply mapM_Ok_length in Hk. by destruct (unassigned self assignment).
  - right. apply not_Forall_Exists in HF; [|apply _].
    apply Exists_exists in HF as (u & Hu & Hn). exists u. split; [done|].
    by apply eq_None_not_Some.
Qed.

(** The recursive call works on an assignment with one more key, and one
    variable less is left to assign. *)
Lemma unassigned_insert (self : SudokuCSP) (a : gmap cell Z) (var : cell) (value : Z) :
  unassigned self (<[var := value]> a) = filter (λ v, v ≠ var) (unassigned self a).
Proof.
  unfold unassigned. rewrite list_filter_filter. apply list_filter_iff.
  intros v. destruct (decide (var = v)) as [->|Hne].
  - rewrite lookup_insert_eq. split; [done|]. by intros [? _].
  - rewrite lookup_insert_ne by done. split; [intros ?; split; congruence|by intros [_ ?]].
Qed.

Lemma unassigned_insert_lt (self : SudokuCSP) (a : gmap cell Z) (var : cell) (value : Z) :
  var ∈ variables self → a !! var = None →
  (length (unassigned self (<[var := value]> a)) < length (unassigned self a))%nat.
Proof.
  intros Hv Ha. rewrite unassigned_insert.
  apply (length_filter_lt _ _ var); [by apply elem_of_unassigned|]. by intros ?.
Qed.


(** ** Consistency check *)

Lemma existsb_elem_of {A} (f : A → bool) l :
  existsb f l = true ↔ ∃ x, x ∈ l ∧ f x = true.
Proof.
  rewrite existsb_exists. split; intros (x & Hx & Hf); exists x;
    (split; [by apply list_elem_of_In|done]).
Qed.

Lemma holds_true (a : gmap cell Z) rc value :
  holds a rc value = true ↔ a !! rc = Some value.
Proof. unfold holds. apply bool_decide_eq_true. Qed.

(** The cells of a box are those with the same quotients by the box size. *)
Lemma div_eq_iff bs r q : 0 < bs → r / bs = q ↔ q * bs ≤ r < q * bs + bs.
Proof.
  intros Hbs. split.
  - intros <-. pose proof (Z.div_mod r bs ltac:(lia)) as H1.
    pose proof (Z.mod_pos_bound r bs Hbs) as H2. lia.
  - intros H. symmetry. apply (Z.div_unique r bs q (r - q * bs)); lia.
Qed.

Lemma is_consistent_spec (self : SudokuCSP) (var : cell) (value : Z)
    (a : gmap cell Z) :
  0 < box_size self →
  ∃ b, is_consistent self var value a = Ok b ∧
       (b = false ↔ ∃ k, a !! k = Some value ∧ scanned self var k).
Proof.
  intros Hbs. unfold is_consistent.
  destruct (existsb (λ c, holds a (var.1, c) value) _) eqn:Hrow.
  { exists false. split; [done|]. split; [|done]. intros _.
    apply existsb_elem_of in Hrow as (c & Hc & Hh).
    apply holds_true in Hh. apply elem_of_range in Hc.
    exists (var.1, c). split; [done|]. left. done. }
  destruct (existsb (λ r, holds a (r, var.2) value) _) eqn:Hcol.
  { exists false. split; [done|]. split; [|done]. intros _.
    apply existsb_elem_of in Hcol as (r & Hr & Hh).
    apply holds_true in Hh. apply elem_of_range in Hr.
    exists (r, var.2). split; [done|]. right. left. done. }
  destruct (Z.eqb_spec (box_size self) 0) as [?|_]; [lia|].
  destruct (existsb _ (seqZ (var.1 / box_size self * box_size self) _)) eqn:Hbox.
  { exists false. split; [done|]. split; [|done]. intros _.
    apply existsb_elem_of in Hbox as (r & Hr & Hbox).
    apply existsb_elem_of in Hbox as (c & Hc & Hh).
    apply holds_true in Hh. apply elem_of_seqZ in Hr, Hc.
    exists (r, c). split; [done|]. right. right. simpl.
    split; apply div_eq_iff; lia. }
  exists true. split; [done|]. split; [done|].
  intros (k & Hk & Hs). exfalso. destruct k as [r c]. unfold scanned in Hs. simpl in Hs.
  destruct Hs as [[-> Hc]|[[-> Hr]|[Hr Hc]]].
  - apply not_true_iff_false in Hrow. apply Hrow, existsb_elem_of.
    exists c. split; [by apply elem_of_range|]. by apply holds_true.
  - apply not_true_iff_false in Hcol. apply Hcol, existsb_elem_of.
    exists r. split; [by apply elem_of_range|]. by apply holds_true.
  - apply not_true_iff_false in Hbox. apply Hbox, existsb_elem_of.
    apply div_eq_iff in Hr, Hc; [|done..].
    exists r. split; [apply elem_of_seqZ; lia|]. apply existsb_elem_of.
    exists c. split; [apply elem_of_seqZ; lia|]. by apply holds_true.
Qed.

Lemma scanned_same_unit (self : SudokuCSP) var k :
  scanned self var k → same_unit (box_size self) k var = true.
Proof. unfold scanned. rewrite same_unit_true. tauto. Qed.

Lemma same_unit_scanned (self : SudokuCSP) var k :
  k ∈ cells (size self) →
  same_unit (box_size self) k var = true → scanned self var k.
Proof.
  intros [Hr Hc]%elem_of_cells. unfold scanned. rewrite same_unit_true. tauto.
Qed.

(** [is_consistent] on an assignment whose keys are cells of the grid. *)
Lemma is_consistent_grid (self : SudokuCSP) (var : cell) (value : Z)
    (a : gmap cell Z) :
  0 < box_size self →
  (∀ k, is_Some (a !! k) → k ∈ cells (size self)) →
  ∃ b, is_consistent self var value a = Ok b ∧
       (b = false ↔
        ∃ k, a !! k = Some value ∧ same_unit (box_size self) k var = true).
Proof.
  intros Hbs Hkeys.
  destruct (is_consistent_spec self var value a Hbs) as (b & Hb & Hiff).
  exists b. split; [done|]. rewrite Hiff. split; intros (k & Hk & Hs); exists k.
  - split; [done|]. by apply scanned_same_unit.
  - split; [done|]. apply same_unit_scanned; [|done]. apply Hkeys. eauto.
Qed.

(** C6, as stated, fails: with [var] itself in the assignment and holding
    [value], the row scan finds it and the answer is false, although no
    other variable holds [value]. *)
Lemma is_consistent_sees_var_itself :
  is_consistent sample_engine (0, 1) 1 {[ (0, 1) := 1 ]} = Ok false ∧
  ¬ ∃ k, k ≠ (0, 1) ∧ ({[ (0, 1) := 1 ]} : gmap cell Z) !! k = Some 1
         ∧ same_unit (box_size sample_engine) k (0, 1) = true.
Proof.
  split; [vm_compute; reflexivity|].
  intros (k & Hne & Hk & _). apply lookup_singleton_Some in Hk as [? _]. done.
Qed.

(** C6, amended: on a grid with a positive box size and an assignment dict
    whose keys are cells of the grid, [is_consistent] returns, leaves the
    heap (the assignment dict included) exactly as it was, and answers
    false if and only if some key of the assignment in the row, column or
    box of [var] holds [value], [var] itself counted; when [var] does not
    hold [value] in the assignment, as at every call that the search makes,
    that key is another variable. *)
Theorem is_consistent_false_iff_unit_holds_value (self : SudokuCSP)
    (var : cell) (value : Z) (assignment : loc) (a : gmap cell Z) (σ : store) :
  0 < box_size self →
  map_Forall (λ k _, k ∈ cells (size self)) a →
  σ !! assignment = Some (OAsg a) →
  ∃ b, is_consistent_st self var value assignment σ = (Ok b, σ) ∧
       (b = false ↔
        ∃ k, a !! k = Some value ∧ same_unit (box_size self) k var = true) ∧
       (a !! var ≠ Some value →
        (b = false ↔
         ∃ k, k ≠ var ∧ a !! k = Some value
              ∧ same_unit (box_size self) k var = true)).
Proof.
  intros Hbs Hkeys Hσ.
  destruct (is_consistent_grid self var value a Hbs) as (b & Hb & Hiff).
  { intros k [v Hk]. by apply (Hkeys k v). }
  exists b. split_and!.
  - unfold is_consistent_st, mbind, M_bind, get_asg, lift. by rewrite Hσ, Hb.
  - done.
  - intros Hvar. rewrite Hiff. split.
    + intros (k & Hk & Hs). exists k. split_and!; [|done..].
      intros ->. by apply Hvar.
    + intros (k & _ & Hk & Hs). by exists k.
Qed.

Lemma is_consistent_false_iff_unit_holds_value_witness :
  ∃ b, is_consistent_st sample_engine (1, 0) 4 9%positive sample_heap
       = (Ok b, sample_heap) ∧
       (b = false ↔
        ∃ k, ({[ (1, 2) := 4 ]} : gmap cell Z) !! k = Some 4
             ∧ same_unit (box_size sample_engine) k (1, 0) = true) ∧
       (({[ (1, 2) := 4 ]} : gmap cell Z) !! (1, 0) ≠ Some 4 →
        (b = false ↔
         ∃ k, k ≠ (1, 0) ∧ ({[ (1, 2) := 4 ]} : gmap cell Z) !! k = Some 4
              ∧ same_unit (box_size sample_engine) k (1, 0) = true)).
Proof.
  apply (is_consistent_false_iff_unit_holds_value sample_engine (1, 0) 4
           9%positive {[ (1, 2) := 4 ]} sample_heap).
  - vm_compute. reflexivity.
  - apply (bool_decide_unpack _). vm_compute. exact I.
  - vm_compute. reflexivity.
Defined.


(** ** Value ordering *)

Lemma insert_by_key_perm kx l : insert_by_key kx l ≡ₚ kx :: l.
Proof.
  induction l as [|ky l IH]; simpl; [done|].
  destruct (ky.1 <? kx.1); [|done]. rewrite IH. apply Permutation_swap.
Qed.

Lemma sort_by_key_perm l : sort_by_key l ≡ₚ l.
Proof.
  induction l as [|kx l IH]; simpl; [done|].
  rewrite insert_by_key_perm. by rewrite IH.
Qed.

Lemma eliminated_count_Raise (self : SudokuCSP) (var : cell)
    (d : gmap cell (list Z)) (a : gmap cell Z) (value : Z) (x : exn) :
  eliminated_count self var d a value = Raise x →
  ∃ rc, rc ∈ variables self ∧ d !! rc = None.
Proof.
  unfold eliminated_count.
  assert (∀ l acc,
    foldl (λ acc rc,
      count ← acc;
      if bool_decide (rc = var) || bool_decide (is_Some (a !! rc))
      then Ok count
      else if same_unit (box_size self) rc var
      then match d !! rc with
           | None => Raise KeyError
           | Some dk => Ok (if py_in value dk then count + 1 else count)
           end
      else Ok count) acc l = Raise x →
    acc = Raise x ∨ ∃ rc, rc ∈ l ∧ d !! rc = None) as H.
  { induction l as [|rc l IH]; intros acc; cbn [foldl]; [by left|].
    intros Hf. apply IH in Hf as [Hf|(rc' & Hin & Hn)].
    - destruct acc as [c|y]; simpl in Hf; [|by left].
      right. exists rc. split; [by left|].
      destruct (_ || _); [done|]. destruct (same_unit _ _ _); [|done].
      by destruct (d !! rc).
    - right. exists rc'. split; [by right|done]. }
  intros Hf. apply H in Hf as [Hf|Hf]; [done|exact Hf].
Qed.

(** The order tried is a rearrangement of the domain of the variable. *)
Lemma order_domain_values_Ok (self : SudokuCSP) (var : cell)
    (d : gmap cell (list Z)) (a : gmap cell Z) (order : list Z) :
  order_domain_values self var d a = Ok order →
  ∃ dv, d !! var = Some dv ∧ order ≡ₚ dv.
Proof.
  unfold order_domain_values. destruct (d !! var) as [dv|]; [|done].
  destruct (mapM _ dv) as [keys|x] eqn:Hk; simpl; [|done].
  intros [= <-]. exists dv. split; [done|].
  rewrite sort_by_key_perm. rewrite snd_zip; [done|].
  apply mapM_Ok_length in Hk. lia.
Qed.

Lemma order_domain_values_Raise (self : SudokuCSP) (var : cell)
    (d : gmap cell (list Z)) (a : gmap cell Z) (x : exn) :
  order_domain_values self var d a = Raise x →
  d !! var = None ∨ ∃ rc, rc ∈ variables self ∧ d !! rc = None.
Proof.
  unfold order_domain_values. destruct (d !! var) as [dv|]; [|by left].
  intros Hr. right.
  destruct (decide (Forall (λ rc, is_Some (d !! rc)) (variables self)))
    as [HF|HF].
  - exfalso. destruct (mapM_Ok (eliminated_count self var d a) dv) as [keys Hk].
    { apply Forall_forall. intros value _.
      destruct (eliminated_count self var d a value) as [c|y] eqn:He; [eauto|].
      apply eliminated_count_Raise in He as (rc & Hrc & Hn).
      rewrite Forall_forall in HF. apply HF in Hrc as [? ?]. congruence. }
    by rewrite Hk in Hr.
  - apply not_Forall_Exists in HF; [|apply _].
    apply Exists_exists in HF as (u & Hu & Hn). exists u. split; [done|].
    by apply eq_None_not_Some.
Qed.

(** ** The domains after a successful forward check *)

Lemma forward_check_lookup (self : SudokuCSP) (var : cell) (value : Z)
    (d nd rm : gmap cell (list Z)) :
  map_Forall (λ _ dk, NoDup dk) d →
  forward_check self var value d = Ok (Some nd, rm) →
  ∀ k, nd !! k =
       if decide (k = var) then Some [value]
       else if decide (k ∈ variables self ∧ same_unit (box_size self) k var = true)
            then py_remove value <$> d !! k
            else d !! k.
Proof.
  intros Hnd Hfc k. pose proof (forward_check_spec self var value d Hnd) as H.
  rewrite Hfc in H. destruct H as (Hv & Ha & Hb).
  destruct (decide (k = var)) as [->|Hne]; [done|].
  destruct (decide _) as [[Hk Hsu]|Hn].
  - destruct (Hb k Hk Hne Hsu) as (dk & -> & -> & _). done.
  - apply Ha; [done|]. destruct (decide (k ∈ variables self)); [|by left].
    right. destruct (same_unit _ k var); [|done]. exfalso. by apply Hn.
Qed.

Lemma forward_check_NoDup (self : SudokuCSP) (var : cell) (value : Z)
    (d nd rm : gmap cell (list Z)) :
  map_Forall (λ _ dk, NoDup dk) d →
  forward_check self var value d = Ok (Some nd, rm) →
  map_Forall (λ _ dk, NoDup dk) nd.
Proof.
  intros Hnd Hfc k dk. rewrite (forward_check_lookup _ _ _ _ _ _ Hnd Hfc).
  destruct (decide (k = var)); [intros [= <-]; apply NoDup_singleton|].
  destruct (decide _).
  - destruct (d !! k) as [dk0|] eqn:Hd; simpl; [|done]. intros [= <-].
    apply py_remove_NoDup. by eapply Hnd.
  - apply Hnd.
Qed.

Lemma forward_check_covers (self : SudokuCSP) (var : cell) (value : Z)
    (d nd rm : gmap cell (list Z)) :
  map_Forall (λ _ dk, NoDup dk) d →
  forward_check self var value d = Ok (Some nd, rm) →
  ∀ k, is_Some (d !! k) → is_Some (nd !! k).
Proof.
  intros Hnd Hfc k [dk Hk]. rewrite (forward_check_lookup _ _ _ _ _ _ Hnd Hfc).
  destruct (decide (k = var)); [by eexists|].
  destruct (decide _); rewrite Hk; by eexists.
Qed.


(** ** The search: derivations and termination *)

(** A drain that does not run out of fuel is a derivation. *)
Lemma try_values_loop_run (rec : gmap cell (list Z) → gmap cell Z → stats → run)
    (self : SudokuCSP) var d :
  (∀ nd a st, ending_of (rec nd a st) ≠ OutOfFuel →
              node_run self nd a st (rec nd a st)) →
  ∀ values a st,
    ending_of (try_values rec self var d values a st) ≠ OutOfFuel →
    loop_run self var d values a st (try_values rec self var d values a st).
Proof.
  intros Hrec. induction values as [|value rest IH]; intros a st; cbn [try_values].
  { intros _. constructor. }
  destruct (is_consistent self var value a) as [[|]|x] eqn:Hc.
  - destruct (forward_check self var value d) as [[[nd|] removed]|x] eqn:Hfc.
    + destruct (ending_of (rec nd (<[var:=value]> a) st)) eqn:He.
      * destruct (final_assignment (rec nd (<[var:=value]> a) st) !! var) eqn:Hv.
        -- intros Hne. eapply lr_fc_ok; [done|exact Hfc| |exact He|by rewrite Hv|].
           ++ apply Hrec. by rewrite He.
           ++ apply IH. exact Hne.
        -- intros _. eapply lr_fc_ok_missing; [done|exact Hfc| |exact He|exact Hv].
           apply Hrec. by rewrite He.
      * intros _. eapply lr_fc_ok_raised; [done|exact Hfc| |exact He].
        apply Hrec. by rewrite He.
      * simpl. done.
    + intros Hne. eapply lr_fc_fail; [done|exact Hfc|]. apply IH. exact Hne.
    + intros _. by eapply lr_fc_raise.
  - intros Hne. apply lr_pruned; [done|]. apply IH. exact Hne.
  - intros _. by apply lr_consistent_raise.
Qed.

Lemma search_node_run fuel (self : SudokuCSP) d a st :
  ending_of (search fuel self d a st) ≠ OutOfFuel →
  node_run self d a st (search fuel self d a st).
Proof.
  revert d a st. induction fuel as [|fuel IH]; intros d a st; cbn [search].
  { simpl. done. }
  case_bool_decide as Hsz.
  { intros _. by constructor. }
  destruct (select_unassigned_var self d a) as [var|x] eqn:Hsel.
  2:{ intros _. by constructor. }
  destruct (d !! var) as [dv|] eqn:Hdv.
  2:{ intros _. by eapply nr_domain_missing. }
  destruct (order_domain_values self var d a) as [order|x] eqn:Ho.
  2:{ intros _. by eapply nr_order_raise. }
  intros Hne. eapply nr_loop; [done..|].
  apply try_values_loop_run; [apply IH|exact Hne].
Qed.

(** A call that returns leaves the shared assignment as it found it: what
    it adds before recursing it deletes after. *)
Lemma node_run_restores (self : SudokuCSP) d a st r :
  node_run self d a st r → ending_of r = Returned → final_assignment r = a.
Proof.
  intros H. induction H using node_run_mut with
    (P0 := λ var d values a st r,
       a !! var = None → ending_of r = Returned → final_assignment r = a);
    simpl; try done.
  - (* the loop of a node *)
    intros He. apply IHnode_run; [|exact He].
    by apply select_unassigned_var_Ok in H0 as (_ & ? & _).
  - (* fc_fail *)
    intros Ha He. rewrite delete_insert_id in IHnode_run by done. auto.
  - (* fc_ok *)
    intros Ha He. rewrite IHnode_run in IHnode_run0 by done.
    rewrite delete_insert_id in IHnode_run0 by done. apply IHnode_run0; [done|].
    exact He.
Qed.

Section totality.
Context (self : SudokuCSP).

Lemma try_values_total
    (rec1 rec2 : gmap cell (list Z) → gmap cell Z → stats → run) var d a :
  a !! var = None →
  (∀ value nd st,
     ending_of (rec1 nd (<[var := value]> a) st) ≠ OutOfFuel ∧
     (ending_of (rec1 nd (<[var := value]> a) st) = Returned →
      final_assignment (rec1 nd (<[var := value]> a) st) = <[var := value]> a) ∧
     rec2 nd (<[var := value]> a) st = rec1 nd (<[var := value]> a) st) →
  ∀ values st,
    ending_of (try_values rec1 self var d values a st) ≠ OutOfFuel ∧
    try_values rec2 self var d values a st
    = try_values rec1 self var d values a st.
Proof.
  intros Ha Hrec. induction values as [|value rest IH]; intros st;
    cbn [try_values]; [done|].
  destruct (is_consistent self var value a) as [[|]|x]; [|simpl; auto..].
  - destruct (forward_check self var value d) as [[[nd|] removed]|x];
      [| |done].
    + destruct (Hrec value nd st) as (Hne & Hfin & ->).
      destruct (ending_of (rec1 nd (<[var:=value]> a) st)) eqn:He; [|done..].
      rewrite Hfin by done. rewrite lookup_insert_eq, delete_insert_id by done.
      destruct (IH (bump_backtracks
                      (final_stats (rec1 nd (<[var:=value]> a) st))))
        as [IH1 IH2].
      split; [exact IH1|]. unfold emit. by rewrite IH2.
    + rewrite delete_insert_id by done.
      destruct (IH (bump_backtracks st)) as [IH1 IH2].
      split; [exact IH1|]. unfold emit. by rewrite IH2.
  - destruct (IH st) as [IH1 IH2]. split; [exact IH1|].
    unfold emit. by rewrite IH2.
Qed.

(** With a budget above the number of variables left to assign the
    search never runs out of it, and a larger budget changes nothing. *)
Lemma search_total fuel d a st :
  (length (unassigned self a) < fuel)%nat →
  ending_of (search fuel self d a st) ≠ OutOfFuel ∧
  ∀ fuel', (fuel ≤ fuel')%nat →
           search fuel' self d a st = search fuel self d a st.
Proof.
  revert d a st. induction fuel as [|fuel IH]; intros d a st Hlt; [lia|].
  assert (∀ fuel', (fuel ≤ fuel')%nat →
    ending_of (search (S fuel) self d a st) ≠ OutOfFuel ∧
    search (S fuel') self d a st = search (S fuel) self d a st) as Hmain.
  { intros fuel' Hle. cbn [search]. case_bool_decide; [done|].
    destruct (select_unassigned_var self d a) as [var|x] eqn:Hsel; [|done].
    destruct (d !! var) as [dv|]; [|done].
    destruct (order_domain_values self var d a) as [order|x]; [|done].
    apply select_unassigned_var_Ok in Hsel as (Hv & Ha & _).
    destruct (try_values_total (search fuel self) (search fuel' self) var d a Ha)
      with (values := order) (st := bump_nodes st) as [H1 H2].
    { intros value nd st'.
      pose proof (unassigned_insert_lt self a var value Hv Ha) as Hdec.
      destruct (IH nd (<[var:=value]> a) st') as [Hne Hmono]; [lia|].
      split; [exact Hne|]. split; [|by apply Hmono].
      apply (node_run_restores self nd _ st'). by apply search_node_run. }
    split; [exact H1|]. unfold emit. by rewrite H2. }
  split; [apply (Hmain fuel); lia|].
  intros [|fuel'] Hle; [lia|]. apply Hmain. lia.
Qed.
End totality.


(** ** The search raises nothing *)

Lemma size_full_assignment (l : list cell) (a : gmap cell Z) :
  NoDup l → (∀ k, is_Some (a !! k) ↔ k ∈ l) → base.size a = length l.
Proof.
  intros Hl Hk. rewrite <- (size_dom (D := gset cell)).
  rewrite <- (size_list_to_set (C := gset cell) l Hl). f_equal.
  apply set_eq. intros k. rewrite elem_of_dom, elem_of_list_to_set. apply Hk.
Qed.

Lemma is_consistent_Raise (self : SudokuCSP) (var : cell) (value : Z)
    (a : gmap cell Z) (x : exn) :
  is_consistent self var value a = Raise x → box_size self = 0.
Proof.
  unfold is_consistent.
  repeat match goal with |- context [if ?b then _ else _] =>
    let E := fresh in destruct b eqn:E; [try done|try done] end.
  intros _. by apply Z.eqb_eq.
Qed.

Lemma state_ok_forward_check (self : SudokuCSP) (var : cell) (value : Z)
    (d nd rm : gmap cell (list Z)) (a : gmap cell Z) :
  state_ok self d a → var ∈ variables self →
  forward_check self var value d = Ok (Some nd, rm) →
  state_ok self nd (<[var := value]> a).
Proof.
  intros (Hkeys & Hcov & Hnd) Hv Hfc. split; [|split].
  - intros k. destruct (decide (var = k)) as [<-|Hne]; [done|].
    rewrite lookup_insert_ne by done. apply Hkeys.
  - intros k Hk. eapply forward_check_covers; eauto.
  - by eapply forward_check_NoDup.
Qed.

Lemma node_run_returns (self : SudokuCSP) d a st r :
  engine_ok self →
  node_run self d a st r → state_ok self d a → ending_of r = Returned.
Proof.
  intros [Hnodup Hbs] H. induction H using node_run_mut with
    (P0 := λ var d values a st r,
       state_ok self d a → var ∈ variables self → a !! var = None →
       ending_of r = Returned); simpl; try done.
  - (* select raises *)
    intros (Hkeys & Hcov & _). exfalso.
    apply select_unassigned_var_Raise in H0 as [Hnil|(u & Hu & Hn)].
    + apply H, size_full_assignment; [done|]. intros k. split; [apply Hkeys|].
      intros Hk. destruct (a !! k) eqn:Hak; [done|]. exfalso.
      assert (k ∈ unassigned self a) as Hku by by apply elem_of_unassigned.
      rewrite Hnil in Hku. by apply elem_of_nil in Hku.
    + apply elem_of_unassigned in Hu as [Hu _]. apply Hcov in Hu as [? ?].
      congruence.
  - (* no domain for the selected variable *)
    intros _. apply select_unassigned_var_Ok in H0 as (_ & _ & [? ?]). congruence.
  - (* the ordering raises *)
    intros (_ & Hcov & _). exfalso.
    apply order_domain_values_Raise in H2 as [?|(rc & Hrc & Hn)]; [congruence|].
    apply Hcov in Hrc as [? ?]. congruence.
  - (* the loop *)
    intros Hok. apply select_unassigned_var_Ok in H0 as (Hv & Ha & _). auto.
  - (* is_consistent raises *)
    intros _ Hv _. exfalso. apply is_consistent_Raise in H.
    destruct Hbs as [Hnil|?]; [|done]. rewrite Hnil in Hv.
    by apply elem_of_nil in Hv.
  - (* forward_check raises *)
    intros (_ & Hcov & Hnd) _ _. exfalso.
    pose proof (forward_check_spec self var value d Hnd) as Hs.
    rewrite H0 in Hs. destruct Hs as (n & Hn & _ & _ & Hnone).
    apply Hcov in Hn as [? ?]. congruence.
  - (* fc_fail *)
    intros Hok Hv Ha. rewrite delete_insert_id in IHnode_run by done. auto.
  - (* fc_ok *)
    intros Hok Hv Ha.
    rewrite (node_run_restores _ _ _ _ _ H1 H2) in IHnode_run0.
    rewrite delete_insert_id in IHnode_run0 by done. auto.
  - (* fc_ok, the variable gone from the assignment *)
    intros _ _ _. rewrite (node_run_restores _ _ _ _ _ H1 H2) in H3.
    by rewrite lookup_insert_eq in H3.
  - (* fc_ok, the recursive call raises *)
    intros Hok Hv Ha. rewrite IHnode_run in H2; [done|].
    by eapply state_ok_forward_check.
Qed.

(** ** The default arguments of a constructed engine *)

Lemma default_domains_spec (self : SudokuCSP) :
  (∀ k, k ∈ variables self → is_Some (initial_domains self !! k)) →
  ∃ d : gmap cell (list Z), default_domains self = Ok d ∧
       ∀ k : cell, d !! k = if decide (k ∈ variables self)
                            then initial_domains self !! k else None.
Proof.
  intros Hcov. unfold default_domains.
  assert (∀ (l : list cell) (m : gmap cell (list Z)),
    (∀ k, k ∈ l → is_Some (initial_domains self !! k)) →
    ∃ d : gmap cell (list Z),
      foldl (default_step self) (Ok m) l = Ok d ∧
      ∀ k : cell, d !! k = if decide (k ∈ l) then initial_domains self !! k
                           else m !! k) as H.
  { induction l as [|v l IH]; intros m Hl; cbn [foldl].
    - exists m. split; [done|]. intros k. rewrite decide_False; [done|].
      apply not_elem_of_nil.
    - destruct (Hl v) as [dv Hdv]; [by left|].
      unfold default_step at 2. simpl. rewrite Hdv.
      destruct (IH (<[v := dv]> m)) as (d & Hd & Hlk).
      { intros k Hk. apply Hl. by right. }
      exists d. split; [done|]. intros k. rewrite Hlk.
      destruct (decide (k ∈ l)) as [Hkl|Hkl].
      + rewrite decide_True; [done|by right].
      + destruct (decide (v = k)) as [<-|Hne].
        * rewrite lookup_insert_eq, decide_True; [done|by left].
        * rewrite lookup_insert_ne by done. rewrite decide_False; [done|].
          intros [?|?]%elem_of_cons; congruence. }
  destruct (H (variables self) ∅ Hcov) as (d & Hd & Hlk).
  exists d. split; [done|]. intros k. rewrite Hlk. by rewrite lookup_empty.
Qed.

Lemma engine_for_ok n board (self : SudokuCSP) :
  0 ≤ n → engine_for n board self → engine_ok self.
Proof.
  intros Hn Hef. split.
  - rewrite (ef_variables _ _ _ Hef). apply NoDup_filter, NoDup_cells.
  - destruct (decide (n = 0)) as [->|Hne].
    + left. rewrite (ef_variables _ _ _ Hef). done.
    + right. rewrite (ef_box_size _ _ _ Hef).
      assert (0 < Z.sqrt n); [apply Z.sqrt_pos|]; lia.
Qed.

Lemma engine_for_default n board (self : SudokuCSP) :
  engine_for n board self →
  ∃ d, default_domains self = Ok d ∧ state_ok self d ∅ ∧
       ∀ k, k ∈ variables self → d !! k = initial_domains self !! k.
Proof.
  intros Hef. destruct (default_domains_spec self) as (d & Hd & Hlk).
  { intros k Hk. destruct (ef_domains _ _ _ Hef k Hk) as (dk & -> & _). done. }
  exists d. split; [done|]. split; [split; [|split]|].
  - intros k [? Hk]. by rewrite lookup_empty in Hk.
  - intros k Hk. rewrite Hlk, decide_True by done.
    destruct (ef_domains _ _ _ Hef k Hk) as (dk & -> & _). done.
  - intros k dk. rewrite Hlk. case_decide as Hk; [|done].
    destruct (ef_domains _ _ _ Hef k Hk) as (dk' & -> & Hnd & _). by intros [= <-].
  - intros k Hk. by rewrite Hlk, decide_True.
Qed.

(** The drain of a constructed engine with the default arguments is a
    derivation that returns. *)
Lemma init_default_run n board (self : SudokuCSP) :
  __init__ n board = Ok self →
  ∃ d, default_domains self = Ok d ∧ state_ok self d ∅ ∧
       node_run self d ∅ (Stats 0 0 0) (backtrack_generator self None None) ∧
       ending_of (backtrack_generator self None None) = Returned.
Proof.
  intros Hi. destruct (init_inv _ _ _ Hi) as [Hn Hcov].
  destruct (init_ok n board Hn Hcov) as (self' & Hi' & Hef).
  rewrite Hi in Hi'. injection Hi' as <-.
  destruct (engine_for_default _ _ _ Hef) as (d & Hd & Hok & _).
  exists d. split; [done|]. split; [done|].
  unfold backtrack_generator. rewrite Hd, (ef_counters _ _ _ Hef).
  destruct (search_total self (depth_bound self ∅) d ∅ (Stats 0 0 0)) as [Hne _].
  { unfold depth_bound. lia. }
  pose proof (search_node_run _ _ _ _ _ Hne) as Hrun.
  split; [done|]. eapply node_run_returns; eauto. by eapply engine_for_ok.
Qed.


(** ** The counters *)

Lemma count_events_app p l1 l2 :
  count_events p (l1 ++ l2) = count_events p l1 + count_events p l2.
Proof. induction l1 as [|e l1 IH]; simpl; [done|]. rewrite IH. lia. Qed.

Lemma count_events_nonneg p l : 0 ≤ count_events p l.
Proof. induction l as [|e l IH]; simpl; [done|]. destruct (p e); lia. Qed.

(** Each call counts one node, and the calls are the root and one per
    [fc_ok] event; each solution event counts one solution; in a run that
    returns, each [fc_ok] and each [fc_fail] event counts one backtrack. *)
Lemma node_run_counters (self : SudokuCSP) d a st r :
  node_run self d a st r →
  nodes (final_stats r) = nodes st + 1 + count_events is_fc_ok (events r) ∧
  solutions (final_stats r) = solutions st + count_events is_solution (events r) ∧
  count_events is_solution (events r) ≤ 1 + count_events is_fc_ok (events r) ∧
  (ending_of r = Returned →
   backtracks (final_stats r)
   = backtracks st + count_events is_fc_ok (events r)
     + count_events is_fc_fail (events r)).
Proof.
  intros H. induction H using node_run_mut with
    (P0 := λ var d values a st r,
       nodes (final_stats r) = nodes st + count_events is_fc_ok (events r) ∧
       solutions (final_stats r)
       = solutions st + count_events is_solution (events r) ∧
       count_events is_solution (events r) ≤ count_events is_fc_ok (events r) ∧
       (ending_of r = Returned →
        backtracks (final_stats r)
        = backtracks st + count_events is_fc_ok (events r)
          + count_events is_fc_fail (events r)));
    simpl in *; rewrite ?count_events_app in *; simpl in *;
    repeat match goal with H : _ ∧ _ |- _ => destruct H end;
    repeat split; try lia; intros He;
    repeat match goal with
           | H : ending_of _ = Returned → _ |- _ => specialize (H ltac:(assumption))
           end;
    try lia; try done.
Qed.

(** C1, as stated, fails on [nodes >= backtracks]: on the sample board
    (well formed, without a completion) the root tries two values, each
    passes forward checking, and each of the two child calls has its only
    value refused by forward checking: 3 nodes, 4 backtracks. *)
Lemma backtracks_exceed_nodes :
  well_formed sample_board = true ∧
  __init__ 4 (Some sample_board) = Ok sample_engine ∧
  ending_of (backtrack_generator sample_engine None None) = Returned ∧
  nodes (final_stats (backtrack_generator sample_engine None None)) = 3 ∧
  backtracks (final_stats (backtrack_generator sample_engine None None)) = 4 ∧
  ¬ (nodes (final_stats (backtrack_generator sample_engine None None))
     >= backtracks (final_stats (backtrack_generator sample_engine None None))).
Proof.
  assert (final_stats (backtrack_generator sample_engine None None)
          = Stats 3 4 0) as Hst by (vm_compute; reflexivity).
  rewrite Hst. cbn [nodes backtracks].
  split; [vm_compute; reflexivity|]. split; [vm_compute; reflexivity|].
  split; [vm_compute; reflexivity|].
  split; [reflexivity|]. split; [reflexivity|]. lia.
Qed.

(** C1, amended: the full drain of a fresh engine with the default
    arguments returns, and then [nodes] is one more than the number of
    [fc_ok] events, [backtracks] is the number of [fc_ok] and [fc_fail]
    events together, [solutions] is the number of solution events, and
    [nodes >= solutions]; [nodes >= backtracks] holds exactly when at most
    one [fc_fail] event occurred. *)
Theorem drained_counters (n : Z) (board : option (list (list Z)))
    (self : SudokuCSP) :
  __init__ n board = Ok self →
  let r := backtrack_generator self None None in
  ending_of r = Returned ∧
  nodes (final_stats r) = 1 + count_events is_fc_ok (events r) ∧
  backtracks (final_stats r)
  = count_events is_fc_ok (events r) + count_events is_fc_fail (events r) ∧
  solutions (final_stats r) = count_events is_solution (events r) ∧
  nodes (final_stats r) >= solutions (final_stats r) ∧
  (nodes (final_stats r) >= backtracks (final_stats r)
   ↔ count_events is_fc_fail (events r) ≤ 1).
Proof.
  intros Hi r. destruct (init_default_run _ _ _ Hi) as (d & _ & _ & Hrun & Hret).
  fold r in Hrun, Hret.
  destruct (node_run_counters _ _ _ _ _ Hrun) as (Hn & Hs & Hle & Hb).
  specialize (Hb Hret). cbn [nodes backtracks solutions] in Hn, Hs, Hb.
  split; [exact Hret|]. repeat split; lia.
Qed.

Lemma drained_counters_witness :
  __init__ 4 (Some sample_board) = Ok sample_engine ∧
  nodes (final_stats (backtrack_generator sample_engine None None))
  >= solutions (final_stats (backtrack_generator sample_engine None None)).
Proof.
  assert (__init__ 4 (Some sample_board) = Ok sample_engine) as Hi
    by (vm_compute; reflexivity).
  split; [exact Hi|].
  destruct (drained_counters 4 (Some sample_board) sample_engine Hi)
    as (_ & _ & _ & _ & H & _).
  exact H.
Defined.


(** ** Termination *)

(** C9: the drained generator never uses up the recursion budget
    [depth_bound], and any larger budget gives the same finite run; the
    reason is that the recursive call, made for the variable [var] that
    [select_unassigned_var] returned, works on the assignment with [var]
    added, which is strictly larger and leaves strictly fewer of the
    finitely many variables to assign.  This holds for every engine and
    all arguments, so in particular for an engine built from a well-formed
    board and run with the default arguments. *)
Theorem backtrack_generator_terminates (self : SudokuCSP)
    (domains : option (gmap cell (list Z))) (assignment : option (gmap cell Z)) :
  ending_of (backtrack_generator self domains assignment) ≠ OutOfFuel ∧
  (∀ d fuel,
     match domains with None => default_domains self | Some d' => Ok d' end = Ok d →
     (depth_bound self (default ∅ assignment) ≤ fuel)%nat →
     search fuel self d (default ∅ assignment) (counters self)
     = backtrack_generator self domains assignment) ∧
  (∀ d a var value,
     select_unassigned_var self d a = Ok var →
     a ⊂ <[var := value]> a ∧
     (length (unassigned self (<[var := value]> a))
      < length (unassigned self a))%nat).
Proof.
  split; [|split].
  - unfold backtrack_generator.
    destruct (match domains with None => _ | Some d => _ end) as [d|x]; [|done].
    apply search_total. unfold depth_bound. lia.
  - intros d fuel Hd Hfuel. unfold backtrack_generator. rewrite Hd.
    assert (match assignment with None => ∅ | Some a => a end
            = default ∅ assignment) as -> by by destruct assignment.
    apply (proj2 (search_total self (depth_bound self (default ∅ assignment)) d
                   (default ∅ assignment) (counters self)
                   ltac:(unfold depth_bound; lia))). exact Hfuel.
  - intros d a var value (Hv & Ha & _)%select_unassigned_var_Ok. split.
    + by apply insert_subset.
    + by apply unassigned_insert_lt.
Qed.

Lemma backtrack_generator_terminates_witness :
  ending_of (backtrack_generator sample_engine None None) ≠ OutOfFuel.
Proof. apply (backtrack_generator_terminates sample_engine None None). Defined.


(** ** The solution events: sound, complete, without repetition *)

Lemma solutions_of_app l1 l2 :
  solutions_of (l1 ++ l2) = solutions_of l1 ++ solutions_of l2.
Proof. apply omap_app. Qed.

Section search_spec.
Context (self : SudokuCSP) (A : cell → Z → Prop).
Hypothesis Hpos : 0 < box_size self.
Hypothesis Hgrid : ∀ k, k ∈ variables self → k ∈ cells (size self).
Hypothesis Hnodup : NoDup (variables self).

(** An assignment as large as the variable list is total. *)
Lemma full_size_total (a : gmap cell Z) :
  (∀ k, is_Some (a !! k) → k ∈ variables self) →
  base.size a = length (variables self) →
  ∀ k, k ∈ variables self → is_Some (a !! k).
Proof.
  intros Hkeys Hsize k Hk. apply (elem_of_dom (D := gset cell)).
  assert (dom a = list_to_set (variables self)) as ->.
  { apply set_subseteq_size_eq.
    - intros k' Hk'%elem_of_dom. apply elem_of_list_to_set. by apply Hkeys.
    - rewrite size_dom, size_list_to_set by done. lia. }
  by apply elem_of_list_to_set.
Qed.

(** A valid total assignment that extends a total one is that one. *)
Lemma valid_total_unique (a s : gmap cell Z) :
  (∀ k, k ∈ variables self → is_Some (a !! k)) →
  valid_partial self A s → a ⊆ s → s = a.
Proof.
  intros Htot [Hkeys _] Hsub. apply map_eq. intros k.
  destruct (a !! k) as [x|] eqn:Ha.
  - by eapply lookup_weaken.
  - destruct (s !! k) as [y|] eqn:Hs; [|done]. exfalso.
    destruct (Hkeys k y Hs) as [Hk _]. apply Htot in Hk as [? ?]. congruence.
Qed.

(** Committing a consistent, admissible value keeps the assignment valid. *)
Lemma valid_partial_insert (a : gmap cell Z) (var : cell) (value : Z) :
  valid_partial self A a → var ∈ variables self → A var value →
  is_consistent self var value a = Ok true →
  valid_partial self A (<[var := value]> a).
Proof.
  intros [Hkeys Hpair] Hv HA Hc.
  assert (∀ k, a !! k = Some value → same_unit (box_size self) k var = false)
    as Hfree.
  { intros k Hk. destruct (same_unit _ k var) eqn:Hsu; [|done]. exfalso.
    destruct (is_consistent_spec self var value a Hpos) as (b & Hb & Hiff).
    rewrite Hc in Hb. injection Hb as <-.
    assert (true = false); [|done]. apply Hiff. exists k. split; [done|].
    apply same_unit_scanned; [|done]. apply Hgrid. by eapply Hkeys. }
  split.
  - intros k x. destruct (decide (var = k)) as [<-|Hne].
    + rewrite lookup_insert_eq. by intros [= <-].
    + rewrite lookup_insert_ne by done. apply Hkeys.
  - intros k1 k2 x H1 H2 Hne.
    destruct (decide (var = k1)) as [<-|Hne1];
      destruct (decide (var = k2)) as [<-|Hne2]; [done| | |].
    + rewrite lookup_insert_eq in H1. injection H1 as <-.
      rewrite lookup_insert_ne in H2 by done.
      rewrite same_unit_sym. by apply Hfree.
    + rewrite lookup_insert_eq in H2. injection H2 as <-.
      rewrite lookup_insert_ne in H1 by done. by apply Hfree.
    + rewrite lookup_insert_ne in H1, H2 by done. by eapply Hpair.
Qed.

Lemma domains_within_forward_check (var : cell) (value : Z)
    (d nd rm : gmap cell (list Z)) :
  map_Forall (λ _ dk, NoDup dk) d →
  domains_within self A d → A var value →
  forward_check self var value d = Ok (Some nd, rm) →
  domains_within self A nd.
Proof.
  intros Hnd Hdw HA Hfc k dk x Hk.
  rewrite (forward_check_lookup _ _ _ _ _ _ Hnd Hfc).
  destruct (decide (k = var)) as [->|Hne].
  { intros [= <-] ->%list_elem_of_singleton. done. }
  destruct (decide _).
  - destruct (d !! k) as [dk0|] eqn:Hd; simpl; [|done]. intros [= <-] Hx.
    apply py_remove_subseteq in Hx. by eapply Hdw.
  - intros Hd Hx. by eapply Hdw.
Qed.

(** A valid total assignment that fits the domains, and gives [value] to
    [var], fits the domains after the forward check on that value. *)
Lemma fits_forward_check (var : cell) (value : Z)
    (d nd rm : gmap cell (list Z)) (s : gmap cell Z) :
  map_Forall (λ _ dk, NoDup dk) d →
  valid_partial self A s → fits self d s → s !! var = Some value →
  forward_check self var value d = Ok (Some nd, rm) →
  fits self nd s.
Proof.
  intros Hnd [_ Hpair] Hfit Hsv Hfc k Hk.
  destruct (Hfit k Hk) as (dk & x & Hd & Hs & Hx).
  rewrite (forward_check_lookup _ _ _ _ _ _ Hnd Hfc).
  destruct (decide (k = var)) as [->|Hne].
  { exists [value], value. split; [done|]. split; [done|]. by left. }
  destruct (decide _) as [[_ Hsu]|_].
  - exists (py_remove value dk), x. rewrite Hd. split; [done|]. split; [done|].
    apply py_remove_elem_of; [by eapply Hnd|]. split; [done|].
    intros ->. specialize (Hpair k var value Hs Hsv Hne). congruence.
  - exists dk, x. done.
Qed.
Lemma node_run_spec d a st r :
  node_run self d a st r →
  ending_of r = Returned → state_ok self d a →
  valid_partial self A a → domains_within self A d →
  node_spec self A d a r.
Proof.
  intros H. induction H using node_run_mut with
    (P0 := λ var d values a st r,
       ending_of r = Returned → state_ok self d a →
       valid_partial self A a → domains_within self A d →
       var ∈ variables self → a !! var = None →
       NoDup values → (∀ x, x ∈ values → A var x) →
       loop_spec self A var d values a r).
  - (* a full assignment: the solution event *)
    intros _ (Hkeys & _ & _) Hva _. simpl.
    assert (∀ k, k ∈ variables self → is_Some (a !! k)) as Htot
      by by apply full_size_total.
    split; [|split].
    + intros s ->%list_elem_of_singleton. by split.
    + apply NoDup_singleton.
    + intros s [Hvs _] Hsub _. apply list_elem_of_singleton.
      by apply valid_total_unique.
  - done.
  - done.
  - done.
  - (* a variable is selected and its values are tried *)
    intros He Hok Hva Hdw. simpl in He.
    pose proof Hok as (_ & _ & Hnd).
    apply select_unassigned_var_Ok in H0 as (Hv & Ha & _).
    apply order_domain_values_Ok in H2 as (dv' & Hdv' & Hperm).
    rewrite H1 in Hdv'. injection Hdv' as <-.
    destruct IHnode_run as (Hs1 & Hs2 & Hs3); try done.
    { rewrite Hperm. by eapply Hnd. }
    { intros x Hx. rewrite Hperm in Hx. by eapply Hdw. }
    split; [|split]; simpl.
    + intros s Hs. by destruct (Hs1 s Hs) as (? & ? & _).
    + done.
    + intros s Hvs Hsub Hfit. apply Hs3; try done.
      destruct (Hfit var Hv) as (dk & x & Hd & Hsx & Hx).
      rewrite H1 in Hd. injection Hd as <-.
      exists x. split; [by rewrite Hperm|done].
  - (* no value left *)
    intros _ _ _ _ _ _ _ _. split; [|split]; simpl.
    + by intros s ?%elem_of_nil.
    + constructor.
    + by intros s _ _ _ (x & ?%elem_of_nil & _).
  - done.
  - (* a value in conflict with the assignment *)
    intros He Hok Hva Hdw Hv Ha [Hnv Hnr]%NoDup_cons HA. simpl in He.
    destruct IHnode_run as (Hs1 & Hs2 & Hs3); try done.
    { intros x Hx. apply HA. by right. }
    split; [|split]; simpl.
    + intros s Hs. destruct (Hs1 s Hs) as (? & ? & x & Hx & ?).
      split; [done|]. split; [done|]. exists x. split; [by right|done].
    + done.
    + intros s Hvs Hsub Hfit (x & Hx & Hsx). apply Hs3; try done.
      exists x. split; [|done].
      apply elem_of_cons in Hx as [->|Hx]; [|done]. exfalso.
      destruct (is_consistent_spec self var value a Hpos) as (b & Hb & Hiff).
      rewrite H in Hb. injection Hb as <-.
      destruct (proj1 Hiff eq_refl) as (k & Hk & Hsc).
      apply scanned_same_unit in Hsc.
      assert (k ≠ var) as Hne by (intros ->; congruence).
      destruct Hvs as [[_ Hpair] _].
      pose proof (lookup_weaken _ _ _ _ Hk Hsub) as Hsk.
      specialize (Hpair k var value Hsk Hsx Hne). congruence.
  - done.
  - (* forward checking refuses the value *)
    intros He Hok Hva Hdw Hv Ha [Hnv Hnr]%NoDup_cons HA. simpl in He.
    rewrite delete_insert_id in IHnode_run by done.
    destruct IHnode_run as (Hs1 & Hs2 & Hs3); try done.
    { intros x Hx. apply HA. by right. }
    pose proof Hok as (_ & _ & Hnd).
    split; [|split]; simpl.
    + intros s Hs. destruct (Hs1 s Hs) as (? & ? & x & Hx & ?).
      split; [done|]. split; [done|]. exists x. split; [by right|done].
    + done.
    + intros s Hvs Hsub Hfit (x & Hx & Hsx). apply Hs3; try done.
      exists x. split; [|done].
      apply elem_of_cons in Hx as [->|Hx]; [|done]. exfalso.
      pose proof (forward_check_spec self var value d Hnd) as Hfc.
      rewrite H0 in Hfc.
      destruct Hfc as (n & dn & Hn & Hne & Hsu & Hdn & Hnil).
      destruct (Hfit n Hn) as (dn' & y & Hdn' & Hsn & Hy).
      rewrite Hdn in Hdn'. injection Hdn' as <-.
      assert (y = value) as ->.
      { apply py_remove_nil in Hnil as [->| ->].
        - by apply elem_of_nil in Hy.
        - by apply list_elem_of_singleton in Hy. }
      destruct Hvs as [[_ Hpair] _].
      specialize (Hpair n var value Hsn Hsx Hne). congruence.
  - (* forward checking accepts the value: the recursive call, then the
       other values *)
    intros He Hok Hva Hdw Hv Ha [Hnv Hnr]%NoDup_cons HA. simpl in He.
    pose proof Hok as (_ & _ & Hnd).
    rewrite (node_run_restores _ _ _ _ _ H1 H2) in IHnode_run0.
    rewrite delete_insert_id in IHnode_run0 by done.
    assert (A var value) as HAv by (apply HA; by left).
    destruct IHnode_run as (Hr1 & Hr2 & Hr3); try done.
    { by eapply state_ok_forward_check. }
    { by apply valid_partial_insert. }
    { by eapply domains_within_forward_check. }
    destruct IHnode_run0 as (Hs1 & Hs2 & Hs3); try done.
    { intros x Hx. apply HA. by right. }
    assert (∀ s, s ∈ solutions_of (events r1) → s !! var = Some value) as Hval.
    { intros s Hs. destruct (Hr1 s Hs) as [_ Hsub].
      eapply lookup_weaken; [|exact Hsub]. apply lookup_insert_eq. }
    split; [|split]; simpl; rewrite !solutions_of_app; simpl;
      rewrite ?app_nil_r.
    + intros s [Hs|Hs]%elem_of_app.
      * destruct (Hr1 s Hs) as [Hvs Hsub]. split; [done|]. split.
        -- etrans; [|exact Hsub]. by apply insert_subseteq.
        -- exists value. split; [by left|by apply Hval].
      * destruct (Hs1 s Hs) as (? & ? & x & Hx & ?).
        split; [done|]. split; [done|]. exists x. split; [by right|done].
    + apply NoDup_app. split; [done|]. split; [|done].
      intros s Hs Hs'. destruct (Hs1 s Hs') as (_ & _ & x & Hx & Hsx).
      rewrite (Hval s Hs) in Hsx. injection Hsx as <-. done.
    + intros s Hvs Hsub Hfit (x & Hx & Hsx). apply elem_of_app.
      apply elem_of_cons in Hx as [->|Hx].
      * left. apply Hr3; [done| |].
        -- by apply insert_subseteq_l.
        -- eapply fits_forward_check; eauto. apply Hvs.
      * right. apply Hs3; try done. eauto.
  - (* the variable is still in the assignment after the call *)
    done.
  - done.
Qed.
End search_spec.


(** ** Rows, columns and boxes *)

Lemma elem_of_rect r0 h c0 w k :
  k ∈ rect r0 h c0 w ↔ r0 ≤ k.1 < r0 + h ∧ c0 ≤ k.2 < c0 + w.
Proof.
  unfold rect. rewrite list_elem_of_bind. split.
  - intros (r & Hk & Hr). apply list_elem_of_bind in Hk as (c & Hk & Hc).
    apply list_elem_of_singleton in Hk as ->. simpl.
    by rewrite <- !elem_of_seqZ.
  - intros [Hr Hc]. exists k.1. split; [|by apply elem_of_seqZ].
    apply list_elem_of_bind. exists k.2. split; [|by apply elem_of_seqZ].
    destruct k. apply list_elem_of_singleton. done.
Qed.

Lemma NoDup_rect r0 h c0 w : NoDup (rect r0 h c0 w).
Proof.
  unfold rect. apply NoDup_bind.
  - intros r1 r2 rc _ _ H1 H2.
    apply list_elem_of_bind in H1 as (c1 & H1 & _).
    apply list_elem_of_bind in H2 as (c2 & H2 & _).
    apply list_elem_of_singleton in H1, H2. congruence.
  - intros r _. apply NoDup_bind.
    + intros c1 c2 rc _ _ H1 H2.
      apply list_elem_of_singleton in H1, H2. congruence.
    + intros c _. apply NoDup_singleton.
    + apply NoDup_seqZ.
  - apply NoDup_seqZ.
Qed.

Lemma length_bind_const {B C} (f : B → list C) (l : list B) (m : nat) :
  (∀ x, length (f x) = m) → length (l ≫= f) = (length l * m)%nat.
Proof.
  intros Hf. induction l as [|x l IH]; [done|].
  change ((x :: l) ≫= f) with (f x ++ l ≫= f).
  rewrite length_app, Hf, IH. simpl. lia.
Qed.

Lemma length_rect r0 h c0 w :
  length (rect r0 h c0 w) = (Z.to_nat h * Z.to_nat w)%nat.
Proof.
  unfold rect. rewrite (length_bind_const _ _ (Z.to_nat w)).
  - by rewrite length_seqZ.
  - intros r. rewrite (length_bind_const _ _ 1%nat); [|done].
    rewrite length_seqZ. lia.
Qed.

Lemma box_of_rect (g : cell → Z) bs br bc :
  box_of g bs br bc = g <$> rect (br * bs) bs (bc * bs) bs.
Proof.
  unfold box_of, rect.
  assert (∀ (r : Z) (l' : list Z),
            l' ≫= (λ c, [g (r, c)]) = g <$> (l' ≫= λ c, [(r, c)])) as Hrow.
  { intros r l'. induction l' as [|c l' IH']; [done|].
    change ((c :: l') ≫= ?f) with (f c ++ l' ≫= f).
    rewrite fmap_app, <- IH'. done. }
  induction (seqZ (br * bs) bs) as [|r l IH]; [done|].
  change ((r :: l) ≫= ?f) with (f r ++ l ≫= f).
  rewrite fmap_app, <- IH. f_equal. apply Hrow.
Qed.

(** A duplicate-free list of [n] values of [1..n] is a permutation of
    [1..n]. *)
Lemma perm_of_1_to_n (l : list Z) (n : Z) :
  NoDup l → (∀ x, x ∈ l → 1 ≤ x ≤ n) → length l = Z.to_nat n →
  l ≡ₚ seqZ 1 n.
Proof.
  intros Hnd Hr Hlen. apply submseteq_length_Permutation.
  - apply NoDup_submseteq; [done|]. intros x Hx%Hr. apply elem_of_seqZ. lia.
  - rewrite length_seqZ. lia.
Qed.

Lemma NoDup_fmap_inj_on {B C} (f : B → C) (l : list B) x y :
  NoDup (f <$> l) → x ∈ l → y ∈ l → f x = f y → x = y.
Proof.
  induction l as [|z l IH]; [by intros _ ?%elem_of_nil|].
  rewrite fmap_cons, NoDup_cons. intros [Hz Hl] Hx Hy Hf.
  apply elem_of_cons in Hx as [->|Hx]; apply elem_of_cons in Hy as [->|Hy].
  - done.
  - exfalso. apply Hz. rewrite Hf. by apply list_elem_of_fmap_2.
  - exfalso. apply Hz. rewrite <- Hf. by apply list_elem_of_fmap_2.
  - by apply IH.
Qed.

Section latin.
Context (n bs : Z) (g : cell → Z).
Hypothesis Hbs : 0 < bs.
Hypothesis Hn : n = bs * bs.

Lemma box_in_grid br bc k :
  br ∈ range bs → bc ∈ range bs →
  k ∈ rect (br * bs) bs (bc * bs) bs → k ∈ cells n.
Proof.
  intros Hbr%elem_of_range Hbc%elem_of_range [Hr Hc]%elem_of_rect.
  apply elem_of_cells. nia.
Qed.

Lemma box_same_unit br bc k1 k2 :
  k1 ∈ rect (br * bs) bs (bc * bs) bs →
  k2 ∈ rect (br * bs) bs (bc * bs) bs →
  same_unit bs k1 k2 = true.
Proof.
  intros [Hr1 Hc1]%elem_of_rect [Hr2 Hc2]%elem_of_rect.
  apply same_unit_true. right. right.
  rewrite (proj2 (div_eq_iff bs k1.1 br Hbs)) by done.
  rewrite (proj2 (div_eq_iff bs k2.1 br Hbs)) by done.
  rewrite (proj2 (div_eq_iff bs k1.2 bc Hbs)) by done.
  rewrite (proj2 (div_eq_iff bs k2.2 bc Hbs)) by done.
  done.
Qed.

Lemma cell_in_its_box k :
  k ∈ cells n →
  k.1 / bs ∈ range bs ∧ k.2 / bs ∈ range bs ∧
  k ∈ rect (k.1 / bs * bs) bs (k.2 / bs * bs) bs.
Proof.
  intros [Hr Hc]%elem_of_cells.
  pose proof (proj1 (div_eq_iff bs k.1 _ Hbs) eq_refl) as H1.
  pose proof (proj1 (div_eq_iff bs k.2 _ Hbs) eq_refl) as H2.
  rewrite !elem_of_range, elem_of_rect.
  assert (0 ≤ k.1 / bs) by (apply Z.div_pos; lia).
  assert (0 ≤ k.2 / bs) by (apply Z.div_pos; lia).
  assert (k.1 / bs < bs) by (apply Z.div_lt_upper_bound; lia).
  assert (k.2 / bs < bs) by (apply Z.div_lt_upper_bound; lia).
  lia.
Qed.

Lemma latin_solved : latin n bs g → grid_solved n bs g.
Proof.
  intros [Hrange Hdiff]. split; [|split].
  - intros r Hr%elem_of_range. apply perm_of_1_to_n.
    + apply NoDup_fmap_2_strong; [|apply NoDup_seqZ].
      intros c1 c2 Hc1%elem_of_range Hc2%elem_of_range Hg.
      destruct (decide (c1 = c2)) as [|Hne]; [done|]. exfalso.
      apply (Hdiff (r, c1) (r, c2)); [by apply elem_of_cells..|congruence| |done].
      apply same_unit_true. by left.
    + intros x (c & -> & Hc%elem_of_range)%list_elem_of_fmap.
      apply Hrange. by apply elem_of_cells.
    + unfold row_of, range. by rewrite length_fmap, length_seqZ.
  - intros c Hc%elem_of_range. apply perm_of_1_to_n.
    + apply NoDup_fmap_2_strong; [|apply NoDup_seqZ].
      intros r1 r2 Hr1%elem_of_range Hr2%elem_of_range Hg.
      destruct (decide (r1 = r2)) as [|Hne]; [done|]. exfalso.
      apply (Hdiff (r1, c) (r2, c)); [by apply elem_of_cells..|congruence| |done].
      apply same_unit_true. right. by left.
    + intros x (r & -> & Hr%elem_of_range)%list_elem_of_fmap.
      apply Hrange. by apply elem_of_cells.
    + unfold col_of, range. by rewrite length_fmap, length_seqZ.
  - intros br bc Hbr Hbc. rewrite box_of_rect. apply perm_of_1_to_n.
    + apply NoDup_fmap_2_strong; [|apply NoDup_rect].
      intros k1 k2 Hk1 Hk2 Hg.
      destruct (decide (k1 = k2)) as [|Hne]; [done|]. exfalso.
      apply (Hdiff k1 k2);
        [by apply (box_in_grid br bc)..|done|by apply (box_same_unit br bc)|done].
    + intros x (k & -> & Hk)%list_elem_of_fmap.
      apply Hrange. by apply (box_in_grid br bc).
    + rewrite length_fmap, length_rect, Hn. rewrite Z2Nat.inj_mul; lia.
Qed.

Lemma solved_latin : grid_solved n bs g → latin n bs g.
Proof.
  intros (Hrows & Hcols & Hboxes). split.
  - intros [r c] [Hr Hc]%elem_of_cells. simpl in *.
    assert (g (r, c) ∈ seqZ 1 n) as Hin.
    { rewrite <- (Hrows r) by by apply elem_of_range.
      apply (list_elem_of_fmap_2 (λ c, g (r, c))). by apply elem_of_range. }
    apply elem_of_seqZ in Hin. lia.
  - intros [r1 c1] [r2 c2] Hk1 Hk2 Hne Hsu Hg.
    pose proof Hk1 as [Hr1 Hc1]%elem_of_cells.
    pose proof Hk2 as [Hr2 Hc2]%elem_of_cells. simpl in *.
    apply same_unit_true in Hsu as [Hsu|[Hsu|[Hsu1 Hsu2]]]; simpl in *.
    + subst r2. apply Hne. f_equal.
      apply (NoDup_fmap_inj_on (λ c, g (r1, c)) (range n));
        [|by apply elem_of_range..|done].
      assert (NoDup (row_of g n r1)) as Hnd; [|exact Hnd].
      rewrite (Hrows r1) by by apply elem_of_range. apply NoDup_seqZ.
    + subst c2. apply Hne. f_equal.
      apply (NoDup_fmap_inj_on (λ r, g (r, c1)) (range n));
        [|by apply elem_of_range..|done].
      assert (NoDup (col_of g n c1)) as Hnd; [|exact Hnd].
      rewrite (Hcols c1) by by apply elem_of_range. apply NoDup_seqZ.
    + destruct (cell_in_its_box _ Hk1) as (Hbr & Hbc & Hin1).
      destruct (cell_in_its_box _ Hk2) as (_ & _ & Hin2). simpl in *.
      rewrite <- Hsu1, <- Hsu2 in Hin2. apply Hne.
      apply (NoDup_fmap_inj_on g
               (rect (r1 / bs * bs) bs (c1 / bs * bs) bs)); [|done..].
      rewrite <- box_of_rect. rewrite (Hboxes _ _ Hbr Hbc). apply NoDup_seqZ.
Qed.
End latin.


(** ** Well-formed boards and their completions *)

Lemma forallb_elem_of {B} (f : B → bool) (l : list B) :
  forallb f l = true ↔ ∀ x, x ∈ l → f x = true.
Proof.
  rewrite forallb_forall. split; intros H x Hx; apply H; by apply list_elem_of_In.
Qed.

Lemma well_formed_spec (board : list (list Z)) :
  well_formed board = true →
  let n := Z.of_nat (length board) in
  0 < Z.sqrt n ∧ n = Z.sqrt n * Z.sqrt n ∧
  covers_grid n board = true ∧
  (∀ rc, rc ∈ cells n → 0 ≤ cell_val board rc ≤ n) ∧
  (∀ p q, p ∈ cells n → q ∈ cells n → p ≠ q → cell_val board p ≠ 0 →
          same_unit (Z.sqrt n) p q = true →
          cell_val board p ≠ cell_val board q).
Proof.
  unfold well_formed, is_square, filled_consistent. intros H. cbv zeta in *.
  set (n := Z.of_nat (length board)) in *.
  apply andb_true_iff in H as [H Hcons].
  apply andb_true_iff in H as [H Hvals].
  apply andb_true_iff in H as [Hsq Hrows].
  apply andb_true_iff in Hsq as [Hpos%Z.ltb_lt Hsq%Z.eqb_eq].
  rewrite forallb_elem_of in Hcons. rewrite forallb_elem_of in Hvals.
  rewrite forallb_elem_of in Hrows.
  split; [|split; [lia|split; [|split]]].
  - destruct (decide (Z.sqrt n = 0)); [lia|]. pose proof (Z.sqrt_nonneg n). lia.
  - apply covers_grid_spec. intros [r c] [Hr Hc]%elem_of_cells. simpl in *.
    unfold board_at. simpl.
    destruct (lookup_lt_is_Some_2 board (Z.to_nat r)) as [row Hrow]; [lia|].
    rewrite Hrow.
    assert (length row = length board) as Hlen.
    { specialize (Hrows row (list_elem_of_lookup_2 _ _ _ Hrow)).
      by apply bool_decide_eq_true in Hrows. }
    destruct (lookup_lt_is_Some_2 row (Z.to_nat c)) as [v Hv]; [lia|].
    rewrite Hv. eauto.
  - intros rc Hrc. specialize (Hvals rc Hrc).
    apply andb_true_iff in Hvals as [?%Z.leb_le ?%Z.leb_le]. lia.
  - intros p q Hp Hq Hne Hfilled Hsu.
    specialize (Hcons p Hp). rewrite forallb_elem_of in Hcons.
    specialize (Hcons q Hq). rewrite !orb_true_iff in Hcons.
    destruct Hcons as [[[Hpq|Hpq]|Hpq]|Hpq].
    + by apply bool_decide_eq_true in Hpq.
    + by apply Z.eqb_eq in Hpq.
    + rewrite Hsu in Hpq. done.
    + apply negb_true_iff, Z.eqb_neq in Hpq. done.
Qed.

Section completion.
Context (board : list (list Z)) (self : SudokuCSP).
Let n := Z.of_nat (length board).
Hypothesis Hwf : well_formed board = true.
Hypothesis Hef : engine_for n board self.

Lemma elem_of_variables k :
  k ∈ variables self ↔ k ∈ cells n ∧ cell_val board k = 0.
Proof.
  rewrite (ef_variables _ _ _ Hef), list_elem_of_filter. tauto.
Qed.

Lemma merged_empty (s : gmap cell Z) k x :
  k ∈ variables self → s !! k = Some x → merged board s k = x.
Proof.
  intros [_ Hk]%elem_of_variables Hs. unfold merged. rewrite Hk. simpl.
  by rewrite Hs.
Qed.

Lemma merged_filled (s : gmap cell Z) k :
  cell_val board k ≠ 0 → merged board s k = cell_val board k.
Proof. intros Hk. unfold merged. by destruct (Z.eqb_spec (cell_val board k) 0). Qed.

Lemma valid_total_latin (s : gmap cell Z) :
  valid_total self (allowed n (Z.sqrt n) board) s →
  latin n (Z.sqrt n) (merged board s).
Proof.
  destruct (well_formed_spec board Hwf) as (Hbs & Hsq & _ & Hvals & Hfilled).
  fold n in Hbs, Hsq, Hvals, Hfilled.
  intros [[Hkeys Hpair] Htot]. rewrite (ef_box_size _ _ _ Hef) in Hpair.
  assert (∀ k, k ∈ cells n → cell_val board k = 0 →
               ∃ x, s !! k = Some x ∧ merged board s k = x
                    ∧ allowed n (Z.sqrt n) board k x) as Hempty.
  { intros k Hk H0. destruct (Htot k) as [x Hx]; [by apply elem_of_variables|].
    exists x. split; [done|]. split; [|by eapply Hkeys].
    apply merged_empty; [by apply elem_of_variables|done]. }
  split.
  - intros k Hk. destruct (decide (cell_val board k = 0)) as [H0|H0].
    + destruct (Hempty k Hk H0) as (x & _ & -> & [? _]). done.
    + rewrite merged_filled by done. specialize (Hvals k Hk). lia.
  - intros k1 k2 Hk1 Hk2 Hne Hsu.
    destruct (decide (cell_val board k1 = 0)) as [H1|H1];
      destruct (decide (cell_val board k2 = 0)) as [H2|H2].
    + destruct (Hempty k1 Hk1 H1) as (x1 & Hs1 & -> & _).
      destruct (Hempty k2 Hk2 H2) as (x2 & Hs2 & -> & _).
      intros ->. specialize (Hpair k1 k2 x2 Hs1 Hs2 Hne). congruence.
    + destruct (Hempty k1 Hk1 H1) as (x1 & Hs1 & -> & [_ Hall]).
      rewrite merged_filled by done. intros ->.
      by apply (Hall k2 Hk2 H2 Hsu).
    + destruct (Hempty k2 Hk2 H2) as (x2 & Hs2 & -> & [_ Hall]).
      rewrite merged_filled by done. intros <-.
      apply (Hall k1 Hk1 H1); [|done]. by rewrite same_unit_sym.
    + rewrite !merged_filled by done. by apply Hfilled.
Qed.

Lemma latin_valid_total (s : gmap cell Z) :
  (∀ rc, is_Some (s !! rc) ↔ rc ∈ cells n ∧ cell_val board rc = 0) →
  latin n (Z.sqrt n) (merged board s) →
  valid_total self (allowed n (Z.sqrt n) board) s.
Proof.
  intros Hdom [Hrange Hdiff]. split; [split|].
  - intros k x Hs.
    assert (k ∈ variables self) as Hk by (apply elem_of_variables, Hdom; eauto).
    split; [done|].
    pose proof (merged_empty s k x Hk Hs) as Hm.
    apply elem_of_variables in Hk as [Hkc Hk0]. split.
    + rewrite <- Hm. by apply Hrange.
    + intros rc Hrc Hfilled Hsu. rewrite <- Hm.
      rewrite <- (merged_filled s rc Hfilled). apply not_eq_sym.
      apply Hdiff; [done..|congruence|done].
  - intros k1 k2 x H1 H2 Hne. rewrite (ef_box_size _ _ _ Hef).
    destruct (same_unit _ k1 k2) eqn:Hsu; [|done]. exfalso.
    assert (k1 ∈ variables self) as Hk1 by (apply elem_of_variables, Hdom; eauto).
    assert (k2 ∈ variables self) as Hk2 by (apply elem_of_variables, Hdom; eauto).
    apply (Hdiff k1 k2); [by apply elem_of_variables in Hk1 as [? _]
                         |by apply elem_of_variables in Hk2 as [? _]
                         |done|done|].
    by rewrite (merged_empty s k1 x), (merged_empty s k2 x).
  - intros k Hk. apply Hdom. by apply elem_of_variables.
Qed.

(** On a well-formed board, the valid total assignments of the engine are
    the completions of the board. *)
Lemma valid_total_completion (s : gmap cell Z) :
  valid_total self (allowed n (Z.sqrt n) board) s ↔ completion board s.
Proof.
  destruct (well_formed_spec board Hwf) as (Hbs & Hsq & _).
  fold n in Hbs, Hsq. unfold completion. fold n. split.
  - intros Hv. split.
    + intros rc. rewrite <- elem_of_variables. split.
      * intros [x Hx]. by eapply Hv.
      * apply Hv.
    + apply latin_solved; [done..|]. by apply valid_total_latin.
  - intros [Hdom Hsolved]. apply latin_valid_total; [done|].
    by apply solved_latin.
Qed.
End completion.


(** ** The solutions of a well-formed board *)

Lemma elem_of_solutions_of (s : gmap cell Z) (evs : list event) :
  s ∈ solutions_of evs ↔ Solution s ∈ evs.
Proof.
  unfold solutions_of. rewrite list_elem_of_omap. split.
  - intros (e & He & Hs). destruct e; try done. by injection Hs as ->.
  - intros He. by exists (Solution s).
Qed.

Lemma init_engine_for n board (self : SudokuCSP) :
  __init__ n (Some board) = Ok self → 0 ≤ n ∧ engine_for n board self.
Proof.
  intros Hi. destruct (init_inv _ _ _ Hi) as [Hn Hcov]. split; [done|].
  destruct (init_ok n (Some board) Hn Hcov) as (self' & Hi' & Hef).
  rewrite Hi in Hi'. by injection Hi' as <-.
Qed.

Lemma well_formed_init (board : list (list Z)) :
  well_formed board = true →
  ∃ self, __init__ (Z.of_nat (length board)) (Some board) = Ok self.
Proof.
  intros Hwf. destruct (well_formed_spec board Hwf) as (_ & _ & Hcov & _).
  destruct (init_ok (Z.of_nat (length board)) (Some board)) as (self & Hi & _);
    [lia|done|]. eauto.
Qed.

(** The drain of the engine of a well-formed board returns, and its
    solution events are the completions of the board, each once. *)
Lemma well_formed_solutions (board : list (list Z)) (self : SudokuCSP) :
  well_formed board = true →
  __init__ (Z.of_nat (length board)) (Some board) = Ok self →
  ending_of (backtrack_generator self None None) = Returned ∧
  NoDup (solutions_of (events (backtrack_generator self None None))) ∧
  ∀ s, s ∈ solutions_of (events (backtrack_generator self None None))
       ↔ completion board s.
Proof.
  intros Hwf Hi. set (n := Z.of_nat (length board)) in *.
  destruct (init_engine_for _ _ _ Hi) as [Hn Hef].
  destruct (well_formed_spec board Hwf) as (Hbs & Hsq & _). fold n in Hbs, Hsq.
  destruct (init_default_run _ _ _ Hi) as (d & Hd & Hok & Hrun & Hret).
  destruct (engine_for_default _ _ _ Hef) as (d' & Hd' & _ & Hlk).
  rewrite Hd in Hd'. injection Hd' as <-.
  destruct (engine_for_ok _ _ _ Hn Hef) as [Hnodup _].
  assert (0 < box_size self) as Hpos by by rewrite (ef_box_size _ _ _ Hef).
  assert (∀ k, k ∈ variables self → k ∈ cells (size self)) as Hgrid.
  { intros k Hk. rewrite (ef_size _ _ _ Hef).
    by apply (elem_of_variables board self Hef) in Hk as [? _]. }
  assert (valid_partial self (allowed n (Z.sqrt n) board) ∅) as Hva.
  { split; intros ?; intros; by rewrite lookup_empty in *. }
  assert (domains_within self (allowed n (Z.sqrt n) board) d) as Hdw.
  { intros k dk x Hk Hdk Hx. rewrite (Hlk k Hk) in Hdk.
    destruct (ef_domains _ _ _ Hef k Hk) as (dk' & Hdk' & _ & Hiff).
    rewrite Hdk in Hdk'. injection Hdk' as <-. by apply Hiff. }
  destruct (node_run_spec self (allowed n (Z.sqrt n) board) Hpos Hgrid Hnodup
              d ∅ (Stats 0 0 0) (backtrack_generator self None None)
              Hrun Hret Hok Hva Hdw) as (Hs1 & Hs2 & Hs3).
  split; [done|]. split; [done|]. intros s. split.
  - intros Hs. apply (valid_total_completion board self Hwf Hef). by apply Hs1.
  - intros Hc. apply (valid_total_completion board self Hwf Hef) in Hc.
    apply Hs3; [done|apply map_empty_subseteq|].
    intros k Hk. destruct (ef_domains _ _ _ Hef k Hk) as (dk & Hdk & _ & Hiff).
    destruct (proj2 Hc k Hk) as [x Hx].
    exists dk, x. rewrite (Hlk k Hk). split; [done|]. split; [done|].
    apply Hiff. by eapply (proj1 Hc).
Qed.

(** C3: on a well-formed board every solution event, merged with the
    filled cells of the board, is a grid in which every row, every column
    and every box is a permutation of [1..N]; the assignment of the event
    has a value for the empty cells of the board and for nothing else.
    (The board need not have a completion: then there is no such event.) *)
Theorem solution_events_solve_the_grid (board : list (list Z))
    (self : SudokuCSP) (s : gmap cell Z) :
  well_formed board = true →
  __init__ (Z.of_nat (length board)) (Some board) = Ok self →
  Solution s ∈ events (backtrack_generator self None None) →
  grid_solved (size self) (box_size self) (merged board s) ∧
  ∀ rc, is_Some (s !! rc)
        ↔ rc ∈ cells (size self) ∧ cell_val board rc = 0.
Proof.
  intros Hwf Hi Hs. destruct (init_engine_for _ _ _ Hi) as [_ Hef].
  destruct (well_formed_solutions board self Hwf Hi) as (_ & _ & Hiff).
  apply elem_of_solutions_of, Hiff in Hs as [Hdom Hsolved].
  rewrite (ef_size _ _ _ Hef), (ef_box_size _ _ _ Hef). done.
Qed.

Lemma solution_events_solve_the_grid_witness :
  well_formed almost_full_board = true ∧
  grid_solved 4 2 (merged almost_full_board {[ (3, 3) := 1 ]}).
Proof.
  assert (well_formed almost_full_board = true) as Hwf by (vm_compute; reflexivity).
  split; [exact Hwf|].
  destruct (__init__ 4 (Some almost_full_board)) as [self|x] eqn:Hi;
    [|vm_compute in Hi; discriminate].
  assert (size self = 4 ∧ box_size self = 2) as [Hsize Hbs].
  { vm_compute in Hi. injection Hi as <-. done. }
  rewrite <- Hsize, <- Hbs.
  apply (solution_events_solve_the_grid almost_full_board self
           {[ (3, 3) := 1 ]} Hwf Hi).
  apply list_elem_of_lookup. exists 4%nat.
  vm_compute in Hi. injection Hi as <-. vm_compute. reflexivity.
Defined.


(** ** Puzzle validation *)

(** The verdict on a run that returns: exactly one solution event. *)
Lemma count_loop_verdict (evs : list event) (c : Z) (p : nat) :
  0 ≤ c ≤ 1 →
  (count_loop evs Returned c p).1
  = Some (Ok (c + Z.of_nat (length (solutions_of evs)) =? 1)).
Proof.
  revert c p. induction evs as [|e evs IH]; intros c p Hc.
  - simpl. by rewrite Z.add_0_r.
  - destruct e; cbn [count_loop solutions_of omap]; try (by apply IH).
    fold (solutions_of evs). destruct (Z.ltb_spec 1 (c + 1)) as [Hlt|Hge].
    + simpl. do 2 f_equal. symmetry. apply Z.eqb_neq. lia.
    + rewrite IH by lia. do 3 f_equal. simpl length. lia.
Qed.

(** The loop stops at the second solution event, whatever follows it. *)
Lemma count_loop_second (pre rest : list event) (s2 : gmap cell Z)
    (fin : ending) (c : Z) (p : nat) :
  0 ≤ c → c + Z.of_nat (length (solutions_of pre)) = 1 →
  count_loop (pre ++ Solution s2 :: rest) fin c p
  = (Some (Ok false), S (p + length pre)).
Proof.
  revert c p. induction pre as [|e pre IH]; intros c p Hc Hone.
  - simpl in *. destruct (Z.ltb_spec 1 (c + 1)); [|lia]. do 2 f_equal. lia.
  - destruct e; cbn [app count_loop solutions_of omap length] in *;
      try (rewrite IH by done; do 2 f_equal; lia).
    fold (solutions_of pre) in Hone. simpl length in Hone.
    destruct (Z.ltb_spec 1 (c + 1)); [lia|].
    rewrite IH by lia. do 2 f_equal. lia.
Qed.

(** With at most one solution event the loop takes every event. *)
Lemma count_loop_drains (evs : list event) (fin : ending) (c : Z) (p : nat) :
  0 ≤ c → c + Z.of_nat (length (solutions_of evs)) ≤ 1 →
  (count_loop evs fin c p).2 = (p + length evs)%nat.
Proof.
  revert c p. induction evs as [|e evs IH]; intros c p Hc Hone.
  - simpl. lia.
  - destruct e; cbn [count_loop solutions_of omap length] in *;
      try (rewrite IH by done; lia).
    fold (solutions_of evs) in Hone. simpl length in Hone.
    destruct (Z.ltb_spec 1 (c + 1)); [lia|]. rewrite IH by lia. lia.
Qed.

Lemma one_solution_unique (sols : list (gmap cell Z))
    (P : gmap cell Z → Prop) :
  NoDup sols → (∀ s, s ∈ sols ↔ P s) →
  length sols = 1%nat ↔ ∃ s, P s ∧ ∀ s', P s' → s' = s.
Proof.
  intros Hnd Hiff. split.
  - destruct sols as [|s [|? ?]]; try done. intros _. exists s. split.
    + apply Hiff. by left.
    + intros s' Hs'%Hiff. by apply list_elem_of_singleton in Hs'.
  - intros (s & Hs & Huniq). destruct sols as [|a [|b l]].
    + apply Hiff in Hs. by apply elem_of_nil in Hs.
    + done.
    + exfalso. assert (a = s) as -> by (apply Huniq, Hiff; by left).
      assert (b = s) as -> by (apply Huniq, Hiff; right; by left).
      apply NoDup_cons in Hnd as [Hn _]. apply Hn. by left.
Qed.

(** C7: on a well-formed board [is_valid_puzzle] answers, and answers true
    exactly when the board has one completion and no other; when a second
    solution event comes, it answers false having taken the events up to
    that one and none of those that follow. *)
Theorem is_valid_puzzle_unique_completion (board : list (list Z)) :
  well_formed board = true →
  ∃ self verdict pulled,
    __init__ (Z.of_nat (length board)) (Some board) = Ok self ∧
    is_valid_puzzle board = (Some (Ok verdict), pulled) ∧
    (verdict = true
     ↔ ∃ s, completion board s ∧ ∀ s', completion board s' → s' = s) ∧
    (∀ pre s2 rest,
       events (backtrack_generator self None None) = pre ++ Solution s2 :: rest →
       length (solutions_of pre) = 1%nat →
       verdict = false ∧ pulled = S (length pre)).
Proof.
  intros Hwf. destruct (well_formed_init board Hwf) as [self Hi].
  destruct (well_formed_solutions board self Hwf Hi) as (Hret & Hnd & Hiff).
  set (r := backtrack_generator self None None) in *.
  pose proof (count_loop_verdict (events r) 0 0 ltac:(lia)) as Hv.
  exists self, (0 + Z.of_nat (length (solutions_of (events r))) =? 1),
    (count_loop (events r) Returned 0 0).2.
  split; [done|]. split; [|split].
  - unfold is_valid_puzzle. rewrite Hi. fold r. rewrite Hret.
    destruct (count_loop (events r) Returned 0 0) as [v p] eqn:Hcl.
    simpl in Hv. by rewrite Hv.
  - rewrite Z.eqb_eq. rewrite <- (one_solution_unique _ _ Hnd Hiff). lia.
  - intros pre s2 rest Hev Hone. fold r in Hev. rewrite Hev.
    rewrite count_loop_second by lia. split; [|done].
    apply Z.eqb_neq. rewrite solutions_of_app. simpl.
    rewrite length_app. simpl. lia.
Qed.

Lemma is_valid_puzzle_unique_completion_witness :
  well_formed almost_full_board = true ∧
  ∃ verdict pulled,
    is_valid_puzzle almost_full_board = (Some (Ok verdict), pulled) ∧
    (verdict = true
     ↔ ∃ s, completion almost_full_board s
            ∧ ∀ s', completion almost_full_board s' → s' = s).
Proof.
  assert (well_formed almost_full_board = true) as Hwf by (vm_compute; reflexivity).
  split; [exact Hwf|].
  destruct (is_valid_puzzle_unique_completion almost_full_board Hwf)
    as (self & verdict & pulled & _ & Hv & Hiff & _).
  exists verdict, pulled. split; [exact Hv|exact Hiff].
Defined.


(** * The heap *)

(** ** Reading, allocating, updating *)

Lemma M_bind_unfold {A B} (m : M A) (f : A → M B) (σ : store) :
  (m ≫= f) σ =
  match m σ with
  | (Ok a, σ') => f a σ'
  | (Raise x, σ') => (Raise x, σ')
  end.
Proof. reflexivity. Qed.

Lemma M_ret_unfold {A} (a : A) (σ : store) :
  (mret a : M A) σ = (Ok a, σ).
Proof. reflexivity. Qed.

(** Replace a call by its known outcome and continue with the rest. *)
Ltac by_outcome H := rewrite H; cbv beta iota.

Lemma alloc_spec (o : obj) (σ : store) :
  ∃ l, alloc o σ = (Ok l, <[l := o]> σ) ∧ σ !! l = None.
Proof.
  exists (fresh (dom σ)). split; [done|].
  apply not_elem_of_dom, is_fresh.
Qed.

Lemma read_list_Some (σ : store) (l : loc) (xs : list Z) :
  read_list σ l = Some xs ↔ σ !! l = Some (OList xs).
Proof.
  unfold read_list. destruct (σ !! l) as [[]|]; naive_solver.
Qed.

Lemma read_list_weaken (σ σ' : store) (l : loc) (xs : list Z) :
  σ ⊆ σ' → read_list σ l = Some xs → read_list σ' l = Some xs.
Proof.
  rewrite !read_list_Some. intros Hsub Hl. by eapply lookup_weaken.
Qed.

Lemma read_list_insert (σ : store) (l : loc) (xs : list Z) :
  read_list (<[l := OList xs]> σ) l = Some xs.
Proof. apply read_list_Some, lookup_insert_eq. Qed.

Lemma read_list_insert_ne (σ : store) (l l' : loc) (o : obj) :
  l ≠ l' → read_list (<[l := o]> σ) l' = read_list σ l'.
Proof. intros Hne. unfold read_list. by rewrite lookup_insert_ne. Qed.

Lemma get_list_read (σ : store) (l : loc) (xs : list Z) :
  read_list σ l = Some xs → get_list l σ = (Ok xs, σ).
Proof. rewrite read_list_Some. unfold get_list. by intros ->. Qed.

Lemma get_list_inv (σ σ' : store) (l : loc) (r : res (list Z)) :
  get_list l σ = (r, σ') →
  σ' = σ ∧ (r = Raise TypeError ∨ ∃ xs, r = Ok xs ∧ read_list σ l = Some xs).
Proof.
  unfold get_list. intros H.
  destruct (σ !! l) as [[xs| | |]|] eqn:Hl; simplify_eq; split; auto.
  right. exists xs. split; [done|]. by apply read_list_Some.
Qed.

Lemma mapM_M_nil {A B} (f : A → M B) (σ : store) :
  mapM f [] σ = (Ok [], σ).
Proof. reflexivity. Qed.

Lemma mapM_M_cons {A B} (f : A → M B) (x : A) (l : list A) (σ : store) :
  mapM f (x :: l) σ =
  match f x σ with
  | (Ok y, σ1) =>
      match mapM f l σ1 with
      | (Ok k, σ2) => (Ok (y :: k), σ2)
      | (Raise e, σ2) => (Raise e, σ2)
      end
  | (Raise e, σ1) => (Raise e, σ1)
  end.
Proof. reflexivity. Qed.

Lemma mapM_get_list (σ : store) (rows : list loc) (content : list (list Z)) :
  mapM (read_list σ) rows = Some content →
  mapM get_list rows σ = (Ok content, σ).
Proof.
  rewrite mapM_Some. induction 1 as [|l xs rows c Hl _ IH]; [done|].
  rewrite mapM_M_cons. by_outcome (get_list_read _ _ _ Hl). by rewrite IH.
Qed.

Lemma read_board_weaken (σ σ' : store) (b : loc) (content : list (list Z)) :
  σ ⊆ σ' → read_board σ b = Some content → read_board σ' b = Some content.
Proof.
  intros Hsub. unfold read_board.
  destruct (σ !! b) as [[|rows| |]|] eqn:Hb; try done.
  rewrite (lookup_weaken _ _ _ _ Hb Hsub). rewrite !mapM_Some.
  intros H. eapply Forall2_impl; [exact H|].
  intros l xs. by apply read_list_weaken.
Qed.

(** The content of a grid depends on the grid object and on its rows
    only. *)
Lemma read_board_local (σ σ' : store) (b : loc) (rows : list loc) :
  σ !! b = Some (OGrid rows) →
  σ' !! b = σ !! b →
  (∀ l, l ∈ rows → σ' !! l = σ !! l) →
  read_board σ' b = read_board σ b.
Proof.
  intros Hb Hb' Hrows. unfold read_board. rewrite Hb', Hb.
  clear Hb Hb'. induction rows as [|l rows IH]; [done|].
  assert (read_list σ' l = read_list σ l) as Hl
    by (unfold read_list; rewrite (Hrows l) by left; done).
  cbn. rewrite Hl, IH; [done|]. intros l' Hl'. apply Hrows. by right.
Qed.

(** ** The row-by-row copy *)

Lemma mapM_copy_row (rs : list loc) (content : list (list Z)) (σ : store) :
  Forall2 (λ l xs, read_list σ l = Some xs) rs content →
  ∃ rows σ',
    mapM copy_row rs σ = (Ok rows, σ') ∧ σ ⊆ σ' ∧
    Forall2 (λ l xs, read_list σ' l = Some xs) rows content ∧
    ∀ l, l ∈ rows → σ !! l = None.
Proof.
  revert content σ. induction rs as [|r rs IH]; intros content σ H.
  - apply Forall2_nil_inv_l in H as ->.
    exists [], σ. split_and!; [done..|]. by intros l ?%elem_of_nil.
  - apply Forall2_cons_inv_l in H as (xs & c & Hr & Hc & ->).
    destruct (alloc_spec (OList xs) σ) as (l & Hal & Hfresh).
    assert (Hsub : σ ⊆ <[l := OList xs]> σ) by by apply insert_subseteq.
    destruct (IH c (<[l := OList xs]> σ)) as (rows & σ' & Hrows & Hsub' & Hread & Hnew).
    { eapply Forall2_impl; [exact Hc|]. intros ???. by eapply read_list_weaken. }
    exists (l :: rows), σ'. split_and!.
    + rewrite mapM_M_cons. unfold copy_row at 1. rewrite M_bind_unfold.
      by_outcome (get_list_read _ _ _ Hr). by_outcome Hal. by rewrite Hrows.
    + by etrans.
    + constructor; [|done].
      apply (read_list_weaken _ _ _ _ Hsub' (read_list_insert σ l xs)).
    + intros l' [->|Hl']%elem_of_cons; [done|].
      apply Hnew in Hl'. by eapply lookup_weaken_None.
Qed.

Lemma mapM_zero_row (n : Z) (ks : list Z) (σ : store) :
  ∃ rows σ',
    mapM (zero_row n) ks σ = (Ok rows, σ') ∧ σ ⊆ σ' ∧
    Forall2 (λ l xs, read_list σ' l = Some xs) rows
            ((λ _, (λ _, 0) <$> range n) <$> ks) ∧
    ∀ l, l ∈ rows → σ !! l = None.
Proof.
  revert σ. induction ks as [|k ks IH]; intros σ.
  - exists [], σ. split_and!; [done..|]. by intros l ?%elem_of_nil.
  - destruct (alloc_spec (OList ((λ _, 0) <$> range n)) σ) as (l & Hal & Hfresh).
    assert (Hsub : σ ⊆ <[l := OList ((λ _, 0) <$> range n)]> σ)
      by by apply insert_subseteq.
    destruct (IH (<[l := OList ((λ _, 0) <$> range n)]> σ))
      as (rows & σ' & Hrows & Hsub' & Hread & Hnew).
    exists (l :: rows), σ'. split_and!.
    + rewrite mapM_M_cons. unfold zero_row at 1. by_outcome Hal. by rewrite Hrows.
    + by etrans.
    + cbn. constructor; [|done].
      apply (read_list_weaken _ _ _ _ Hsub' (read_list_insert σ l _)).
    + intros l' [->|Hl']%elem_of_cons; [done|].
      apply Hnew in Hl'. by eapply lookup_weaken_None.
Qed.


(** * Forward checking on the heap *)

(** ** A dict of new lists, one per key *)

Section entries.
Context (f : cell * loc → M (cell * loc)).
Context (want : store → cell * loc → option (list Z)).
Hypothesis f_allocates : ∀ kl σ xs,
  want σ kl = Some xs →
  ∃ l, f kl σ = (Ok (kl.1, l), <[l := OList xs]> σ) ∧ σ !! l = None.
Hypothesis want_mono : ∀ kl σ σ' xs,
  σ ⊆ σ' → want σ kl = Some xs → want σ' kl = Some xs.

Lemma mapM_entries (kls : list (cell * loc)) (σ : store) :
  Forall (λ kl, is_Some (want σ kl)) kls →
  ∃ out σ',
    mapM f kls σ = (Ok out, σ') ∧ σ ⊆ σ' ∧
    (∀ k, (list_to_map out : gmap cell loc) !! k ≫= read_list σ'
          = (list_to_map kls : gmap cell loc) !! k ≫= λ l, want σ (k, l)) ∧
    (∀ k l, (list_to_map out : gmap cell loc) !! k = Some l →
            σ !! l = None ∧ is_Some (read_list σ' l)) ∧
    (∀ k1 k2 l, (list_to_map out : gmap cell loc) !! k1 = Some l →
                (list_to_map out : gmap cell loc) !! k2 = Some l → k1 = k2).
Proof.
  revert σ. induction kls as [|[k0 l0] kls IH]; intros σ Hall.
  - exists [], σ. rewrite mapM_M_nil. by split_and!.
  - apply Forall_cons in Hall as [[xs Hxs] Hall].
    destruct (f_allocates _ _ _ Hxs) as (l1 & Hf & Hfresh). cbn [fst] in Hf.
    set (σa := <[l1 := OList xs]> σ) in *.
    assert (Hsub : σ ⊆ σa) by by apply insert_subseteq.
    destruct (IH σa) as (out & σ' & Hm & Hsub' & Hread & Hnew & Hinj).
    { eapply Forall_impl; [exact Hall|]. intros kl [ys Hys].
      exists ys. by eapply want_mono. }
    assert (Hl1 : read_list σ' l1 = Some xs).
    { eapply read_list_weaken; [exact Hsub'|]. apply read_list_insert. }
    exists ((k0, l1) :: out), σ'. split_and!.
    + rewrite mapM_M_cons. by_outcome Hf. by rewrite Hm.
    + by etrans.
    + intros k. cbn [list_to_map foldr curry fst snd].
      destruct (decide (k = k0)) as [->|Hne].
      * rewrite !lookup_insert_eq. cbn. by rewrite Hl1, Hxs.
      * rewrite !lookup_insert_ne by done. rewrite Hread.
        destruct (list_to_map kls !! k) as [l|] eqn:Hk; [|done]. cbn.
        apply elem_of_list_to_map_2 in Hk.
        rewrite Forall_forall in Hall. destruct (Hall _ Hk) as [ys Hys].
        rewrite Hys. by eapply want_mono.
    + intros k l. cbn [list_to_map foldr curry fst snd].
      destruct (decide (k = k0)) as [->|Hne].
      * rewrite lookup_insert_eq. intros [= <-]. split; [done|]. by rewrite Hl1.
      * rewrite lookup_insert_ne by done. intros Hk.
        destruct (Hnew _ _ Hk) as [Hn Hs]. split; [|done].
        by eapply lookup_weaken_None.
    + intros k1 k2 l. cbn [list_to_map foldr curry fst snd].
      destruct (decide (k1 = k0)) as [->|Hne1], (decide (k2 = k0)) as [->|Hne2].
      * done.
      * rewrite lookup_insert_eq, lookup_insert_ne by done. intros [= <-] Hk.
        destruct (Hnew _ _ Hk) as [Hn _]. unfold σa in Hn.
        by rewrite lookup_insert_eq in Hn.
      * rewrite lookup_insert_eq, lookup_insert_ne by done. intros Hk [= <-].
        destruct (Hnew _ _ Hk) as [Hn _]. unfold σa in Hn.
        by rewrite lookup_insert_eq in Hn.
      * rewrite !lookup_insert_ne by done. apply Hinj.
Qed.
End entries.

Lemma copy_entry_allocates (kl : cell * loc) (σ : store) (xs : list Z) :
  read_list σ kl.2 = Some xs →
  ∃ l, copy_entry kl σ = (Ok (kl.1, l), <[l := OList xs]> σ) ∧ σ !! l = None.
Proof.
  intros Hxs. destruct (alloc_spec (OList xs) σ) as (l & Hal & Hfresh).
  exists l. split; [|done]. unfold copy_entry. rewrite M_bind_unfold.
  by_outcome (get_list_read _ _ _ Hxs). rewrite M_bind_unfold. by rewrite Hal.
Qed.

Lemma empty_entry_allocates (kl : cell * loc) (σ : store) (xs : list Z) :
  Some [] = Some xs →
  ∃ l, empty_entry kl σ = (Ok (kl.1, l), <[l := OList xs]> σ) ∧ σ !! l = None.
Proof.
  intros [= <-]. destruct (alloc_spec (OList []) σ) as (l & Hal & Hfresh).
  exists l. split; [|done]. unfold empty_entry. rewrite M_bind_unfold.
  by rewrite Hal.
Qed.

(** ** Dicts that own their lists *)

Lemma owns_weaken (σ0 σ σ' : store) (m : gmap cell loc) (D : gmap cell (list Z)) :
  σ ⊆ σ' → owns σ0 σ m D → owns σ0 σ' m D.
Proof.
  intros Hsub (Hread & Hnew & Hinj). split_and!; [| |done].
  - intros k. rewrite <- Hread. destruct (m !! k) as [l|] eqn:Hk; [|done]. cbn.
    destruct (Hnew _ _ Hk) as [_ [xs Hxs]]. rewrite Hxs.
    by eapply read_list_weaken.
  - intros k l Hk. destruct (Hnew _ _ Hk) as [Hn [xs Hxs]]. split; [done|].
    exists xs. by eapply read_list_weaken.
Qed.

(** An update of an object that is none of the lists of [m]. *)
Lemma owns_put_other (σ0 σ : store) (m : gmap cell loc) (D : gmap cell (list Z))
    (l : loc) (o : obj) :
  (∀ k, m !! k ≠ Some l) → owns σ0 σ m D → owns σ0 (<[l := o]> σ) m D.
Proof.
  intros Hl (Hread & Hnew & Hinj). split_and!; [| |done].
  - intros k. rewrite <- Hread. destruct (m !! k) as [l'|] eqn:Hk; [|done]. cbn.
    apply read_list_insert_ne. intros ->. by apply (Hl k).
  - intros k l' Hk. destruct (Hnew _ _ Hk) as [Hn Hs]. split; [done|].
    rewrite read_list_insert_ne; [done|]. intros ->. by apply (Hl k).
Qed.

(** An in-place update of the list under the key [rc]. *)
Lemma owns_put_own (σ0 σ : store) (m : gmap cell loc) (D : gmap cell (list Z))
    (rc : cell) (l : loc) (xs : list Z) :
  m !! rc = Some l → owns σ0 σ m D →
  owns σ0 (<[l := OList xs]> σ) m (<[rc := xs]> D).
Proof.
  intros Hrc (Hread & Hnew & Hinj). split_and!; [| |done].
  - intros k. destruct (decide (k = rc)) as [->|Hne].
    + rewrite Hrc, lookup_insert_eq. cbn. apply read_list_insert.
    + rewrite lookup_insert_ne by done. rewrite <- Hread.
      destruct (m !! k) as [l'|] eqn:Hk; [|done]. cbn.
      apply read_list_insert_ne. intros ->. apply Hne. by eapply Hinj.
  - intros k l' Hk. destruct (Hnew _ _ Hk) as [Hn Hs]. split; [done|].
    destruct (decide (l = l')) as [->|Hne].
    + rewrite read_list_insert. by eexists.
    + by rewrite read_list_insert_ne.
Qed.

(** A new key with a new list. *)
Lemma owns_insert (σ0 σ : store) (m : gmap cell loc) (D : gmap cell (list Z))
    (k0 : cell) (l0 : loc) (xs : list Z) :
  σ0 !! l0 = None → read_list σ l0 = Some xs → (∀ k, m !! k ≠ Some l0) →
  owns σ0 σ m D → owns σ0 σ (<[k0 := l0]> m) (<[k0 := xs]> D).
Proof.
  intros Hn0 Hxs Hl0 (Hread & Hnew & Hinj). split_and!.
  - intros k. destruct (decide (k = k0)) as [->|Hne].
    + by rewrite !lookup_insert_eq.
    + by rewrite !lookup_insert_ne.
  - intros k l. destruct (decide (k = k0)) as [->|Hne].
    + rewrite lookup_insert_eq. intros [= <-]. split; [done|]. by rewrite Hxs.
    + rewrite lookup_insert_ne by done. apply Hnew.
  - intros k1 k2 l.
    destruct (decide (k1 = k0)) as [->|Hne1], (decide (k2 = k0)) as [->|Hne2].
    + done.
    + rewrite lookup_insert_eq, lookup_insert_ne by done. intros [= <-] Hk.
      by destruct (Hl0 k2).
    + rewrite lookup_insert_eq, lookup_insert_ne by done. intros Hk [= <-].
      by destruct (Hl0 k1).
    + rewrite !lookup_insert_ne by done. apply Hinj.
Qed.

Lemma owns_read_dict (σ0 σ : store) (x : loc) (m : gmap cell loc)
    (D : gmap cell (list Z)) :
  σ !! x = Some (ODict m) → owns σ0 σ m D → read_dict σ x = Some D.
Proof.
  intros Hx (Hread & Hnew & _). unfold read_dict. rewrite Hx.
  rewrite bool_decide_eq_true_2.
  - f_equal. apply map_eq. intros k. by rewrite lookup_omap.
  - intros k l Hk. by destruct (Hnew _ _ Hk).
Qed.

Lemma read_dict_Some (σ : store) (x : loc) (D : gmap cell (list Z)) :
  read_dict σ x = Some D →
  ∃ m, σ !! x = Some (ODict m) ∧
       (∀ k l, m !! k = Some l → is_Some (read_list σ l)) ∧
       ∀ k, D !! k = m !! k ≫= read_list σ.
Proof.
  unfold read_dict. destruct (σ !! x) as [[| |m|]|]; try done.
  case_bool_decide as Hall; [|done]. intros [= <-].
  exists m. split_and!; [done|exact Hall|]. intros k. by rewrite lookup_omap.
Qed.

Lemma read_dict_weaken (σ σ' : store) (x : loc) (D : gmap cell (list Z)) :
  σ ⊆ σ' → read_dict σ x = Some D → read_dict σ' x = Some D.
Proof.
  intros Hsub (m & Hx & Hall & HD)%read_dict_Some.
  unfold read_dict. rewrite (lookup_weaken _ _ _ _ Hx Hsub).
  rewrite bool_decide_eq_true_2.
  - f_equal. apply map_eq. intros k. rewrite lookup_omap, HD.
    destruct (m !! k) as [l|] eqn:Hk; [|done]. cbn.
    destruct (Hall _ _ Hk) as [xs Hxs]. rewrite Hxs.
    by eapply read_list_weaken.
  - intros k l Hk. destruct (Hall _ _ Hk) as [xs Hxs].
    exists xs. by eapply read_list_weaken.
Qed.

(** ** The state of the loop *)

Lemma fc_inv_sym (σ0 σ : store) (nd rm : loc) (D R : gmap cell (list Z)) :
  fc_inv σ0 σ nd rm D R → fc_inv σ0 σ rm nd R D.
Proof.
  intros (Hsub & ndm & rmm & Hnd & Hrm & Hownd & Hownr & Hsep).
  split; [done|]. exists rmm, ndm. split_and!; [done..|].
  intros k1 k2 l H1 H2. by eapply Hsep.
Qed.

Lemma fc_inv_read (σ0 σ : store) (nd rm : loc) (D R : gmap cell (list Z)) :
  fc_inv σ0 σ nd rm D R →
  σ0 ⊆ σ ∧ read_dict σ nd = Some D ∧ read_dict σ rm = Some R.
Proof.
  intros (Hsub & ndm & rmm & Hnd & Hrm & Hownd & Hownr & Hsep).
  split_and!; [done|by eapply owns_read_dict..].
Qed.

(** Looking a key up in the first dict, and what an in-place update of
    the list found there keeps. *)
Lemma fc_inv_dict_at (σ0 σ : store) (nd rm : loc) (D R : gmap cell (list Z))
    (rc : cell) :
  fc_inv σ0 σ nd rm D R →
  match D !! rc with
  | None => dict_at nd rc σ = (Raise KeyError, σ)
  | Some d =>
      ∃ dl, dict_at nd rc σ = (Ok dl, σ) ∧ get_list dl σ = (Ok d, σ) ∧
            ∀ d', fc_inv σ0 (<[dl := OList d']> σ) nd rm (<[rc := d']> D) R
  end.
Proof.
  intros (Hsub & ndm & rmm & Hnd & Hrm & Hownd & Hownr & Hsep).
  pose proof Hownd as (Hread & Hnew & Hinj).
  assert (Hget : get_dict nd σ = (Ok ndm, σ)) by (unfold get_dict; by rewrite Hnd).
  rewrite <- Hread. unfold dict_at. rewrite M_bind_unfold. by_outcome Hget.
  destruct (ndm !! rc) as [dl|] eqn:Hrc; [|done]. cbn.
  destruct (Hnew _ _ Hrc) as [Hn0 [d Hd]]. rewrite Hd.
  exists dl. split_and!; [done|by apply get_list_read|].
  intros d'. apply read_list_Some in Hd. split.
  { by apply insert_subseteq_r. }
  exists ndm, rmm. split_and!.
  - rewrite lookup_insert_ne; [done|]. intros ->. by rewrite Hnd in Hd.
  - rewrite lookup_insert_ne; [done|]. intros ->. by rewrite Hrm in Hd.
  - by apply owns_put_own.
  - apply owns_put_other; [|done]. intros k Hk. by eapply Hsep.
  - done.
Qed.

Lemma put_spec (l : loc) (o : obj) (σ : store) :
  put l o σ = (Ok (), <[l := o]> σ).
Proof. reflexivity. Qed.

(** The loop on the heap goes the way of [fc_loop] on the content of the
    two dicts. *)
Lemma fc_loop_st_spec (bs : Z) (var : cell) (value : Z) (vars : list cell)
    (σ0 : store) (nd rm : loc) :
  ∀ (σ : store) (D R : gmap cell (list Z)),
    fc_inv σ0 σ nd rm D R →
    ∃ σ',
      match fc_loop bs var value vars D R with
      | Ok (Some D', R') =>
          fc_loop_st bs var value vars nd rm σ = (Ok (Some nd, rm), σ') ∧
          fc_inv σ0 σ' nd rm D' R'
      | Ok (None, R') =>
          fc_loop_st bs var value vars nd rm σ = (Ok (None, rm), σ') ∧
          ∃ D', fc_inv σ0 σ' nd rm D' R'
      | Raise x =>
          fc_loop_st bs var value vars nd rm σ = (Raise x, σ') ∧ σ0 ⊆ σ'
      end.
Proof.
  induction vars as [|rc vars IH]; intros σ D R Hinv.
  - exists σ. by split.
  - cbn [fc_loop fc_loop_st]. case_bool_decide; [by apply IH|].
    destruct (same_unit bs rc var); [|by apply IH].
    pose proof (fc_inv_dict_at _ _ _ _ _ _ rc Hinv) as Hnd.
    destruct (D !! rc) as [d|].
    2: { exists σ. rewrite M_bind_unfold. by_outcome Hnd. split; [done|].
         by destruct Hinv. }
    destruct Hnd as (dl & Hat & Hget & Hput).
    rewrite M_bind_unfold. by_outcome Hat. rewrite M_bind_unfold. by_outcome Hget.
    destruct (py_in value d) eqn:Hin.
    + specialize (Hput (py_remove value d)).
      set (σ1 := <[dl := OList (py_remove value d)]> σ) in *.
      pose proof (fc_inv_dict_at _ _ _ _ _ _ rc (fc_inv_sym _ _ _ _ _ _ Hput)) as Hrm.
      rewrite !M_bind_unfold. by_outcome (put_spec dl (OList (py_remove value d)) σ).
      fold σ1. rewrite M_bind_unfold. destruct (R !! rc) as [r|].
      2: { exists σ1. by_outcome Hrm. split; [done|]. by destruct Hput. }
      destruct Hrm as (rl & Hat' & Hget' & Hput').
      specialize (Hput' (r ++ [value])). apply fc_inv_sym in Hput'.
      by_outcome Hat'. rewrite M_bind_unfold. by_outcome Hget'.
      by_outcome (put_spec rl (OList (r ++ [value])) σ1).
      set (σ2 := <[rl := OList (r ++ [value])]> σ1) in *.
      pose proof (fc_inv_dict_at _ _ _ _ _ _ rc Hput') as Hnd'.
      rewrite lookup_insert_eq in Hnd'. destruct Hnd' as (dl' & Hat2 & Hget2 & _).
      rewrite M_bind_unfold. by_outcome Hat2. rewrite M_bind_unfold. by_outcome Hget2.
      destruct (py_remove value d) as [|y d'] eqn:Hd'.
      * exists σ2. split; [done|]. by eexists.
      * by apply IH.
    + rewrite M_bind_unfold. by_outcome (M_ret_unfold () σ).
      rewrite M_bind_unfold. by_outcome Hat. rewrite M_bind_unfold. by_outcome Hget.
      destruct d as [|y d'].
      * exists σ. split; [done|]. by eexists.
      * by apply IH.
Qed.

Lemma read_list_None (σ : store) (l : loc) :
  σ !! l = None → read_list σ l = None.
Proof. unfold read_list. by intros ->. Qed.

Lemma read_list_is_Some (σ : store) (l : loc) :
  is_Some (read_list σ l) → is_Some (σ !! l).
Proof. intros [xs Hxs%read_list_Some]. by eexists. Qed.

(** The state in which [forward_check] enters its loop: two new dicts of
    new lists, the first with the content of [domains] and [var] pinned to
    [[value]], the second with an empty list under every key. *)
Lemma forward_check_st_enter (var : cell) (value : Z) (domains : loc)
    (d : gmap cell (list Z)) (σ : store) (k : loc → loc → M (option loc * loc)) :
  read_dict σ domains = Some d →
  ∃ σ' nd rm,
    (m ← get_dict domains;
     copies ← mapM copy_entry (map_to_list m);
     new_domains ← alloc (ODict (list_to_map copies));
     empties ← mapM empty_entry (map_to_list m);
     removed ← alloc (ODict (list_to_map empties));
     pinned ← alloc (OList [value]);
     nm ← get_dict new_domains;
     put new_domains (ODict (<[var := pinned]> nm));;
     k new_domains removed) σ = k nd rm σ' ∧
    σ !! nd = None ∧ σ !! rm = None ∧
    fc_inv σ σ' nd rm (<[var := [value]]> d) ((λ _, []) <$> d).
Proof.
  intros (m & Hx & Hall & HD)%read_dict_Some.
  assert (Hget : get_dict domains σ = (Ok m, σ)) by (unfold get_dict; by rewrite Hx).
  (* the copies *)
  destruct (mapM_entries copy_entry (λ σ kl, read_list σ kl.2)
              copy_entry_allocates) with (kls := map_to_list m) (σ := σ)
    as (out1 & σ1 & Hm1 & Hsub1 & Hread1 & Hnew1 & Hinj1).
  { intros kl ????. by apply read_list_weaken. }
  { apply Forall_forall. intros [k0 l0] Hk%elem_of_map_to_list. by eapply Hall. }
  rewrite list_to_map_to_list in Hread1.
  set (ndm := list_to_map out1 : gmap cell loc) in *.
  assert (Hown1 : owns σ σ1 ndm d).
  { split_and!; [|done..]. intros k0. by rewrite Hread1, HD. }
  destruct (alloc_spec (ODict ndm) σ1) as (nd & Hal2 & Hfresh2).
  set (σ2 := <[nd := ODict ndm]> σ1) in *.
  assert (Hsub2 : σ1 ⊆ σ2) by by apply insert_subseteq.
  (* the empty lists *)
  destruct (mapM_entries empty_entry (λ _ _, Some [])
              empty_entry_allocates) with (kls := map_to_list m) (σ := σ2)
    as (out2 & σ3 & Hm3 & Hsub3 & Hread3 & Hnew3 & Hinj3); [done| |].
  { apply Forall_forall. by eexists. }
  rewrite list_to_map_to_list in Hread3.
  set (rmm := list_to_map out2 : gmap cell loc) in *.
  assert (Hown3 : owns σ σ3 rmm ((λ _, []) <$> d)).
  { split_and!; [| |done].
    - intros k0. rewrite Hread3, lookup_fmap, HD.
      destruct (m !! k0) as [l|] eqn:Hk; [|done]. cbn.
      by destruct (Hall _ _ Hk) as [xs ->].
    - intros k0 l Hk. destruct (Hnew3 _ _ Hk) as [Hn Hs]. split; [|done].
      eapply lookup_weaken_None; [exact Hn|]. by etrans. }
  destruct (alloc_spec (ODict rmm) σ3) as (rm & Hal4 & Hfresh4).
  set (σ4 := <[rm := ODict rmm]> σ3) in *.
  assert (Hsub4 : σ3 ⊆ σ4) by by apply insert_subseteq.
  destruct (alloc_spec (OList [value]) σ4) as (pin & Hal5 & Hfresh5).
  set (σ5 := <[pin := OList [value]]> σ4) in *.
  assert (Hsub5 : σ4 ⊆ σ5) by by apply insert_subseteq.
  assert (H13 : σ1 ⊆ σ3) by (etrans; [exact Hsub2|exact Hsub3]).
  assert (H03 : σ ⊆ σ3) by (etrans; [exact Hsub1|exact H13]).
  assert (H35 : σ3 ⊆ σ5) by (etrans; [exact Hsub4|exact Hsub5]).
  assert (H15 : σ1 ⊆ σ5) by (etrans; [exact H13|exact H35]).
  assert (H25 : σ2 ⊆ σ5) by (etrans; [exact Hsub3|exact H35]).
  assert (H05 : σ ⊆ σ5) by (etrans; [exact H03|exact H35]).
  assert (H04 : σ ⊆ σ4) by (etrans; [exact H03|exact Hsub4]).
  assert (H14 : σ1 ⊆ σ4) by (etrans; [exact H13|exact Hsub4]).
  assert (Hnd5 : σ5 !! nd = Some (ODict ndm)).
  { eapply lookup_weaken; [apply lookup_insert_eq|exact H25]. }
  assert (Hrm5 : σ5 !! rm = Some (ODict rmm)).
  { eapply lookup_weaken; [apply lookup_insert_eq|exact Hsub5]. }
  assert (Hget5 : get_dict nd σ5 = (Ok ndm, σ5)) by (unfold get_dict; by rewrite Hnd5).
  set (σ6 := <[nd := ODict (<[var := pin]> ndm)]> σ5).
  assert (Hnd0 : σ !! nd = None) by (eapply lookup_weaken_None; [exact Hfresh2|exact Hsub1]).
  assert (Hrm0 : σ !! rm = None) by (eapply lookup_weaken_None; [exact Hfresh4|exact H03]).
  assert (Hpin0 : σ !! pin = None) by (eapply lookup_weaken_None; [exact Hfresh5|exact H04]).
  assert (Hnot_nd : ∀ l, is_Some (read_list σ5 l) → l ≠ nd).
  { intros l [xs Hxs%read_list_Some] ->. by rewrite Hnd5 in Hxs. }
  assert (Hpin_new : ∀ l, is_Some (σ4 !! l) → l ≠ pin).
  { intros l [o Ho] ->. by rewrite Hfresh5 in Ho. }
  assert (Hpin_nd : nd ≠ pin).
  { apply Hpin_new. exists (ODict ndm).
    eapply lookup_weaken; [apply lookup_insert_eq|].
    etrans; [exact Hsub3|exact Hsub4]. }
  exists σ6, nd, rm. split_and!; [|done|done|].
  { rewrite M_bind_unfold. by_outcome Hget. rewrite M_bind_unfold. by_outcome Hm1.
    fold ndm. rewrite M_bind_unfold. by_outcome Hal2.
    rewrite M_bind_unfold. by_outcome Hm3.
    fold rmm. rewrite M_bind_unfold. by_outcome Hal4. rewrite M_bind_unfold. by_outcome Hal5.
    rewrite M_bind_unfold. by_outcome Hget5. rewrite M_bind_unfold.
    by_outcome (put_spec nd (ODict (<[var := pin]> ndm)) σ5). done. }
  split; [by apply insert_subseteq_r|].
  exists (<[var := pin]> ndm), rmm. split_and!.
  - apply lookup_insert_eq.
  - unfold σ6. rewrite lookup_insert_ne; [done|].
    intros ->.
    assert (σ3 !! rm = Some (ODict ndm)) as Hc
      by (eapply lookup_weaken; [apply lookup_insert_eq|exact Hsub3]).
    by rewrite Hfresh4 in Hc.
  - apply owns_put_other.
    { intros k0 Hk. destruct (decide (k0 = var)) as [->|Hne].
      - rewrite lookup_insert_eq in Hk. by injection Hk as ->.
      - rewrite lookup_insert_ne in Hk by done.
        destruct Hown1 as (_ & Hnew & _). destruct (Hnew _ _ Hk) as [_ [xs Hxs]].
        eapply (Hnot_nd nd); [|done]. exists xs.
        eapply read_list_weaken; [exact H15|exact Hxs]. }
    apply owns_insert; [done|apply read_list_insert| |].
    2: { eapply owns_weaken; [exact H15|exact Hown1]. }
    intros k0 Hk. destruct (Hnew1 _ _ Hk) as [_ Hs%read_list_is_Some].
    apply (Hpin_new pin); [|done]. destruct Hs as [o Ho]. exists o.
    eapply lookup_weaken; [exact Ho|exact H14].
  - apply owns_put_other.
    2: { eapply owns_weaken; [exact H35|exact Hown3]. }
    intros k0 Hk. destruct Hown3 as (_ & Hnew & _).
    destruct (Hnew _ _ Hk) as [_ [xs Hxs]].
    eapply (Hnot_nd nd); [|done]. exists xs.
    eapply read_list_weaken; [exact H35|exact Hxs].
  - intros k1 k2 l Hk1 Hk2. destruct (Hnew3 _ _ Hk2) as [Hn2 Hs3].
    destruct (decide (k1 = var)) as [->|Hne].
    + rewrite lookup_insert_eq in Hk1. injection Hk1 as <-.
      apply read_list_is_Some in Hs3 as [o Ho]. apply (Hpin_new pin); [|done].
      exists o. eapply lookup_weaken; [exact Ho|exact Hsub4].
    + rewrite lookup_insert_ne in Hk1 by done.
      destruct (Hnew1 _ _ Hk1) as [_ [o Ho]%read_list_is_Some].
      assert (σ2 !! l = Some o) as Hc
        by (eapply lookup_weaken; [exact Ho|exact Hsub2]).
      by rewrite Hn2 in Hc.
Qed.

(** C8: on a heap where [domains] is a dict of lists, [forward_check]
    writes to no object that existed before the call, on every outcome:
    the dict and its lists hold what they held.  The two dicts that it
    returns are new objects, and their content is what [forward_check]
    computes from the content of [domains]. *)
Theorem forward_check_leaves_domains_unchanged (self : SudokuCSP) (var : cell)
    (value : Z) (domains : loc) (d : gmap cell (list Z)) (σ : store) :
  read_dict σ domains = Some d →
  let out := forward_check_st self var value domains σ in
  σ ⊆ out.2 ∧ read_dict out.2 domains = Some d ∧
  match out.1 with
  | Ok (Some new_domains, removed) =>
      σ !! new_domains = None ∧ σ !! removed = None ∧
      ∃ d' r', forward_check self var value d = Ok (Some d', r') ∧
               read_dict out.2 new_domains = Some d' ∧
               read_dict out.2 removed = Some r'
  | Ok (None, removed) =>
      σ !! removed = None ∧
      ∃ r', forward_check self var value d = Ok (None, r') ∧
            read_dict out.2 removed = Some r'
  | Raise x => forward_check self var value d = Raise x
  end.
Proof.
  intros Hd. cbv zeta.
  destruct (forward_check_st_enter var value domains d σ
              (fc_loop_st (box_size self) var value (variables self)) Hd)
    as (σ1 & nd & rm & Hrun & Hnd & Hrm & Hinv).
  unfold forward_check_st. rewrite Hrun. clear Hrun.
  destruct (fc_loop_st_spec (box_size self) var value (variables self)
              σ nd rm σ1 _ _ Hinv) as (σ' & Hloop).
  unfold forward_check.
  destruct (fc_loop _ _ _ _ _ _) as [[[D'|] R']|x].
  - destruct Hloop as [-> Hinv']. cbn [fst snd].
    apply fc_inv_read in Hinv' as (Hsub & HD & HR).
    split_and!; [done|by eapply read_dict_weaken|done|done|]. by exists D', R'.
  - destruct Hloop as [-> [D' Hinv']]. cbn [fst snd].
    apply fc_inv_read in Hinv' as (Hsub & HD & HR).
    split_and!; [done|by eapply read_dict_weaken|done|]. by exists R'.
  - destruct Hloop as [-> Hsub]. cbn [fst snd].
    split_and!; [done|by eapply read_dict_weaken|done].
Qed.

Lemma forward_check_leaves_domains_unchanged_witness :
  let out := forward_check_st two_gaps_engine (0, 1) 2 8%positive sample_heap in
  sample_heap ⊆ out.2 ∧
  read_dict out.2 8%positive = Some {[ (0, 1) := [2; 3]; (0, 2) := [2; 3] ]} ∧
  match out.1 with
  | Ok (Some new_domains, removed) =>
      sample_heap !! new_domains = None ∧ sample_heap !! removed = None ∧
      ∃ d' r', forward_check two_gaps_engine (0, 1) 2
                 {[ (0, 1) := [2; 3]; (0, 2) := [2; 3] ]} = Ok (Some d', r') ∧
               read_dict out.2 new_domains = Some d' ∧
               read_dict out.2 removed = Some r'
  | Ok (None, removed) =>
      sample_heap !! removed = None ∧
      ∃ r', forward_check two_gaps_engine (0, 1) 2
              {[ (0, 1) := [2; 3]; (0, 2) := [2; 3] ]} = Ok (None, r') ∧
            read_dict out.2 removed = Some r'
  | Raise x => forward_check two_gaps_engine (0, 1) 2
                 {[ (0, 1) := [2; 3]; (0, 2) := [2; 3] ]} = Raise x
  end.
Proof.
  apply (forward_check_leaves_domains_unchanged two_gaps_engine (0, 1) 2
           8%positive {[ (0, 1) := [2; 3]; (0, 2) := [2; 3] ]} sample_heap).
  vm_compute. reflexivity.
Defined.

(** The run behind the instance above: the call succeeds, the value 2
    leaves the copy of the domain of (0, 2) and is recorded, and the
    caller's lists at 6 and 7 still hold [2; 3]. *)
Example forward_check_st_on_sample_heap :
  ∃ new_domains removed σ',
    forward_check_st two_gaps_engine (0, 1) 2 8%positive sample_heap
    = (Ok (Some new_domains, removed), σ') ∧
    read_dict σ' new_domains = Some {[ (0, 1) := [2]; (0, 2) := [3] ]} ∧
    read_dict σ' removed = Some {[ (0, 1) := []; (0, 2) := [2] ]} ∧
    σ' !! 6%positive = Some (OList [2; 3]) ∧
    σ' !! 7%positive = Some (OList [2; 3]).
Proof.
  eexists _, _, _. split_and!; [vm_compute; reflexivity|..];
    vm_compute; reflexivity.
Qed.


(** * The constructor and the caller's grid *)

Lemma get_grid_Some (σ : store) (b : loc) (rows : list loc) :
  σ !! b = Some (OGrid rows) → get_grid b σ = (Ok rows, σ).
Proof. unfold get_grid. by intros ->. Qed.

Lemma read_board_Some (σ : store) (b : loc) (content : list (list Z)) :
  read_board σ b = Some content ↔
  ∃ rows, σ !! b = Some (OGrid rows) ∧
          Forall2 (λ l xs, read_list σ l = Some xs) rows content.
Proof.
  unfold read_board. destruct (σ !! b) as [[|rows| |]|].
  2: { rewrite mapM_Some. split; [by exists rows|].
       by intros (rows' & [= <-] & H). }
  all: split; [done|]; by intros (? & ? & _).
Qed.

(** What the constructor does on a heap where [b] is a grid: it builds
    the engine that [__init__] builds from the content of [b], behind a
    new grid object with new rows, and writes nothing else. *)
Lemma init_st_spec (n : Z) (b : loc) (content : list (list Z)) (σ : store) :
  read_board σ b = Some content →
  ∃ σ', σ ⊆ σ' ∧
    match __init__ n (Some content) with
    | Ok csp =>
        ∃ b' rows,
          init_st n (Some b) σ = (Ok (Built csp b'), σ') ∧
          σ !! b' = None ∧ σ' !! b' = Some (OGrid rows) ∧
          (∀ l, l ∈ rows → σ !! l = None) ∧
          read_board σ' b' = Some content
    | Raise x => init_st n (Some b) σ = (Raise x, σ')
    end.
Proof.
  intros (rs & Hb & Hrs)%read_board_Some.
  unfold __init__. destruct (int_sqrt n) as [bs|x] eqn:Hsq; cbn [mbind res_bind].
  2: { exists σ. split; [done|]. unfold init_st. rewrite M_bind_unfold.
       unfold lift. by rewrite Hsq. }
  destruct (mapM_copy_row rs content σ Hrs) as (rows & σ1 & Hcopy & Hsub1 & Hread & Hnew).
  destruct (alloc_spec (OGrid rows) σ1) as (b' & Hal & Hfresh).
  set (σ2 := <[b' := OGrid rows]> σ1) in *.
  assert (Hsub2 : σ1 ⊆ σ2) by by apply insert_subseteq.
  assert (Hb' : σ2 !! b' = Some (OGrid rows)) by apply lookup_insert_eq.
  assert (Hread2 : read_board σ2 b' = Some content).
  { apply read_board_Some. exists rows. split; [done|].
    eapply Forall2_impl; [exact Hread|]. intros ???. by eapply read_list_weaken. }
  assert (Hget : get_board b' σ2 = (Ok content, σ2)).
  { unfold get_board. rewrite M_bind_unfold. by_outcome (get_grid_Some _ _ _ Hb').
    apply mapM_get_list. apply mapM_Some.
    eapply Forall2_impl; [exact Hread|]. intros ???. by eapply read_list_weaken. }
  assert (Hinit : init_st n (Some b) σ =
                  match setup n bs content with
                  | Ok csp => (Ok (Built csp b'), σ2)
                  | Raise x => (Raise x, σ2)
                  end).
  { unfold init_st. rewrite M_bind_unfold. unfold lift at 1. by_outcome Hsq.
    rewrite !M_bind_unfold. by_outcome (get_grid_Some _ _ _ Hb). by_outcome Hcopy.
    rewrite M_bind_unfold. by_outcome Hal. rewrite M_bind_unfold. by_outcome Hget.
    rewrite M_bind_unfold. unfold lift. by destruct (setup n bs content). }
  exists σ2. split; [by etrans|]. rewrite Hinit.
  destruct (setup n bs content) as [csp|x]; [|done].
  exists b', rows. split_and!; [done| |done|done|done].
  by eapply lookup_weaken_None.
Qed.

(** Without a grid the constructor allocates the rows of zeros itself. *)
Lemma init_st_default (n : Z) (σ : store) :
  ∃ σ', σ ⊆ σ' ∧
    match __init__ n None with
    | Ok csp =>
        ∃ b', init_st n None σ = (Ok (Built csp b'), σ') ∧
              σ !! b' = None ∧ read_board σ' b' = Some (empty_board n)
    | Raise x => init_st n None σ = (Raise x, σ')
    end.
Proof.
  unfold __init__. destruct (int_sqrt n) as [bs|x] eqn:Hsq; cbn [mbind res_bind].
  2: { exists σ. split; [done|]. unfold init_st. rewrite M_bind_unfold.
       unfold lift. by rewrite Hsq. }
  destruct (mapM_zero_row n (range n) σ) as (rows & σ1 & Hrows & Hsub1 & Hread & Hnew).
  fold (empty_board n) in Hread.
  destruct (alloc_spec (OGrid rows) σ1) as (b' & Hal & Hfresh).
  set (σ2 := <[b' := OGrid rows]> σ1) in *.
  assert (Hsub2 : σ1 ⊆ σ2) by by apply insert_subseteq.
  assert (Hb' : σ2 !! b' = Some (OGrid rows)) by apply lookup_insert_eq.
  assert (Hread2 : read_board σ2 b' = Some (empty_board n)).
  { apply read_board_Some. exists rows. split; [done|].
    eapply Forall2_impl; [exact Hread|]. intros ???. by eapply read_list_weaken. }
  assert (Hget : get_board b' σ2 = (Ok (empty_board n), σ2)).
  { unfold get_board. rewrite M_bind_unfold. by_outcome (get_grid_Some _ _ _ Hb').
    apply mapM_get_list. apply mapM_Some.
    eapply Forall2_impl; [exact Hread|]. intros ???. by eapply read_list_weaken. }
  assert (Hinit : init_st n None σ =
                  match setup n bs (empty_board n) with
                  | Ok csp => (Ok (Built csp b'), σ2)
                  | Raise x => (Raise x, σ2)
                  end).
  { unfold init_st. rewrite M_bind_unfold. unfold lift at 1. by_outcome Hsq.
    rewrite M_bind_unfold. by_outcome Hrows.
    rewrite M_bind_unfold. by_outcome Hal. rewrite M_bind_unfold. by_outcome Hget.
    rewrite M_bind_unfold. unfold lift. by destruct (setup n bs (empty_board n)). }
  exists σ2. split; [by etrans|]. rewrite Hinit.
  destruct (setup n bs (empty_board n)) as [csp|x]; [|done].
  exists b'. split_and!; [done| |done].
  by eapply lookup_weaken_None.
Qed.

(** C10: constructing an engine from a grid object writes to no object that
    existed before, so the caller's grid and its rows hold what they held
    (and the engine is the one that [__init__] builds from that content);
    the grid that the engine keeps is a new object with new rows, so however
    the objects that existed before the call are changed later, the
    engine's grid still holds the content read at construction, and its
    variables and initial domains are those computed from it.
    [is_valid_puzzle] likewise writes to no object that existed before and
    answers as on the content of the grid. *)
Theorem constructor_leaves_the_callers_grid (σ : store) (n : Z) (b : loc)
    (content : list (list Z)) :
  read_board σ b = Some content →
  let built := init_st n (Some b) σ in
  let checked := is_valid_puzzle_st b σ in
  (σ ⊆ built.2 ∧ read_board built.2 b = Some content ∧
   match built.1 with
   | Ok csp =>
       __init__ n (Some content) = Ok (engine csp) ∧
       σ !! board_ref csp = None ∧
       ∀ σ'' : store,
         (∀ l, σ !! l = None → σ'' !! l = built.2 !! l) →
         read_board σ'' (board_ref csp) = Some (initial_board (engine csp))
   | Raise x => __init__ n (Some content) = Raise x
   end) ∧
  (σ ⊆ checked.2 ∧ read_board checked.2 b = Some content ∧
   checked.1 = is_valid_puzzle content).
Proof.
  intros Hread. cbv zeta. split.
  - destruct (init_st_spec n b content σ Hread) as (σ' & Hsub & Hspec).
    destruct (__init__ n (Some content)) as [csp|x] eqn:Hinit.
    + destruct Hspec as (b' & rows & -> & Hfresh & Hb' & Hrows & Hread').
      cbn [fst snd engine board_ref].
      split_and!; [done|by eapply read_board_weaken|done|done|].
      intros σ'' Hsame.
      assert (initial_board csp = content) as ->.
      { unfold __init__, setup in Hinit.
        destruct (int_sqrt n) as [bs|]; [|done]. cbn [mbind res_bind] in Hinit.
        destruct (foldl _ _ _) as [st|]; [|done]. cbn [mbind res_bind] in Hinit.
        destruct (foldl _ _ _) as [doms|]; [|done]. by simplify_eq/=. }
      rewrite <- Hread'.
      apply (read_board_local _ _ _ rows); [done|by apply Hsame|].
      intros l Hl. by apply Hsame, Hrows.
    + rewrite Hspec. cbn [fst snd].
      split_and!; [done|by eapply read_board_weaken|done].
  - unfold is_valid_puzzle_st, is_valid_puzzle.
    pose proof Hread as (rs & Hb & Hrs)%read_board_Some.
    rewrite M_bind_unfold. by_outcome (get_grid_Some _ _ _ Hb).
    rewrite (Forall2_length _ _ _ Hrs).
    destruct (init_st_spec (Z.of_nat (length content)) b content σ Hread)
      as (σ' & Hsub & Hspec).
    destruct (__init__ _ (Some content)) as [csp|x].
    + destruct Hspec as (b' & rows & -> & _). cbn [fst snd engine].
      split_and!; [done|by eapply read_board_weaken|done].
    + rewrite Hspec. cbn [fst snd].
      split_and!; [done|by eapply read_board_weaken|done].
Qed.

Lemma constructor_leaves_the_callers_grid_witness :
  let built := init_st 4 (Some 5%positive) sample_heap in
  let checked := is_valid_puzzle_st 5%positive sample_heap in
  (sample_heap ⊆ built.2 ∧ read_board built.2 5%positive = Some sample_board ∧
   match built.1 with
   | Ok csp =>
       __init__ 4 (Some sample_board) = Ok (engine csp) ∧
       sample_heap !! board_ref csp = None ∧
       ∀ σ'' : store,
         (∀ l, sample_heap !! l = None → σ'' !! l = built.2 !! l) →
         read_board σ'' (board_ref csp) = Some (initial_board (engine csp))
   | Raise x => __init__ 4 (Some sample_board) = Raise x
   end) ∧
  (sample_heap ⊆ checked.2 ∧ read_board checked.2 5%positive = Some sample_board ∧
   checked.1 = is_valid_puzzle sample_board).
Proof.
  apply (constructor_leaves_the_callers_grid sample_heap 4 5%positive sample_board).
  vm_compute. reflexivity.
Defined.

(** The instance above, run: after the construction the caller overwrites
    the first row of its grid in place; the engine's grid still holds the
    board it was built from. *)
Example engine_grid_survives_a_later_write :
  ∃ csp σ',
    init_st 4 (Some 5%positive) sample_heap = (Ok csp, σ') ∧
    read_board (<[1%positive := OList [9; 9; 9; 9]]> σ') 5%positive
    = Some ([9; 9; 9; 9] :: tail sample_board) ∧
    read_board (<[1%positive := OList [9; 9; 9; 9]]> σ') (board_ref csp)
    = Some sample_board.
Proof.
  eexists _, _. split_and!; vm_compute; reflexivity.
Qed.


(** * More on the constructor *)

Lemma filter_all {A} (P : A → Prop) `{!∀ x, Decision (P x)} (l : list A) :
  (∀ x, x ∈ l → P x) → filter P l = l.
Proof.
  induction l as [|y l IH]; intros Hall; [done|].
  rewrite filter_cons_True by (apply Hall; by left).
  f_equal. apply IH. intros x Hx. apply Hall. by right.
Qed.

Lemma py_remove_filter (v : Z) (d : list Z) :
  NoDup d → py_remove v d = filter (λ x, x ≠ v) d.
Proof.
  induction 1 as [|y d Hy Hd IH]; [done|]. cbn [py_remove].
  destruct (decide (y = v)) as [->|Hne].
  - rewrite filter_cons_False by (intros ?; done).
    symmetry. apply filter_all. intros x Hx ->. done.
  - rewrite filter_cons_True by done. by rewrite IH.
Qed.

(** The second pair of loops leaves, under a key, the values that no
    filled cell of the unit holds, in the order they had. *)
Lemma prune_lookup_filter (bs : Z) (board : list (list Z)) (l : list cell)
    (m : gmap cell (list Z)) (k : cell) (d : list Z) :
  m !! k = Some d → NoDup d →
  foldl (prune_pure bs board) m l !! k
  = Some (filter (λ x, Forall (λ rc, cell_val board rc = 0
                                     ∨ same_unit bs k rc = false
                                     ∨ cell_val board rc ≠ x) l) d).
Proof.
  revert m d. induction l as [|rc l IH]; intros m d Hk Hd; cbn [foldl].
  - rewrite Hk. f_equal. symmetry. apply filter_all. intros x _. constructor.
  - set (P := λ x : Z, cell_val board rc = 0 ∨ same_unit bs k rc = false
                       ∨ cell_val board rc ≠ x).
    assert (prune_pure bs board m rc !! k = Some (filter P d)) as Hk1.
    { unfold prune_pure. case_decide as Hz.
      - rewrite Hk. f_equal. symmetry. apply filter_all. intros x _. by left.
      - rewrite remove_conflicts_lookup, Hk. cbn. f_equal.
        destruct rc as [r c]. cbn [fst snd].
        destruct (same_unit bs k (r, c)) eqn:Hsu.
        + assert (py_remove (cell_val board (r, c)) d = filter P d) as Hrm.
          { rewrite py_remove_filter by done. apply list_filter_iff.
            intros x. unfold P. split.
            - intros Hx. right. right. congruence.
            - intros [?|[?|?]]; [done|done|congruence]. }
          destruct (py_in _ d) eqn:Hin; [done|].
          apply py_in_false in Hin. by rewrite <- Hrm, py_remove_notin.
        + symmetry. apply filter_all. intros x _. right. by left. }
    rewrite (IH _ _ Hk1) by by apply NoDup_filter.
    f_equal. rewrite list_filter_filter. apply list_filter_iff.
    intros x. rewrite Forall_cons. unfold P. tauto.
Qed.

(** X1: for a size [n >= 0] and a board that has the [n] rows of [n]
    entries that the constructor reads, the constructor returns an engine
    of size [n] with box size the integer square root of [n], zeroed
    statistics and the board as given; its variables are the empty cells
    in row-major order, and its initial domains have exactly the
    variables as keys, each with the values of [1..n], ascending, that no
    filled cell of its row, column or box holds. *)
Theorem init_variables_and_domains (n : Z) (board : list (list Z)) :
  0 ≤ n →
  covers_grid n board = true →
  ∃ self,
    __init__ n (Some board) = Ok self ∧
    size self = n ∧ box_size self = Z.sqrt n ∧
    initial_board self = board ∧ counters self = Stats 0 0 0 ∧
    variables self = filter (λ rc, cell_val board rc = 0) (cells n) ∧
    ∀ k, initial_domains self !! k
         = if decide (k ∈ variables self)
           then Some (candidates n (Z.sqrt n) board k) else None.
Proof.
  intros Hn Hcov. pose proof (proj1 (covers_grid_spec _ _) Hcov) as Hcov'.
  unfold __init__, setup. rewrite int_sqrt_nonneg by done.
  cbn [mbind res_bind].
  rewrite collect_fold by done. cbn [mbind res_bind fst snd].
  rewrite (prune_fold (Z.sqrt n)) by done. cbn [mbind res_bind].
  eexists. split; [done|]. cbn [reset size box_size initial_board counters
                                 variables initial_domains app].
  split_and!; try done.
  intros k. case_decide as Hk.
  - apply list_elem_of_filter in Hk as [Hk0 Hkc].
    apply prune_lookup_filter; [|apply NoDup_seqZ].
    rewrite collect_lookup. by rewrite decide_True.
  - apply prune_lookup_None. rewrite collect_lookup.
    rewrite decide_False; [done|]. intros [? ?]. apply Hk.
    by apply list_elem_of_filter.
Qed.

Lemma init_variables_and_domains_witness :
  ∃ self,
    __init__ 4 (Some sample_board) = Ok self ∧
    size self = 4 ∧ box_size self = Z.sqrt 4 ∧
    initial_board self = sample_board ∧ counters self = Stats 0 0 0 ∧
    variables self = filter (λ rc, cell_val sample_board rc = 0) (cells 4) ∧
    ∀ k, initial_domains self !! k
         = if decide (k ∈ variables self)
           then Some (candidates 4 (Z.sqrt 4) sample_board k) else None.
Proof.
  apply (init_variables_and_domains 4 sample_board); [lia|].
  vm_compute. reflexivity.
Defined.

(** X2: for a size below 2^52, the constructor raises nothing but a
    [TypeError] (size below -2^63), a [ValueError] (any other negative
    size) and an [IndexError]; it raises the [IndexError] exactly when the
    size is not negative and the board lacks one of the [n] rows or one of
    the [n] entries of a row that the loops read. *)
Theorem init_raises_IndexError (n : Z) (board : option (list (list Z))) :
  n < 2 ^ 52 →
  (∀ x, __init__ n board = Raise x →
        x = TypeError ∨ x = ValueError ∨ x = IndexError) ∧
  (__init__ n board = Raise TypeError ↔ n < - 2 ^ 63) ∧
  (__init__ n board = Raise ValueError ↔ - 2 ^ 63 ≤ n < 0) ∧
  (__init__ n board = Raise IndexError
   ↔ 0 ≤ n ∧
     covers_grid n (match board with None => empty_board n | Some b => b end)
     = false).
Proof.
  intros _. split_and!.
  - intros x Hx. destruct (init_raises n board x Hx) as [[-> _]|[[-> _]|[-> _]]]; auto.
  - apply init_raises_TypeError.
  - apply init_raises_ValueError.
  - split.
    + intros Hi. destruct (init_raises n board _ Hi) as [[? _]|[[? _]|[_ Hn]]]; [done..|].
      split; [done|].
      destruct (covers_grid n _) eqn:Hcov; [|done].
      destruct (init_ok n board Hn Hcov) as (self & Hs & _). congruence.
    + intros [Hn Hcov]. destruct (__init__ n board) as [self|x] eqn:Hi.
      * apply init_inv in Hi as [_ Hc]. congruence.
      * destruct (init_raises n board x Hi) as [[_ ?]|[[_ ?]|[-> _]]]; [lia..|done].
Qed.

Lemma init_raises_IndexError_witness :
  (∀ x, __init__ 4 (Some [[1; 0]; [0]]) = Raise x →
        x = TypeError ∨ x = ValueError ∨ x = IndexError) ∧
  (__init__ 4 (Some [[1; 0]; [0]]) = Raise TypeError ↔ 4 < - 2 ^ 63) ∧
  (__init__ 4 (Some [[1; 0]; [0]]) = Raise ValueError ↔ - 2 ^ 63 ≤ 4 < 0) ∧
  (__init__ 4 (Some [[1; 0]; [0]]) = Raise IndexError
   ↔ 0 ≤ 4 ∧ covers_grid 4 [[1; 0]; [0]] = false).
Proof.
  apply (init_raises_IndexError 4 (Some [[1; 0]; [0]])). reflexivity.
Defined.


(** * More on the two orderings *)

(** ** [mapM] in the exception monad *)

Lemma mapM_Ok_fmap {A B} (f : A → res B) (g : A → B) (l : list A) :
  (∀ x, x ∈ l → f x = Ok (g x)) → mapM f l = Ok (g <$> l).
Proof.
  induction l as [|x l IH]; intros Hf; [done|]. cbn.
  rewrite (Hf x) by left. cbn. rewrite IH; [done|].
  intros y Hy. apply Hf. by right.
Qed.

Lemma mapM_Raise {A B} (f : A → res B) (e : exn) (l : list A) :
  (∀ x y, x ∈ l → f x = Raise y → y = e) →
  Exists (λ x, ∃ y, f x = Raise y) l → mapM f l = Raise e.
Proof.
  induction l as [|x l IH]; intros He Hex; [by apply Exists_nil in Hex|]. cbn.
  destruct (f x) as [b|y] eqn:Hx; cbn.
  - rewrite IH; [done| |].
    + intros x' y' Hx'. apply He. by right.
    + apply Exists_cons in Hex as [[y Hy]|Hex]; [congruence|done].
  - f_equal. eapply He; [by left|done].
Qed.

(** ** The sort *)

Lemma insert_by_key_sorted (kx : Z * Z) (l : list (Z * Z)) :
  StronglySorted (λ p q, p.1 ≤ q.1) l →
  StronglySorted (λ p q, p.1 ≤ q.1) (insert_by_key kx l).
Proof.
  induction 1 as [|ky l Hl IH Hky]; cbn [insert_by_key].
  - repeat constructor.
  - destruct (Z.ltb_spec ky.1 kx.1) as [Hlt|Hge].
    + constructor; [done|]. rewrite insert_by_key_perm.
      constructor; [lia|done].
    + constructor; [by constructor|]. constructor; [done|].
      eapply Forall_impl; [exact Hky|]. intros q Hq. cbn in Hq. lia.
Qed.

Lemma sort_by_key_sorted (l : list (Z * Z)) :
  StronglySorted (λ p q, p.1 ≤ q.1) (sort_by_key l).
Proof.
  induction l as [|kx l IH]; cbn; [constructor|]. by apply insert_by_key_sorted.
Qed.

(** The sort is stable: the items of one key keep their order. *)
Lemma insert_by_key_filter (c : Z) (kx : Z * Z) (l : list (Z * Z)) :
  filter (λ p, p.1 = c) (insert_by_key kx l) = filter (λ p, p.1 = c) (kx :: l).
Proof.
  induction l as [|ky l IH]; cbn [insert_by_key]; [done|].
  destruct (Z.ltb_spec ky.1 kx.1) as [Hlt|Hge]; [|done].
  rewrite (filter_cons _ ky), IH, !(filter_cons _ kx), !(filter_cons _ ky).
  repeat case_decide; try done; lia.
Qed.

Lemma sort_by_key_filter (c : Z) (l : list (Z * Z)) :
  filter (λ p, p.1 = c) (sort_by_key l) = filter (λ p, p.1 = c) l.
Proof.
  induction l as [|kx l IH]; [done|]. cbn [sort_by_key foldr].
  fold (sort_by_key l). rewrite insert_by_key_filter, !filter_cons. by rewrite IH.
Qed.

Lemma keyed_sorted (g : Z → Z) (ps : list (Z * Z)) :
  Forall (λ p, p.1 = g p.2) ps →
  StronglySorted (λ p q, p.1 ≤ q.1) ps →
  StronglySorted (λ x y, g x ≤ g y) ps.*2.
Proof.
  intros Hg. induction 1 as [|p ps Hps IH Hp]; cbn; [constructor|].
  apply Forall_cons in Hg as [Hp1 Hg]. constructor; [by apply IH|].
  apply Forall_fmap. apply Forall_forall. intros q Hq. cbn.
  rewrite Forall_forall in Hp, Hg. rewrite <- Hp1, <- (Hg q Hq). by apply Hp.
Qed.

Lemma keyed_filter (g : Z → Z) (c : Z) (ps : list (Z * Z)) :
  Forall (λ p, p.1 = g p.2) ps →
  filter (λ v, g v = c) ps.*2 = (filter (λ p, p.1 = c) ps).*2.
Proof.
  induction 1 as [|p ps Hp Hps IH]; [done|]. cbn [fmap list_fmap].
  rewrite !filter_cons, IH, Hp. by case_decide.
Qed.

Lemma zip_fmap_keyed (g : Z → Z) (l : list Z) :
  Forall (λ p : Z * Z, p.1 = g p.2) (zip (g <$> l) l).
Proof. induction l; cbn; constructor; done. Qed.

(** ** The count behind the value ordering *)

Section lcv.
Context (self : SudokuCSP) (var : cell) (d : gmap cell (list Z)) (a : gmap cell Z).

(** [eliminated_count] raises when a domain that it reads is not there,
    and counts the domains that hold [value] otherwise. *)
Lemma eliminated_count_spec (value : Z) :
  eliminated_count self var d a value
  = if decide (Exists (λ rc, rc ≠ var ∧ a !! rc = None
                             ∧ same_unit (box_size self) rc var = true
                             ∧ d !! rc = None) (variables self))
    then Raise KeyError
    else Ok (lcv_count self var d a value).
Proof.
  unfold eliminated_count, lcv_count.
  set (step := λ (acc : res Z) (rc : cell),
    count ← acc;
    if bool_decide (rc = var) || bool_decide (is_Some (a !! rc))
    then Ok count
    else if same_unit (box_size self) rc var
    then match d !! rc with
         | None => Raise KeyError
         | Some dk => Ok (if py_in value dk then count + 1 else count)
         end
    else Ok count).
  set (missing := λ rc : cell, rc ≠ var ∧ a !! rc = None
                               ∧ same_unit (box_size self) rc var = true
                               ∧ d !! rc = None).
  set (P := λ rc : cell, rc ≠ var ∧ a !! rc = None
                         ∧ same_unit (box_size self) rc var = true
                         ∧ value ∈ default [] (d !! rc)).
  assert (Hraise : ∀ l x, foldl step (Raise x) l = Raise x).
  { induction l; intros; cbn; auto. }
  assert (H : ∀ l c0,
    foldl step (Ok c0) l
    = if decide (Exists missing l) then Raise KeyError
      else Ok (c0 + Z.of_nat (length (filter P l)))).
  { induction l as [|rc l IH]; intros c0; cbn [foldl].
    - rewrite decide_False by (by intros ?%Exists_nil). cbn. f_equal. lia.
    - assert (Hskip : ¬ missing rc → ¬ P rc →
                      step (Ok c0) rc = Ok c0 →
                      foldl step (step (Ok c0) rc) l
                      = if decide (Exists missing (rc :: l)) then Raise KeyError
                        else Ok (c0 + Z.of_nat (length (filter P (rc :: l))))).
      { intros Hm HP ->. rewrite IH, filter_cons_False by done.
        destruct (decide (Exists missing l)) as [He|He].
        - rewrite decide_True; [done|]. by apply Exists_cons_tl.
        - rewrite decide_False; [done|].
          intros [?|?]%Exists_cons; done. }
      destruct (decide (rc = var)) as [Heq|Hne].
      { apply Hskip; [by intros [? _]|by intros [? _]|].
        unfold step. cbn. by rewrite (bool_decide_eq_true_2 (rc = var)). }
      destruct (a !! rc) as [v|] eqn:Ha.
      { apply Hskip; [intros (_ & ? & _); congruence
                     |intros (_ & ? & _); congruence|].
        unfold step. cbn. rewrite Ha.
        rewrite (bool_decide_eq_true_2 (is_Some (Some v))) by by eexists.
        by rewrite orb_true_r. }
      assert (Hguard : bool_decide (rc = var) || bool_decide (is_Some (a !! rc))
                       = false).
      { rewrite (bool_decide_eq_false_2 (rc = var)) by done. rewrite Ha.
        by rewrite bool_decide_eq_false_2 by (by intros [? ?]). }
      destruct (same_unit (box_size self) rc var) eqn:Hsu.
      2: { apply Hskip; [intros (_ & _ & ? & _); congruence
                        |intros (_ & _ & ? & _); congruence|].
           unfold step. cbn. by rewrite Hguard, Hsu. }
      destruct (d !! rc) as [dk|] eqn:Hd.
      + assert (step (Ok c0) rc = Ok (if py_in value dk then c0 + 1 else c0)) as ->.
        { unfold step. cbn. by rewrite Hguard, Hsu, Hd. }
        rewrite IH. destruct (py_in value dk) eqn:Hin.
        * apply py_in_true in Hin.
          rewrite filter_cons_True by (unfold P; rewrite Hd; done).
          destruct (decide (Exists missing l)) as [He|He].
          -- rewrite decide_True; [done|]. by apply Exists_cons_tl.
          -- rewrite decide_False.
             ++ f_equal. cbn [length]. lia.
             ++ intros [(_ & _ & _ & ?)|?]%Exists_cons; [congruence|done].
        * apply py_in_false in Hin.
          rewrite filter_cons_False
            by (unfold P; rewrite Hd; intros (_ & _ & _ & ?); done).
          destruct (decide (Exists missing l)) as [He|He].
          -- rewrite decide_True; [done|]. by apply Exists_cons_tl.
          -- rewrite decide_False; [done|].
             intros [(_ & _ & _ & ?)|?]%Exists_cons; [congruence|done].
      + assert (step (Ok c0) rc = Raise KeyError) as ->.
        { unfold step. cbn. by rewrite Hguard, Hsu, Hd. }
        rewrite Hraise. rewrite decide_True; [done|].
        apply Exists_cons_hd. done. }
  rewrite H. case_decide; [done|]. f_equal.
Qed.

(** X3: when [order_domain_values] returns, the order is a rearrangement
    of [domains[var]] in non-decreasing order of the number of unassigned
    variables in the row, column or box of [var] (other than [var]) whose
    domain holds the value, which is the key that [eliminated_count]
    computes for it; values with the same key keep the order they have in
    [domains[var]]. *)
Theorem order_domain_values_sorted_stable (order : list Z) :
  order_domain_values self var d a = Ok order →
  ∃ dv,
    d !! var = Some dv ∧
    order ≡ₚ dv ∧
    (∀ v, v ∈ dv → eliminated_count self var d a v = Ok (lcv_count self var d a v)) ∧
    StronglySorted (λ x y, lcv_count self var d a x ≤ lcv_count self var d a y)
                   order ∧
    ∀ c, filter (λ v, lcv_count self var d a v = c) order
         = filter (λ v, lcv_count self var d a v = c) dv.
Proof.
  intros Hord. destruct (order_domain_values_Ok _ _ _ _ _ Hord) as (dv & Hdv & Hperm).
  exists dv. split; [done|]. split; [done|].
  unfold order_domain_values in Hord. rewrite Hdv in Hord.
  destruct (mapM _ dv) as [keys|x] eqn:Hk; cbn in Hord; [|done].
  injection Hord as <-.
  assert (Hcount : ∀ v, v ∈ dv →
            eliminated_count self var d a v = Ok (lcv_count self var d a v)).
  { intros v Hv. apply mapM_Ok_inv in Hk.
    apply list_elem_of_lookup in Hv as [i Hi].
    destruct (Forall2_lookup_l _ _ _ _ _ Hk Hi) as (c & _ & Hc).
    rewrite eliminated_count_spec in Hc |- *. by case_decide. }
  split; [done|].
  rewrite (mapM_Ok_fmap _ (lcv_count self var d a) dv Hcount) in Hk.
  injection Hk as <-.
  assert (Hkeyed : Forall (λ p : Z * Z, p.1 = lcv_count self var d a p.2)
                     (sort_by_key (zip (lcv_count self var d a <$> dv) dv))).
  { rewrite sort_by_key_perm. apply zip_fmap_keyed. }
  split.
  - apply keyed_sorted; [done|]. apply sort_by_key_sorted.
  - intros c. rewrite (keyed_filter _ _ _ Hkeyed), sort_by_key_filter.
    rewrite <- (keyed_filter _ _ _ (zip_fmap_keyed _ dv)).
    rewrite snd_zip; [done|]. rewrite length_fmap. lia.
Qed.

(** X12: [order_domain_values] raises nothing but a [KeyError], and raises
    it exactly when [var] has no domain, or the domain of [var] is not
    empty and some unassigned variable other than [var] in its row,
    column or box has no domain (with an empty domain of [var] no other
    domain is read). *)
Theorem order_domain_values_raises (x : exn) :
  order_domain_values self var d a = Raise x ↔
  x = KeyError ∧
  (d !! var = None ∨
   ∃ dv, d !! var = Some dv ∧ dv ≠ [] ∧
         ∃ rc, rc ∈ variables self ∧ rc ≠ var ∧ a !! rc = None ∧
               same_unit (box_size self) rc var = true ∧ d !! rc = None).
Proof.
  unfold order_domain_values. destruct (d !! var) as [dv|] eqn:Hdv.
  2: { split; [intros [= <-]; split; [done|by left]|by intros [-> _]]. }
  destruct (decide (Exists (λ rc, rc ≠ var ∧ a !! rc = None
                                  ∧ same_unit (box_size self) rc var = true
                                  ∧ d !! rc = None) (variables self)))
    as [Hex|Hex].
  - destruct dv as [|v dv].
    + cbn. split; [done|]. intros [_ [?|(dv & [= <-] & ? & _)]]; done.
    + rewrite (mapM_Raise _ KeyError).
      * cbn. split.
        -- intros [= <-]. split; [done|]. right. exists (v :: dv).
           split; [done|]. split; [done|].
           apply Exists_exists in Hex as (rc & Hrc & Hm). exists rc. by split.
        -- by intros [-> _].
      * intros v' y _. rewrite eliminated_count_spec, decide_True by done.
        by intros [= <-].
      * apply Exists_cons_hd. exists KeyError.
        by rewrite eliminated_count_spec, decide_True.
  - rewrite (mapM_Ok_fmap _ (lcv_count self var d a)).
    + cbn. split; [done|].
      intros [_ [?|(dv' & [= <-] & _ & rc & Hrc & Hm)]]; [done|].
      exfalso. apply Hex, Exists_exists. by exists rc.
    + intros v _. by rewrite eliminated_count_spec, decide_False.
Qed.
End lcv.

Lemma order_domain_values_sorted_stable_witness :
  ∃ dv,
    initial_domains sample_engine !! (0, 1) = Some dv ∧
    [1; 2] ≡ₚ dv ∧
    (∀ v, v ∈ dv →
       eliminated_count sample_engine (0, 1) (initial_domains sample_engine) ∅ v
       = Ok (lcv_count sample_engine (0, 1) (initial_domains sample_engine) ∅ v)) ∧
    StronglySorted
      (λ x y, lcv_count sample_engine (0, 1) (initial_domains sample_engine) ∅ x
              ≤ lcv_count sample_engine (0, 1) (initial_domains sample_engine) ∅ y)
      [1; 2] ∧
    ∀ c, filter (λ v, lcv_count sample_engine (0, 1)
                        (initial_domains sample_engine) ∅ v = c) [1; 2]
         = filter (λ v, lcv_count sample_engine (0, 1)
                          (initial_domains sample_engine) ∅ v = c) dv.
Proof.
  apply (order_domain_values_sorted_stable sample_engine (0, 1)
           (initial_domains sample_engine) ∅ [1; 2]).
  vm_compute. reflexivity.
Defined.

(** X11: [select_unassigned_var] raises a [KeyError] exactly when some
    unassigned variable has no domain, a [ValueError] (the [min] of an
    empty list) exactly when no variable is left to assign, and nothing
    else. *)
Theorem select_unassigned_var_raises (self : SudokuCSP)
    (domains : gmap cell (list Z)) (assignment : gmap cell Z) :
  (select_unassigned_var self domains assignment = Raise KeyError
   ↔ ∃ u, u ∈ variables self ∧ assignment !! u = None ∧ domains !! u = None) ∧
  (select_unassigned_var self domains assignment = Raise ValueError
   ↔ ∀ u, u ∈ variables self → is_Some (assignment !! u)) ∧
  (∀ x, select_unassigned_var self domains assignment = Raise x →
        x = KeyError ∨ x = ValueError).
Proof.
  assert (Hnil : unassigned self assignment = []
                 ↔ ∀ u, u ∈ variables self → is_Some (assignment !! u)).
  { split.
    - intros Hn u Hu. destruct (assignment !! u) eqn:Ha; [by eexists|].
      assert (u ∈ unassigned self assignment) as Hin
        by by apply elem_of_unassigned.
      rewrite Hn in Hin. by apply elem_of_nil in Hin.
    - intros Hall. destruct (unassigned self assignment) as [|u l] eqn:Hun; [done|].
      assert (u ∈ unassigned self assignment) as Hin by (rewrite Hun; by left).
      apply elem_of_unassigned in Hin as [Hu Ha].
      destruct (Hall u Hu) as [? ?]. congruence. }
  rewrite <- Hnil. unfold select_unassigned_var.
  destruct (decide (Exists (λ u, domains !! u = None) (unassigned self assignment)))
    as [Hex|Hex].
  - rewrite (mapM_Raise _ KeyError).
    + cbn. split_and!.
      * split; [|done]. intros _.
        apply Exists_exists in Hex as (u & [Hu Ha]%elem_of_unassigned & Hd).
        by exists u.
      * split; [done|]. intros Hn. rewrite Hn in Hex. by apply Exists_nil in Hex.
      * intros x [= <-]. by left.
    + intros u y _. unfold mrv_key. destruct (domains !! u); [done|].
      by intros [= <-].
    + eapply Exists_impl; [exact Hex|]. intros u Hu. exists KeyError.
      unfold mrv_key. by rewrite Hu.
  - destruct (mapM_Ok (mrv_key self domains assignment)
                (unassigned self assignment)) as [keyed Hk].
    { apply Forall_forall. intros u Hu. unfold mrv_key.
      destruct (domains !! u) eqn:Hd; [by eexists|].
      exfalso. apply Hex, Exists_exists. by exists u. }
    rewrite Hk. cbn. pose proof (mapM_Ok_length _ _ _ Hk) as Hlen.
    assert (Hno : ¬ ∃ u, u ∈ variables self ∧ assignment !! u = None
                         ∧ domains !! u = None).
    { intros (u & Hu & Ha & Hd). apply Hex, Exists_exists. exists u.
      split; [|done]. by apply elem_of_unassigned. }
    destruct keyed as [|k0 keyed].
    + split_and!.
      * split; [done|]. intros ?. by destruct Hno.
      * split; [|done]. intros _. by apply nil_length_inv.
      * intros x [= <-]. by right.
    + split_and!.
      * split; [done|]. intros ?. by destruct Hno.
      * split; [done|]. intros Hn. by rewrite Hn in Hlen.
      * done.
Qed.


(** * More on forward checking *)

Lemma py_remove_perm (v : Z) (d : list Z) :
  v ∈ d → d ≡ₚ v :: py_remove v d.
Proof.
  induction d as [|y d IH]; [by intros ?%elem_of_nil|].
  cbn [py_remove]. destruct (decide (y = v)) as [->|Hne]; [done|].
  intros [?|Hin]%elem_of_cons; [congruence|].
  rewrite (IH Hin) at 1. apply Permutation_swap.
Qed.

(** What the loop does to the two dicts: under every key the removal
    record grows by copies of [value], as many as the domain lost. *)
Lemma recorded_refl (var : cell) (value : Z) (nd rm : gmap cell (list Z))
    (k : cell) :
  recorded var value nd rm (Some nd) rm k.
Proof.
  exists []. split_and!; [done|done| |].
  - destruct (rm !! k); cbn; [|done]. by rewrite app_nil_r.
  - intros nd' [= <-]. destruct (nd !! k) as [dk|]; [|done].
    exists dk. by rewrite app_nil_r.
Qed.

Lemma recorded_wipe_out (var : cell) (value : Z) (nd rm : gmap cell (list Z))
    (k : cell) :
  recorded var value nd rm None rm k.
Proof.
  exists []. split_and!; [done|done| |done].
  destruct (rm !! k); cbn; [|done]. by rewrite app_nil_r.
Qed.

(** One removal, recorded, in front of a recorded run. *)
Lemma recorded_step (var : cell) (value : Z) (nd rm : gmap cell (list Z))
    (ond : option (gmap cell (list Z))) (rm' : gmap cell (list Z))
    (rc : cell) (d r : list Z) (k : cell) :
  rc ≠ var → nd !! rc = Some d → rm !! rc = Some r → value ∈ d →
  recorded var value (<[rc := py_remove value d]> nd)
           (<[rc := r ++ [value]]> rm) ond rm' k →
  recorded var value nd rm ond rm' k.
Proof.
  intros Hrc Hd Hr Hin (r' & Hall & Hvar & Hrm & Hnd).
  destruct (decide (k = rc)) as [->|Hne].
  - rewrite lookup_insert_eq in Hrm. exists (value :: r'). split_and!.
    + by constructor.
    + intros ->. done.
    + rewrite Hr, Hrm. cbn. by rewrite <- app_assoc.
    + intros nd' Hnd'. specialize (Hnd nd' Hnd').
      rewrite lookup_insert_eq in Hnd. rewrite Hd.
      destruct Hnd as (dk' & Hdk' & Hperm). exists dk'. split; [done|].
      rewrite (py_remove_perm value d Hin), Hperm.
      by rewrite Permutation_middle.
  - rewrite lookup_insert_ne in Hrm by done. exists r'.
    split_and!; [done..|]. intros nd' Hnd'. specialize (Hnd nd' Hnd').
    by rewrite lookup_insert_ne in Hnd by done.
Qed.

Lemma fc_loop_records (bs : Z) (var : cell) (value : Z) (vars : list cell) :
  ∀ (nd rm : gmap cell (list Z)) (ond : option (gmap cell (list Z)))
    (rm' : gmap cell (list Z)),
    fc_loop bs var value vars nd rm = Ok (ond, rm') →
    ∀ k, recorded var value nd rm ond rm' k.
Proof.
  induction vars as [|rc vars IH]; intros nd rm ond rm' Hloop; cbn [fc_loop] in Hloop.
  - injection Hloop as <- <-. intros k. apply recorded_refl.
  - case_bool_decide as Hrc; [by eapply IH|].
    destruct (same_unit bs rc var); [|by eapply IH].
    destruct (nd !! rc) as [d|] eqn:Hd; [|done].
    destruct (py_in value d) eqn:Hin.
    + destruct (rm !! rc) as [r|] eqn:Hr; [|done]. cbv zeta in Hloop.
      apply py_in_true in Hin. intros k.
      apply (recorded_step _ _ _ _ _ _ rc d r); [done..|].
      destruct (py_remove value d) as [|y d'] eqn:Hd'.
      * injection Hloop as <- <-. apply recorded_wipe_out.
      * by eapply IH.
    + destruct d as [|y d'].
      * injection Hloop as <- <-. intros k. apply recorded_wipe_out.
      * by eapply IH.
Qed.

(** X4: whenever [forward_check] returns (success or wipe-out), the
    removal record has the keys of [domains]; under every key other than
    [var] it holds copies of [value] only, and on success the domain given
    for that key is, up to order, the returned domain together with what
    the record holds: nothing leaves a domain without being recorded.  On
    success the returned map has [[value]] under [var] and the keys of
    [domains] and [var], and the record under [var] is empty. *)
Theorem forward_check_records_removals (self : SudokuCSP) (var : cell)
    (value : Z) (domains : gmap cell (list Z))
    (ond : option (gmap cell (list Z))) (removed : gmap cell (list Z)) :
  forward_check self var value domains = Ok (ond, removed) →
  dom removed = dom domains ∧
  (is_Some (domains !! var) → removed !! var = Some []) ∧
  (∀ nd, ond = Some nd →
         nd !! var = Some [value] ∧ dom nd = {[ var ]} ∪ dom domains) ∧
  ∀ k dk, domains !! k = Some dk → k ≠ var →
    ∃ r, removed !! k = Some r ∧ Forall (λ x, x = value) r ∧
         ∀ nd, ond = Some nd → ∃ dk', nd !! k = Some dk' ∧ dk ≡ₚ dk' ++ r.
Proof.
  unfold forward_check. intros Hfc.
  pose proof (fc_loop_records _ _ _ _ _ _ _ _ Hfc) as Hrec.
  split_and!.
  - apply set_eq. intros k. rewrite !elem_of_dom.
    destruct (Hrec k) as (r' & _ & _ & -> & _).
    rewrite lookup_fmap. destruct (domains !! k); cbn; split; intros [? ?]; done.
  - intros [dv Hdv]. destruct (Hrec var) as (r' & _ & Hvar & -> & _).
    rewrite lookup_fmap, Hdv, (Hvar eq_refl). done.
  - intros nd ->. split.
    + destruct (Hrec var) as (r' & _ & Hvar & _ & Hnd).
      specialize (Hnd nd eq_refl). rewrite lookup_insert_eq in Hnd.
      destruct Hnd as (dk' & Hdk' & Hperm). rewrite (Hvar eq_refl), app_nil_r in Hperm.
      symmetry in Hperm. apply Permutation_singleton_r in Hperm. by subst.
    + apply set_eq. intros k.
      rewrite elem_of_union, elem_of_singleton, !elem_of_dom.
      destruct (Hrec k) as (r' & _ & _ & _ & Hnd). specialize (Hnd nd eq_refl).
      destruct (decide (k = var)) as [->|Hne].
      * rewrite lookup_insert_eq in Hnd. destruct Hnd as (dk' & -> & _).
        split; [by left|by eexists].
      * rewrite lookup_insert_ne in Hnd by done.
        destruct (domains !! k) as [dk|] eqn:Hk.
        -- destruct Hnd as (dk' & -> & _). split; [by right|by eexists].
        -- rewrite Hnd. split; [by intros [? ?]|]. intros [?|[? ?]]; done.
  - intros k dk Hk Hne. destruct (Hrec k) as (r' & Hall & _ & Hrm & Hnd).
    rewrite lookup_fmap, Hk in Hrm. cbn in Hrm.
    exists r'. split_and!; [done..|]. intros nd ->.
    specialize (Hnd nd eq_refl). rewrite lookup_insert_ne in Hnd by done.
    by rewrite Hk in Hnd.
Qed.

Lemma forward_check_records_removals_witness :
  dom ({[ (0, 1) := []; (0, 2) := [2] ]} : gmap cell (list Z))
  = dom ({[ (0, 1) := [2; 3]; (0, 2) := [2; 3] ]} : gmap cell (list Z)) ∧
  (is_Some (({[ (0, 1) := [2; 3]; (0, 2) := [2; 3] ]} : gmap cell (list Z)) !! (0, 1)) →
   ({[ (0, 1) := []; (0, 2) := [2] ]} : gmap cell (list Z)) !! (0, 1) = Some []) ∧
  (∀ nd, Some ({[ (0, 1) := [2]; (0, 2) := [3] ]} : gmap cell (list Z)) = Some nd →
         nd !! (0, 1) = Some [2] ∧
         dom nd = {[ (0, 1) ]}
                  ∪ dom ({[ (0, 1) := [2; 3]; (0, 2) := [2; 3] ]} : gmap cell (list Z))) ∧
  ∀ k dk, ({[ (0, 1) := [2; 3]; (0, 2) := [2; 3] ]} : gmap cell (list Z)) !! k = Some dk →
    k ≠ (0, 1) →
    ∃ r, ({[ (0, 1) := []; (0, 2) := [2] ]} : gmap cell (list Z)) !! k = Some r ∧
         Forall (λ x, x = 2) r ∧
         ∀ nd, Some ({[ (0, 1) := [2]; (0, 2) := [3] ]} : gmap cell (list Z)) = Some nd →
               ∃ dk', nd !! k = Some dk' ∧ dk ≡ₚ dk' ++ r.
Proof.
  apply (forward_check_records_removals two_gaps_engine (0, 1) 2
           {[ (0, 1) := [2; 3]; (0, 2) := [2; 3] ]}
           (Some {[ (0, 1) := [2]; (0, 2) := [3] ]})
           {[ (0, 1) := []; (0, 2) := [2] ]}).
  vm_compute. reflexivity.
Defined.

(** The loop raises nothing but the [KeyError] of a missing key. *)
Lemma fc_loop_Raise (bs : Z) (var : cell) (value : Z) (vars : list cell)
    (x : exn) :
  ∀ nd rm : gmap cell (list Z),
    fc_loop bs var value vars nd rm = Raise x →
    x = KeyError ∧
    ∃ n, n ∈ vars ∧ n ≠ var ∧ same_unit bs n var = true ∧
         (nd !! n = None ∨ rm !! n = None).
Proof.
  induction vars as [|rc vars IH]; intros nd rm Hloop; cbn [fc_loop] in Hloop;
    [done|].
  assert (Hskip : fc_loop bs var value vars nd rm = Raise x →
    x = KeyError ∧
    ∃ n, n ∈ rc :: vars ∧ n ≠ var ∧ same_unit bs n var = true ∧
         (nd !! n = None ∨ rm !! n = None)).
  { intros Hl. destruct (IH _ _ Hl) as (-> & n & Hn & Hrest').
    split; [done|]. exists n. split; [by right|done]. }
  case_bool_decide as Hrc; [by apply Hskip|].
  destruct (same_unit bs rc var) eqn:Hsu; [|by apply Hskip].
  destruct (nd !! rc) as [d|] eqn:Hd.
  2: { injection Hloop as <-. split; [done|]. exists rc.
       split; [by left|]. split; [done|]. split; [done|]. by left. }
  destruct (py_in value d).
  - destruct (rm !! rc) as [r|] eqn:Hr.
    2: { injection Hloop as <-. split; [done|]. exists rc.
         split; [by left|]. split; [done|]. split; [done|]. by right. }
    cbv zeta in Hloop. destruct (py_remove value d); [done|].
    destruct (IH _ _ Hloop) as (-> & n & Hn & Hne & Hsun & Hmiss).
    split; [done|]. exists n. split; [by right|]. split; [done|]. split; [done|].
    destruct (decide (n = rc)) as [->|Hnrc].
    + rewrite !lookup_insert_eq in Hmiss. by destruct Hmiss.
    + by rewrite !lookup_insert_ne in Hmiss by done.
  - destruct d; [done|]. by apply Hskip.
Qed.

(** X5: [forward_check] raises nothing but a [KeyError], and only when
    some variable other than [var] in the row, column or box of [var] has
    no domain in [domains]; with a domain for every variable it returns.
    ([var] itself needs no domain: its entry is written, not read.) *)
Theorem forward_check_raises_only_KeyError (self : SudokuCSP) (var : cell)
    (value : Z) (domains : gmap cell (list Z)) :
  (∀ x, forward_check self var value domains = Raise x →
        x = KeyError ∧
        ∃ n, n ∈ variables self ∧ n ≠ var ∧
             same_unit (box_size self) n var = true ∧ domains !! n = None) ∧
  ((∀ n, n ∈ variables self → n ≠ var → is_Some (domains !! n)) →
   ∃ ond removed, forward_check self var value domains = Ok (ond, removed)).
Proof.
  assert (Hr : ∀ x, forward_check self var value domains = Raise x →
        x = KeyError ∧
        ∃ n, n ∈ variables self ∧ n ≠ var ∧
             same_unit (box_size self) n var = true ∧ domains !! n = None).
  { intros x Hx. unfold forward_check in Hx.
    destruct (fc_loop_Raise _ _ _ _ _ _ _ Hx) as (-> & n & Hn & Hne & Hsu & Hmiss).
    split; [done|]. exists n. split_and!; [done..|].
    rewrite lookup_insert_ne, lookup_fmap in Hmiss by done.
    destruct Hmiss as [?|Hm]; [done|]. by destruct (domains !! n). }
  split; [done|]. intros Hall.
  destruct (forward_check self var value domains) as [[ond rm]|x] eqn:Hfc;
    [by eauto|].
  destruct (Hr x eq_refl) as (_ & n & Hn & Hne & _ & Hnone).
  destruct (Hall n Hn Hne) as [? ?]. congruence.
Qed.


(** * More on the search *)

(** The drained generator is a derivation, whatever its arguments. *)
Lemma backtrack_generator_node_run (self : SudokuCSP)
    (domains : option (gmap cell (list Z))) (assignment : option (gmap cell Z))
    (d : gmap cell (list Z)) :
  match domains with None => default_domains self | Some d' => Ok d' end = Ok d →
  node_run self d (default ∅ assignment) (counters self)
           (backtrack_generator self domains assignment).
Proof.
  intros Hd. unfold backtrack_generator. rewrite Hd.
  assert (match assignment with None => ∅ | Some a => a end
          = default ∅ assignment) as -> by by destruct assignment.
  apply search_node_run. apply search_total. unfold depth_bound. lia.
Qed.

Lemma backtrack_generator_Returned (self : SudokuCSP)
    (domains : option (gmap cell (list Z))) (assignment : option (gmap cell Z)) :
  ending_of (backtrack_generator self domains assignment) = Returned →
  ∃ d, node_run self d (default ∅ assignment) (counters self)
                (backtrack_generator self domains assignment).
Proof.
  intros He.
  destruct (match domains with None => default_domains self | Some d' => Ok d' end)
    as [d|x] eqn:Hd.
  - exists d. by apply backtrack_generator_node_run.
  - unfold backtrack_generator in He. by rewrite Hd in He.
Qed.

(** X6: a drain of the generator that returns leaves the assignment dict
    that it was given (and works on in place) with the content it had at
    the call, for every engine, domain map and assignment. *)
Theorem drained_generator_restores_assignment (self : SudokuCSP)
    (domains : option (gmap cell (list Z))) (assignment : option (gmap cell Z)) :
  ending_of (backtrack_generator self domains assignment) = Returned →
  final_assignment (backtrack_generator self domains assignment)
  = default ∅ assignment.
Proof.
  intros He. destruct (backtrack_generator_Returned _ _ _ He) as [d Hrun].
  by eapply node_run_restores.
Qed.

Lemma drained_generator_restores_assignment_witness :
  final_assignment
    (backtrack_generator sample_engine
       (Some (initial_domains sample_engine)) (Some {[ (1, 0) := 1 ]}))
  = default ∅ (Some {[ (1, 0) := 1 ]}).
Proof.
  apply (drained_generator_restores_assignment sample_engine
           (Some (initial_domains sample_engine)) (Some {[ (1, 0) := 1 ]})).
  vm_compute. reflexivity.
Defined.

(** Every assignment is undone, and every undoing counts one backtrack. *)
Lemma node_run_balanced (self : SudokuCSP) d a st r :
  node_run self d a st r →
  ending_of r = Returned →
  count_events is_assign (events r) = count_events is_unassign (events r) ∧
  backtracks (final_stats r) = backtracks st + count_events is_unassign (events r).
Proof.
  intros H. induction H using node_run_mut with
    (P0 := λ var d values a st r,
       ending_of r = Returned →
       count_events is_assign (events r) = count_events is_unassign (events r) ∧
       backtracks (final_stats r)
       = backtracks st + count_events is_unassign (events r));
    simpl in *; rewrite ?count_events_app in *; simpl in *; try done;
    intros He;
    repeat match goal with
           | H : ending_of _ = Returned → _ |- _ => specialize (H ltac:(assumption))
           end;
    repeat match goal with H : _ ∧ _ |- _ => destruct H end;
    split; lia.
Qed.

(** X8: in a drain that returns, the [assign] events and the [unassign]
    events are equally many, and [backtracks] has grown by that number:
    the search undoes every assignment it makes and counts each undoing,
    whether forward checking refused the value or the subtree under it
    was left. *)
Theorem assign_events_are_undone (self : SudokuCSP)
    (domains : option (gmap cell (list Z))) (assignment : option (gmap cell Z)) :
  let r := backtrack_generator self domains assignment in
  ending_of r = Returned →
  count_events is_assign (events r) = count_events is_unassign (events r) ∧
  backtracks (final_stats r)
  = backtracks (counters self) + count_events is_unassign (events r).
Proof.
  intros r He. destruct (backtrack_generator_Returned _ _ _ He) as [d Hrun].
  by eapply node_run_balanced.
Qed.

Lemma assign_events_are_undone_witness :
  count_events is_assign (events (backtrack_generator sample_engine None None))
  = count_events is_unassign (events (backtrack_generator sample_engine None None)) ∧
  backtracks (final_stats (backtrack_generator sample_engine None None))
  = backtracks (counters sample_engine)
    + count_events is_unassign (events (backtrack_generator sample_engine None None)).
Proof.
  apply (assign_events_are_undone sample_engine None None).
  vm_compute. reflexivity.
Defined.

Lemma count_solutions_of (evs : list event) :
  count_events is_solution evs = Z.of_nat (length (solutions_of evs)).
Proof.
  unfold solutions_of, omap. induction evs as [|e evs IH]; [done|].
  destruct e; cbn [count_events is_solution]; rewrite IH; simpl; lia.
Qed.

(** X7: on a well-formed board the full drain returns and its solution
    events carry every completion of the board, each exactly once, and
    nothing else; the [solutions] counter ends as the number of
    completions. *)
Theorem search_enumerates_completions (board : list (list Z))
    (self : SudokuCSP) :
  well_formed board = true →
  __init__ (Z.of_nat (length board)) (Some board) = Ok self →
  let r := backtrack_generator self None None in
  ending_of r = Returned ∧
  NoDup (solutions_of (events r)) ∧
  (∀ s, s ∈ solutions_of (events r) ↔ completion board s) ∧
  solutions (final_stats r) = Z.of_nat (length (solutions_of (events r))).
Proof.
  intros Hwf Hi r.
  destruct (well_formed_solutions board self Hwf Hi) as (Hret & Hnd & Hiff).
  split_and!; [done..|].
  destruct (init_default_run _ _ _ Hi) as (d & _ & _ & Hrun & _).
  destruct (node_run_counters _ _ _ _ _ Hrun) as (_ & Hsol & _).
  fold r in Hsol. rewrite Hsol. cbn. apply count_solutions_of.
Qed.

Lemma search_enumerates_completions_witness :
  let r := backtrack_generator two_gaps_engine None None in
  ending_of r = Returned ∧
  NoDup (solutions_of (events r)) ∧
  (∀ s, s ∈ solutions_of (events r) ↔ completion two_gaps_board s) ∧
  solutions (final_stats r) = Z.of_nat (length (solutions_of (events r))).
Proof.
  apply (search_enumerates_completions two_gaps_board two_gaps_engine);
    vm_compute; reflexivity.
Defined.

(** X9: on a board of [n] rows of [n] entries none of which is empty,
    [is_valid_puzzle] answers true after the first event, whatever the
    entries are: the engine has no variable, the search yields the empty
    assignment as its one solution, and the filled cells are never checked
    against each other. *)
Theorem is_valid_puzzle_full_board (board : list (list Z)) :
  covers_grid (Z.of_nat (length board)) board = true →
  filter (λ rc, cell_val board rc = 0) (cells (Z.of_nat (length board))) = [] →
  is_valid_puzzle board = (Some (Ok true), 1%nat).
Proof.
  intros Hcov Hfull. unfold is_valid_puzzle.
  destruct (init_ok (Z.of_nat (length board)) (Some board)) as (self & -> & Hef);
    [lia|done|].
  pose proof (ef_variables _ _ _ Hef) as Hvars. rewrite Hfull in Hvars.
  unfold backtrack_generator, default_domains, depth_bound, unassigned.
  rewrite Hvars. cbn [foldl filter list_filter length search].
  rewrite bool_decide_eq_true_2 by (by rewrite Hvars).
  reflexivity.
Qed.

Lemma is_valid_puzzle_full_board_witness :
  is_valid_puzzle [[1; 1]; [1; 1]] = (Some (Ok true), 1%nat).
Proof.
  apply (is_valid_puzzle_full_board [[1; 1]; [1; 1]]); vm_compute; reflexivity.
Defined.

(** The variable that [select_unassigned_var] returns has a domain no
    longer than that of any unassigned variable. *)
Lemma select_unassigned_var_smallest (self : SudokuCSP)
    (d : gmap cell (list Z)) (a : gmap cell Z) (var : cell) :
  select_unassigned_var self d a = Ok var →
  ∃ dv, d !! var = Some dv ∧
        ∀ u du, u ∈ unassigned self a → d !! u = Some du →
                (length dv ≤ length du)%nat.
Proof.
  unfold select_unassigned_var.
  destruct (mapM _ _) as [keyed|x] eqn:Hk; cbn; [|done].
  pose proof (mapM_Ok_inv _ _ _ Hk) as HF.
  destruct keyed as [|x rest]; [done|]. intros [= <-].
  destruct (py_min_spec x rest) as (m & Hm & -> & Hall).
  apply list_elem_of_lookup in Hm as [i Hi].
  destruct (Forall2_lookup_r _ _ _ _ _ HF Hi) as (v & Hv & Hfv).
  unfold mrv_key in Hfv. destruct (d !! v) as [dv|] eqn:Hdv; [|done].
  injection Hfv as <-. cbn [fst]. exists dv. split; [done|].
  intros u du Hu Hdu. apply list_elem_of_lookup in Hu as [j Hj].
  destruct (Forall2_lookup_l _ _ _ _ _ HF Hj) as (y & Hy & Hfy).
  unfold mrv_key in Hfy. rewrite Hdu in Hfy. injection Hfy as <-.
  assert (key_lt (Z.of_nat (length du), - _count_constraints self u a)
                 (Z.of_nat (length dv), - _count_constraints self v a)
          = false) as Hlt.
  { apply (Hall (u, _)). apply list_elem_of_lookup. eauto. }
  apply key_lt_false in Hlt. cbn in Hlt. lia.
Qed.

(** X10: at a call where some variable is still to assign, every
    unassigned variable has a domain and one of them has an empty domain,
    the generator selects a variable with an empty domain, yields its
    [mrv] and [lcv] events with nothing to try, and returns: one node
    counted, no assignment made, no solution. *)
Theorem empty_domain_is_a_dead_end (self : SudokuCSP)
    (d : gmap cell (list Z)) (a : gmap cell Z) :
  base.size a ≠ length (variables self) →
  Forall (λ u, is_Some (d !! u)) (unassigned self a) →
  Exists (λ u, d !! u = Some []) (unassigned self a) →
  ∃ var,
    var ∈ variables self ∧ a !! var = None ∧ d !! var = Some [] ∧
    backtrack_generator self (Some d) (Some a)
    = Run [Mrv var []; Lcv var []] (bump_nodes (counters self)) a Returned.
Proof.
  intros Hsize Hall Hex.
  destruct (select_unassigned_var self d a) as [var|x] eqn:Hsel.
  2: { apply select_unassigned_var_Raise in Hsel as [Hnil|(u & Hu & Hn)].
       - rewrite Hnil in Hex. by apply Exists_nil in Hex.
       - rewrite Forall_forall in Hall. destruct (Hall u Hu) as [? ?]. congruence. }
  destruct (select_unassigned_var_smallest _ _ _ _ Hsel) as (dv & Hdv & Hmin).
  apply Exists_exists in Hex as (u & Hu & Hempty).
  specialize (Hmin u [] Hu Hempty). destruct dv; [|cbn in Hmin; lia].
  pose proof (select_unassigned_var_Ok _ _ _ _ Hsel) as (Hvar & Ha & _).
  exists var. split_and!; [done..|].
  unfold backtrack_generator, depth_bound. cbn [search].
  rewrite bool_decide_eq_false_2 by done. rewrite Hsel, Hdv.
  unfold order_domain_values. rewrite Hdv. reflexivity.
Qed.

Lemma empty_domain_is_a_dead_end_witness :
  ∃ var,
    var ∈ variables sample_engine ∧
    (∅ : gmap cell Z) !! var = None ∧
    <[(2, 2) := []]> (initial_domains sample_engine) !! var = Some [] ∧
    backtrack_generator sample_engine
      (Some (<[(2, 2) := []]> (initial_domains sample_engine))) (Some ∅)
    = Run [Mrv var []; Lcv var []] (bump_nodes (counters sample_engine)) ∅ Returned.
Proof.
  apply (empty_domain_is_a_dead_end sample_engine
           (<[(2, 2) := []]> (initial_domains sample_engine)) ∅).
  - vm_compute. done.
  - apply (bool_decide_unpack _). vm_compute. exact I.
  - apply (bool_decide_unpack _). vm_compute. exact I.
Defined.

(** X13: on an engine that the constructor built, [is_consistent] raises
    exactly when the size is 0 (the box size is then 0 and the box corner
    divides by it: a [ZeroDivisionError]); for every other size it
    returns, for every cell, value and assignment, inside the grid or
    not. *)
Theorem is_consistent_raises_on_size_0 (n : Z) (board : option (list (list Z)))
    (self : SudokuCSP) (var : cell) (value : Z) (a : gmap cell Z) :
  __init__ n board = Ok self →
  (n = 0 → is_consistent self var value a = Raise ZeroDivisionError) ∧
  (n ≠ 0 → ∃ b, is_consistent self var value a = Ok b).
Proof.
  intros Hi. pose proof (init_inv _ _ _ Hi) as [Hn Hcov].
  destruct (init_ok n board Hn Hcov) as (self' & Hi' & Hef).
  rewrite Hi in Hi'. injection Hi' as <-.
  pose proof (ef_size _ _ _ Hef) as Hsize.
  pose proof (ef_box_size _ _ _ Hef) as Hbs.
  split.
  - intros ->. unfold is_consistent. rewrite Hsize, Hbs. reflexivity.
  - intros Hne. destruct (is_consistent_spec self var value a) as (b & Hb & _).
    + rewrite Hbs. apply Z.sqrt_pos. lia.
    + by exists b.
Qed.

Lemma is_consistent_raises_on_size_0_witness :
  (0 = 0 →
   is_consistent (Engine 0 0 [] ∅ [] (Stats 0 0 0)) (0, 0) 1 ∅
   = Raise ZeroDivisionError) ∧
  (0 ≠ 0 →
   ∃ b, is_consistent (Engine 0 0 [] ∅ [] (Stats 0 0 0)) (0, 0) 1 ∅ = Ok b).
Proof.
  apply (is_consistent_raises_on_size_0 0 (Some [])
           (Engine 0 0 [] ∅ [] (Stats 0 0 0)) (0, 0) 1 ∅).
  vm_compute. reflexivity.
Defined.


(** * The puzzle generator *)

(** ** Reading and writing by index *)

Lemma py_index_in_range {A} (l : list A) (i : Z) :
  0 ≤ i < Z.of_nat (length l) → py_index l i = Some (Z.to_nat i).
Proof.
  intros Hi. unfold py_index.
  destruct (Z.leb_spec 0 i); [|lia]. by destruct (Z.ltb_spec i (Z.of_nat (length l))); [|lia].
Qed.

Lemma get_item_Ok {A} (l : list A) (i : nat) (x : A) :
  l !! i = Some x → get_item l (Z.of_nat i) = Ok x.
Proof.
  intros Hx. unfold get_item. rewrite py_index_in_range.
  - cbn. by rewrite Nat2Z.id, Hx.
  - apply lookup_lt_Some in Hx. lia.
Qed.

(** A write inside the grid changes the cell written and no other. *)
Lemma set_cell_spec (n : Z) (board : list (list Z)) (rc : cell) (v : Z) :
  shaped n board → rc ∈ cells n →
  ∃ board', set_cell board rc v = Ok board' ∧ shaped n board' ∧
            ∀ k, k ∈ cells n →
                 cell_val board' k = if decide (k = rc) then v else cell_val board k.
Proof.
  intros [Hlen Hrows] [Hr Hc]%elem_of_cells. unfold set_cell.
  rewrite py_index_in_range by lia.
  destruct (lookup_lt_is_Some_2 board (Z.to_nat rc.1)) as [row Hrow]; [lia|].
  rewrite Hrow.
  assert (Hrlen : Z.of_nat (length row) = n).
  { rewrite Forall_forall in Hrows. apply Hrows. by eapply list_elem_of_lookup_2. }
  rewrite py_index_in_range by lia.
  eexists. split; [done|]. split.
  - split; [by rewrite length_insert|].
    apply Forall_insert; [done|]. by rewrite length_insert.
  - intros k [Hkr Hkc]%elem_of_cells. unfold cell_val, board_at.
    destruct (decide (Z.to_nat k.1 = Z.to_nat rc.1)) as [Heq|Hne].
    + rewrite Heq, list_lookup_insert_eq by lia.
      destruct (decide (Z.to_nat k.2 = Z.to_nat rc.2)) as [Heq2|Hne2].
      * rewrite Heq2, list_lookup_insert_eq by lia.
        rewrite decide_True; [done|].
        destruct k, rc. cbn in *. f_equal; lia.
      * rewrite list_lookup_insert_ne by done.
        rewrite decide_False by (intros ->; done).
        by rewrite Hrow.
    + rewrite list_lookup_insert_ne by done.
      by rewrite decide_False by (intros ->; done).
Qed.

Lemma set_step_Raise (ws : list (cell * Z)) (x : exn) :
  foldl set_step (Raise x) ws = Raise x.
Proof. induction ws; cbn; auto. Qed.

(** Writes to different cells of the grid, in any order: every cell
    written holds its value, every other cell what it held. *)
Lemma set_cells_spec (n : Z) (ws : list (cell * Z)) :
  ∀ board : list (list Z),
    shaped n board → Forall (λ w, w.1 ∈ cells n) ws → NoDup ws.*1 →
    ∃ board', foldl set_step (Ok board) ws = Ok board' ∧ shaped n board' ∧
              ∀ k, k ∈ cells n →
                   cell_val board' k
                   = default (cell_val board k)
                             ((list_to_map ws : gmap cell Z) !! k).
Proof.
  induction ws as [|[rc v] ws IH]; intros board Hsh Hin Hnd.
  - exists board. by split_and!.
  - apply Forall_cons in Hin as [Hrc Hin]. cbn in Hrc, Hnd.
    apply NoDup_cons in Hnd as [Hnotin Hnd].
    destruct (set_cell_spec n board rc v Hsh Hrc) as (b1 & Hset & Hsh1 & Hval1).
    destruct (IH b1 Hsh1 Hin Hnd) as (b' & Hfold & Hsh' & Hval').
    exists b'. split_and!; [|done|].
    + cbn [foldl]. unfold set_step at 2. cbn [mbind res_bind fst snd].
      by rewrite Hset.
    + intros k Hk. rewrite (Hval' k Hk), (Hval1 k Hk).
      cbn [list_to_map foldr curry fst snd].
      destruct (decide (k = rc)) as [->|Hne].
      * rewrite lookup_insert_eq.
        by rewrite (not_elem_of_list_to_map_1 _ _ Hnotin).
      * by rewrite lookup_insert_ne.
Qed.

(** ** The three loops as lists of writes *)

Lemma fill_step_writes (s : gmap cell Z) (l : list cell) :
  ∀ acc, foldl (fill_step s) acc l
         = foldl set_step acc (omap (λ rc, pair rc <$> s !! rc) l).
Proof.
  induction l as [|rc l IH]; intros acc; [done|]. cbn [foldl].
  rewrite IH. unfold fill_step.
  assert (omap (λ rc, pair rc <$> s !! rc) (rc :: l)
          = match s !! rc with
            | Some v => (rc, v) :: omap (λ rc, pair rc <$> s !! rc) l
            | None => omap (λ rc, pair rc <$> s !! rc) l
            end) as -> by (cbn; by destruct (s !! rc)).
  destruct (s !! rc) as [v|]; cbn [foldl]; [done|]. by destruct acc.
Qed.

Lemma blank_step_writes (cs : list cell) (m : nat) :
  (m ≤ length cs)%nat →
  ∀ acc, foldl (blank_step cs) acc (seqZ 0 (Z.of_nat m))
         = foldl set_step acc ((λ rc, (rc, 0)) <$> take m cs).
Proof.
  induction m as [|m IH]; intros Hm acc; [done|].
  destruct (lookup_lt_is_Some_2 cs m) as [rc Hrc]; [lia|].
  rewrite seqZ_S, (take_S_r _ _ _ Hrc), fmap_app, !foldl_app, IH by lia.
  cbn [foldl fmap list_fmap]. unfold blank_step, set_step.
  destruct (foldl _ acc _) as [board|x]; cbn [mbind res_bind]; [|done].
  rewrite Z.add_0_l, (get_item_Ok _ _ _ Hrc). done.
Qed.

Lemma seed_step_writes (bs j : Z) (nums : list Z) (l : list cell) :
  ∀ (i0 : nat) (acc : res (list (list Z))),
    (i0 + length l ≤ length nums)%nat →
    foldl (seed_step bs j nums) (board ← acc; Ok (board, Z.of_nat i0)) l
    = (board ← foldl set_step acc
                 (zip ((λ rc, (j * bs + rc.1, j * bs + rc.2)) <$> l)
                      (drop i0 nums));
       Ok (board, Z.of_nat (i0 + length l))).
Proof.
  induction l as [|rc l IH]; intros i0 acc Hlen.
  - cbn. by rewrite Nat.add_0_r.
  - cbn [length] in Hlen.
    destruct (lookup_lt_is_Some_2 nums i0) as [x Hx]; [lia|].
    rewrite (drop_S _ _ _ Hx). cbn [fmap list_fmap zip zip_with foldl].
    replace (i0 + length (rc :: l))%nat with (S i0 + length l)%nat
      by (cbn [length]; lia).
    rewrite <- (IH (S i0)) by lia. f_equal.
    destruct acc as [board|e]; cbn [mbind res_bind]; [|done].
    unfold seed_step, set_step. cbn [mbind res_bind fst snd].
    rewrite (get_item_Ok _ _ _ Hx). cbn [mbind res_bind].
    destruct (set_cell board _ x); cbn [mbind res_bind]; [|done].
    do 2 f_equal. lia.
Qed.

Lemma shift_bind (a : Z) (rows cols : list Z) :
  (λ rc : cell, (a + rc.1, a + rc.2)) <$> (rows ≫= λ r, cols ≫= λ c, [(r, c)])
  = (Z.add a <$> rows) ≫= λ r, (Z.add a <$> cols) ≫= λ c, [(r, c)].
Proof.
  assert (Hrow : ∀ r : Z,
    (λ rc : cell, (a + rc.1, a + rc.2)) <$> (cols ≫= λ c, [(r, c)])
    = (Z.add a <$> cols) ≫= λ c, [(a + r, c)]).
  { intros r. induction cols as [|c l IH]; [done|].
    change ((c :: l) ≫= ?f) with (f c ++ l ≫= f).
    rewrite fmap_app, IH. done. }
  induction rows as [|r l IH]; [done|].
  change ((r :: l) ≫= ?f) with (f r ++ l ≫= f).
  rewrite fmap_app, IH, Hrow. done.
Qed.

Lemma rect_shift (bs j : Z) :
  (λ rc : cell, (j * bs + rc.1, j * bs + rc.2)) <$> cells bs
  = rect (j * bs) bs (j * bs) bs.
Proof.
  unfold cells, rect, range. rewrite shift_bind.
  by rewrite fmap_add_seqZ, Z.add_0_r.
Qed.

Lemma length_cells (n : Z) : length (cells n) = (Z.to_nat n * Z.to_nat n)%nat.
Proof. apply (length_rect 0 n 0 n). Qed.

Lemma seed_box_writes (bs : Z) (shuffled : Z → list Z) (j : Z)
    (acc : res (list (list Z))) :
  (Z.to_nat bs * Z.to_nat bs ≤ length (shuffled j))%nat →
  seed_box bs shuffled acc j
  = foldl set_step acc (zip (rect (j * bs) bs (j * bs) bs) (shuffled j)).
Proof.
  intros Hlen. unfold seed_box. destruct acc as [board|x]; cbn [mbind res_bind].
  2: { by rewrite set_step_Raise. }
  pose proof (seed_step_writes bs j (shuffled j) (cells bs) 0 (Ok board)) as H.
  cbn [mbind res_bind drop] in H. change (Z.of_nat 0) with 0 in H.
  rewrite H by (rewrite length_cells; lia).
  rewrite rect_shift, drop_0.
  match goal with |- (?m ≫= _) ≫= _ = _ => by destruct m end.
Qed.

Lemma seed_board_writes (n bs : Z) (shuffled : Z → list Z) :
  (∀ j, j ∈ range bs →
        (Z.to_nat bs * Z.to_nat bs ≤ length (shuffled j))%nat) →
  seed_board n bs shuffled
  = foldl set_step (Ok (empty_board n)) (seed_writes bs shuffled).
Proof.
  unfold seed_board, seed_writes.
  generalize (Ok (empty_board n) : res (list (list Z))).
  induction (range bs) as [|j l IH]; intros acc Hlen; [done|].
  change ((j :: l) ≫= ?f) with (f j ++ l ≫= f).
  rewrite foldl_app. cbn [foldl]. rewrite IH.
  - f_equal. apply seed_box_writes, Hlen. by left.
  - intros j' Hj'. apply Hlen. by right.
Qed.

(** ** The seeded board *)

Lemma fmap_bind_list {A B C} (f : B → C) (g : A → list B) (l : list A) :
  f <$> (l ≫= g) = l ≫= λ x, f <$> g x.
Proof.
  induction l as [|x l IH]; [done|].
  change ((x :: l) ≫= ?h) with (h x ++ l ≫= h). by rewrite fmap_app, IH.
Qed.

Lemma bind_ext_in {A B} (f g : A → list B) (l : list A) :
  (∀ x, x ∈ l → f x = g x) → l ≫= f = l ≫= g.
Proof.
  induction l as [|x l IH]; intros H; [done|].
  change ((x :: l) ≫= ?h) with (h x ++ l ≫= h).
  rewrite (H x) by left. rewrite IH; [done|]. intros y Hy. apply H. by right.
Qed.

Lemma shaped_empty_board (n : Z) : 0 ≤ n → shaped n (empty_board n).
Proof.
  intros Hn. unfold shaped, empty_board, range. split.
  - rewrite length_fmap, length_seqZ. lia.
  - apply Forall_fmap, Forall_forall. intros r _. cbn.
    rewrite length_fmap, length_seqZ. lia.
Qed.

Lemma cell_val_empty_board (n : Z) (k : cell) :
  k ∈ cells n → cell_val (empty_board n) k = 0.
Proof. intros Hk. unfold cell_val. by rewrite empty_board_at. Qed.

(** From the properties of a well-formed board back to the test. *)
Lemma well_formed_intro (board : list (list Z)) :
  let n := Z.of_nat (length board) in
  0 < n → Z.sqrt n * Z.sqrt n = n →
  Forall (λ row, Z.of_nat (length row) = n) board →
  (∀ rc, rc ∈ cells n → 0 ≤ cell_val board rc ≤ n) →
  (∀ p q, p ∈ cells n → q ∈ cells n → p ≠ q → cell_val board p ≠ 0 →
          same_unit (Z.sqrt n) p q = true →
          cell_val board p ≠ cell_val board q) →
  well_formed board = true.
Proof.
  intros n Hpos Hsq Hrows Hvals Hcons. unfold well_formed, is_square, filled_consistent.
  fold n. rewrite !andb_true_iff. split_and!.
  - by apply Z.ltb_lt.
  - by apply Z.eqb_eq.
  - apply forallb_elem_of. intros row Hrow. apply bool_decide_eq_true.
    rewrite Forall_forall in Hrows. specialize (Hrows row Hrow). lia.
  - apply forallb_elem_of. intros rc Hrc. specialize (Hvals rc Hrc).
    apply andb_true_iff. split; [apply Z.leb_le|apply Z.leb_le]; lia.
  - apply forallb_elem_of. intros p Hp. apply forallb_elem_of. intros q Hq.
    rewrite !orb_true_iff.
    destruct (decide (p = q)) as [->|Hne]; [left; left; left; by apply bool_decide_eq_true|].
    destruct (Z.eqb_spec (cell_val board p) 0) as [?|Hfilled]; [by left; left; right|].
    destruct (same_unit (Z.sqrt n) p q) eqn:Hsu; [|by left; right].
    right. apply negb_true_iff, Z.eqb_neq. by apply Hcons.
Qed.

Section seeding.
Context (b : Z) (shuffled : Z → list Z).
Hypothesis Hb : 0 < b.
Hypothesis Hshuffled : Forall (λ j, shuffled j ≡ₚ seqZ 1 (b * b)) (range b).

Lemma shuffled_length j :
  j ∈ range b → length (shuffled j) = (Z.to_nat b * Z.to_nat b)%nat.
Proof.
  intros Hj. rewrite Forall_forall in Hshuffled.
  rewrite (Hshuffled j Hj), length_seqZ. lia.
Qed.

Lemma seed_writes_keys :
  (seed_writes b shuffled).*1 = range b ≫= λ j, rect (j * b) b (j * b) b.
Proof.
  unfold seed_writes. rewrite fmap_bind_list. apply bind_ext_in.
  intros j Hj. apply fst_zip. rewrite length_rect, (shuffled_length j Hj). lia.
Qed.

Lemma box_in_diagonal j k :
  k ∈ rect (j * b) b (j * b) b → k.1 / b = j ∧ k.2 / b = j.
Proof.
  intros [Hr Hc]%elem_of_rect.
  split; symmetry.
  - apply (Z.div_unique_pos k.1 b j (k.1 - j * b)); lia.
  - apply (Z.div_unique_pos k.2 b j (k.2 - j * b)); lia.
Qed.

Lemma diagonal_in_box k :
  k ∈ cells (b * b) → k.1 / b = k.2 / b →
  k.1 / b ∈ range b ∧ k ∈ rect (k.1 / b * b) b (k.1 / b * b) b.
Proof.
  intros [Hr Hc]%elem_of_cells Heq.
  pose proof (Z.div_mod k.1 b ltac:(lia)) as Hr'.
  pose proof (Z.mod_pos_bound k.1 b Hb) as Hr''.
  pose proof (Z.div_mod k.2 b ltac:(lia)) as Hc'.
  pose proof (Z.mod_pos_bound k.2 b Hb) as Hc''.
  split.
  - apply elem_of_range. split; [apply Z.div_pos; lia|].
    apply Z.div_lt_upper_bound; lia.
  - apply elem_of_rect. rewrite <- Heq in Hc'. lia.
Qed.

Lemma seed_writes_NoDup : NoDup (seed_writes b shuffled).*1.
Proof.
  rewrite seed_writes_keys. apply NoDup_bind.
  - intros j1 j2 k _ _ [H1 _]%box_in_diagonal [H2 _]%box_in_diagonal. congruence.
  - intros j _. apply NoDup_rect.
  - apply NoDup_seqZ.
Qed.

Lemma seed_writes_in_grid :
  Forall (λ w : cell * Z, w.1 ∈ cells (b * b)) (seed_writes b shuffled).
Proof.
  apply Forall_forall. intros w Hw.
  assert (w.1 ∈ (seed_writes b shuffled).*1) as Hk
    by (apply list_elem_of_fmap; by exists w).
  rewrite seed_writes_keys in Hk.
  apply list_elem_of_bind in Hk as (j & [Hr Hc]%elem_of_rect & Hj%elem_of_range).
  apply elem_of_cells. nia.
Qed.

(** A write of the seeding: a cell of a diagonal box and the item of the
    shuffled list at the position of the cell in the box. *)
Lemma elem_of_seed_writes k v :
  (k, v) ∈ seed_writes b shuffled ↔
  ∃ j i, j ∈ range b ∧ rect (j * b) b (j * b) b !! i = Some k
         ∧ shuffled j !! i = Some v.
Proof.
  unfold seed_writes. rewrite list_elem_of_bind. split.
  - intros (j & Hkv & Hj). exists j.
    apply elem_of_lookup_zip_with in Hkv as (i & k' & v' & [= -> ->] & Hk & Hv).
    by exists i.
  - intros (j & i & Hj & Hk & Hv). exists j. split; [|done].
    apply elem_of_lookup_zip_with. by exists i, k, v.
Qed.

Lemma seed_lookup_Some k v :
  (list_to_map (seed_writes b shuffled) : gmap cell Z) !! k = Some v
  ↔ (k, v) ∈ seed_writes b shuffled.
Proof. symmetry. apply elem_of_list_to_map, seed_writes_NoDup. Qed.

Lemma seed_lookup_None k :
  k.1 / b ≠ k.2 / b →
  (list_to_map (seed_writes b shuffled) : gmap cell Z) !! k = None.
Proof.
  intros Hk. apply not_elem_of_list_to_map_1.
  rewrite seed_writes_keys. intros (j & Hin & Hj)%list_elem_of_bind.
  apply box_in_diagonal in Hin as [H1 H2]. congruence.
Qed.

Lemma seeded_board :
  ∃ seeded,
    seed_board (b * b) b shuffled = Ok seeded ∧ shaped (b * b) seeded ∧
    ∀ k, k ∈ cells (b * b) →
         cell_val seeded k
         = default 0 ((list_to_map (seed_writes b shuffled) : gmap cell Z) !! k).
Proof.
  rewrite seed_board_writes by (intros j Hj; by rewrite shuffled_length).
  destruct (set_cells_spec (b * b) (seed_writes b shuffled) (empty_board (b * b)))
    as (seeded & Hfold & Hsh & Hval).
  - apply shaped_empty_board. lia.
  - apply seed_writes_in_grid.
  - apply seed_writes_NoDup.
  - exists seeded. split_and!; [done..|]. intros k Hk.
    by rewrite (Hval k Hk), cell_val_empty_board.
Qed.

(** The cells off the diagonal boxes are empty; a cell of a diagonal box
    holds the item of the shuffled list at its position in the box. *)
Lemma seeded_off_diagonal seeded k :
  (∀ k, k ∈ cells (b * b) →
        cell_val seeded k
        = default 0 ((list_to_map (seed_writes b shuffled) : gmap cell Z) !! k)) →
  k ∈ cells (b * b) → k.1 / b ≠ k.2 / b → cell_val seeded k = 0.
Proof. intros Hval Hk Hd. by rewrite (Hval k Hk), seed_lookup_None. Qed.

Lemma seeded_write seeded j i k v :
  (∀ k, k ∈ cells (b * b) →
        cell_val seeded k
        = default 0 ((list_to_map (seed_writes b shuffled) : gmap cell Z) !! k)) →
  j ∈ range b → rect (j * b) b (j * b) b !! i = Some k →
  shuffled j !! i = Some v → cell_val seeded k = v.
Proof.
  intros Hval Hj Hk Hv.
  assert ((k, v) ∈ seed_writes b shuffled) as Hw
    by (apply elem_of_seed_writes; by exists j, i).
  rewrite Hval.
  - by rewrite (proj2 (seed_lookup_Some k v) Hw).
  - pose proof seed_writes_in_grid as Hin. rewrite Forall_forall in Hin.
    apply (Hin _ Hw).
Qed.

Lemma seeded_on_diagonal seeded k :
  (∀ k, k ∈ cells (b * b) →
        cell_val seeded k
        = default 0 ((list_to_map (seed_writes b shuffled) : gmap cell Z) !! k)) →
  k ∈ cells (b * b) → k.1 / b = k.2 / b →
  ∃ i, rect (k.1 / b * b) b (k.1 / b * b) b !! i = Some k ∧
       shuffled (k.1 / b) !! i = Some (cell_val seeded k).
Proof.
  intros Hval Hk Hd. destruct (diagonal_in_box k Hk Hd) as [Hj Hin].
  apply list_elem_of_lookup in Hin as [i Hi]. exists i. split; [done|].
  destruct (lookup_lt_is_Some_2 (shuffled (k.1 / b)) i) as [v Hv].
  { rewrite (shuffled_length _ Hj), <- (length_rect (k.1 / b * b) b (k.1 / b * b) b).
    by eapply lookup_lt_Some. }
  by rewrite (seeded_write seeded _ _ _ _ Hval Hj Hi Hv).
Qed.

Lemma shuffled_range j v :
  j ∈ range b → v ∈ shuffled j → 1 ≤ v ≤ b * b.
Proof.
  intros Hj Hv. rewrite Forall_forall in Hshuffled.
  rewrite (Hshuffled j Hj) in Hv. apply elem_of_seqZ in Hv. lia.
Qed.

Lemma shuffled_NoDup j : j ∈ range b → NoDup (shuffled j).
Proof.
  intros Hj. rewrite Forall_forall in Hshuffled.
  rewrite (Hshuffled j Hj). apply NoDup_seqZ.
Qed.

Lemma seeded_well_formed seeded :
  shaped (b * b) seeded →
  (∀ k, k ∈ cells (b * b) →
        cell_val seeded k
        = default 0 ((list_to_map (seed_writes b shuffled) : gmap cell Z) !! k)) →
  well_formed seeded = true.
Proof.
  intros [Hlen Hrows] Hval.
  assert (Hsqrt : Z.sqrt (b * b) = b) by (apply Z.sqrt_square; lia).
  apply well_formed_intro; rewrite Hlen; rewrite ?Hsqrt.
  - nia.
  - done.
  - done.
  - intros k Hk. destruct (decide (k.1 / b = k.2 / b)) as [Hd|Hd].
    + destruct (seeded_on_diagonal seeded k Hval Hk Hd) as (i & _ & Hv).
      destruct (diagonal_in_box k Hk Hd) as [Hj _].
      pose proof (shuffled_range _ _ Hj (list_elem_of_lookup_2 _ _ _ Hv)). lia.
    + rewrite (seeded_off_diagonal seeded k Hval Hk Hd). nia.
  - intros p q Hp Hq Hne Hfilled Hsu Heq.
    destruct (decide (p.1 / b = p.2 / b)) as [Hdp|Hdp].
    2: { by rewrite (seeded_off_diagonal seeded p Hval Hp Hdp) in Hfilled. }
    destruct (decide (q.1 / b = q.2 / b)) as [Hdq|Hdq].
    2: { rewrite (seeded_off_diagonal seeded q Hval Hq Hdq) in Heq. done. }
    destruct (seeded_on_diagonal seeded p Hval Hp Hdp) as (ip & Hip & Hvp).
    destruct (seeded_on_diagonal seeded q Hval Hq Hdq) as (iq & Hiq & Hvq).
    destruct (diagonal_in_box p Hp Hdp) as [Hj _].
    assert (Hbox : p.1 / b = q.1 / b).
    { apply same_unit_true in Hsu as [Hr|[Hc|[Hr _]]]; congruence. }
    rewrite <- Hbox, <- Heq in *.
    pose proof (NoDup_lookup _ _ _ _ (shuffled_NoDup _ Hj) Hvp Hvq) as ->.
    congruence.
Qed.

(** The diagonal box [j], read row by row, is the [j]-th shuffled list. *)
Lemma seeded_box seeded j :
  (∀ k, k ∈ cells (b * b) →
        cell_val seeded k
        = default 0 ((list_to_map (seed_writes b shuffled) : gmap cell Z) !! k)) →
  j ∈ range b → box_of (cell_val seeded) b j j = shuffled j.
Proof.
  intros Hval Hj. rewrite box_of_rect. apply list_eq. intros i.
  rewrite list_lookup_fmap.
  destruct (rect (j * b) b (j * b) b !! i) as [k|] eqn:Hk; cbn.
  - destruct (lookup_lt_is_Some_2 (shuffled j) i) as [v Hv].
    { rewrite (shuffled_length _ Hj), <- (length_rect (j * b) b (j * b) b).
      by eapply lookup_lt_Some. }
    by rewrite Hv, (seeded_write seeded _ _ _ _ Hval Hj Hk Hv).
  - symmetry. apply lookup_ge_None. apply lookup_ge_None in Hk.
    rewrite length_rect in Hk. rewrite (shuffled_length _ Hj). lia.
Qed.
End seeding.

(** X14: for a size [b * b] with [b > 0], when each round's shuffle left
    a permutation of [1..b*b], the seeding of [generate_puzzle] raises
    nothing and leaves a well-formed board of [b * b] rows: the [j]-th
    diagonal box, read row by row, is the [j]-th shuffled list (so every
    diagonal box is a permutation of [1..b*b]), and every cell outside the
    diagonal boxes is empty. *)
Theorem seed_board_fills_the_diagonal (b : Z) (shuffled : Z → list Z) :
  0 < b →
  Forall (λ j, shuffled j ≡ₚ seqZ 1 (b * b)) (range b) →
  ∃ seeded,
    seed_board (b * b) b shuffled = Ok seeded ∧
    well_formed seeded = true ∧
    Z.of_nat (length seeded) = b * b ∧
    (∀ j, j ∈ range b → box_of (cell_val seeded) b j j = shuffled j) ∧
    (∀ k, k ∈ cells (b * b) → k.1 / b ≠ k.2 / b → cell_val seeded k = 0).
Proof.
  intros Hb Hsh.
  destruct (seeded_board b shuffled Hb Hsh) as (seeded & Hseed & Hshape & Hval).
  exists seeded. split_and!.
  - done.
  - by eapply seeded_well_formed.
  - by destruct Hshape.
  - intros j Hj. by eapply seeded_box.
  - intros k Hk Hd. by eapply seeded_off_diagonal.
Qed.

Lemma seed_board_fills_the_diagonal_witness :
  ∃ seeded,
    seed_board (2 * 2) 2 (λ j, if j =? 0 then [3; 1; 4; 2] else [2; 4; 1; 3])
    = Ok seeded ∧
    well_formed seeded = true ∧
    Z.of_nat (length seeded) = 2 * 2 ∧
    (∀ j, j ∈ range 2 →
          box_of (cell_val seeded) 2 j j
          = (if j =? 0 then [3; 1; 4; 2] else [2; 4; 1; 3])) ∧
    (∀ k, k ∈ cells (2 * 2) → k.1 / 2 ≠ k.2 / 2 → cell_val seeded k = 0).
Proof.
  apply (seed_board_fills_the_diagonal 2
           (λ j, if j =? 0 then [3; 1; 4; 2] else [2; 4; 1; 3])).
  - lia.
  - apply (bool_decide_unpack _). vm_compute. exact I.
Defined.

(** ** The solution taken, written in, and blanked *)

Lemma first_solution_Returned (evs : list event) :
  first_solution evs Returned = Some (Ok (head (solutions_of evs))).
Proof.
  unfold solutions_of, omap. induction evs as [|e evs IH]; [done|].
  destruct e; cbn [first_solution]; rewrite ?IH; done.
Qed.

Lemma fill_writes_keys (s : gmap cell Z) (l : list cell) :
  (omap (λ rc, pair rc <$> s !! rc) l).*1 = filter (λ rc, is_Some (s !! rc)) l.
Proof.
  induction l as [|rc l IH]; [done|].
  rewrite filter_cons. unfold omap in *. cbn [list_omap].
  destruct (s !! rc) as [v|] eqn:Hs; cbn [fmap option_fmap option_map].
  - rewrite decide_True by by eexists. cbn. by rewrite <- IH.
  - rewrite decide_False by (by intros [? ?]). done.
Qed.

Lemma fill_writes_lookup (s : gmap cell Z) (l : list cell) (k : cell) :
  (list_to_map (omap (λ rc, pair rc <$> s !! rc) l) : gmap cell Z) !! k
  = if decide (k ∈ l) then s !! k else None.
Proof.
  induction l as [|rc l IH].
  - rewrite decide_False by (by intros ?%elem_of_nil). done.
  - unfold omap in *. cbn [list_omap].
    destruct (s !! rc) as [v|] eqn:Hs; cbn [fmap option_fmap option_map].
    + cbn [list_to_map foldr curry fst snd].
      destruct (decide (k = rc)) as [->|Hne].
      * rewrite lookup_insert_eq, decide_True by left. done.
      * rewrite lookup_insert_ne, IH by done.
        destruct (decide (k ∈ l)) as [Hin|Hin].
        -- rewrite decide_True by (by right). done.
        -- rewrite decide_False; [done|]. by intros [?|?]%elem_of_cons.
    + rewrite IH. destruct (decide (k ∈ l)) as [Hin|Hin].
      * rewrite decide_True by (by right). done.
      * destruct (decide (k = rc)) as [->|Hne].
        -- rewrite decide_True by left. done.
        -- rewrite decide_False; [done|]. by intros [?|?]%elem_of_cons.
Qed.

Lemma blank_writes_keys (T : list cell) :
  ((λ rc : cell, (rc, 0)) <$> T).*1 = T.
Proof. induction T as [|rc T IH]; [done|]. cbn. by rewrite IH. Qed.

Lemma blank_writes_lookup (T : list cell) (k : cell) :
  (list_to_map ((λ rc : cell, (rc, 0)) <$> T) : gmap cell Z) !! k
  = if decide (k ∈ T) then Some 0 else None.
Proof.
  induction T as [|rc T IH].
  - rewrite decide_False by (by intros ?%elem_of_nil). done.
  - cbn [fmap list_fmap list_to_map foldr curry fst snd].
    destruct (decide (k = rc)) as [->|Hne].
    + rewrite lookup_insert_eq, decide_True by left. done.
    + rewrite lookup_insert_ne by done. fold (@fmap list _ _ _ (λ rc : cell, (rc, 0)) T).
      rewrite IH. destruct (decide (k ∈ T)) as [Hin|Hin].
      * rewrite decide_True by (by right). done.
      * rewrite decide_False; [done|]. by intros [?|?]%elem_of_cons.
Qed.

Lemma range_to_nat (x : Z) : range x = seqZ 0 (Z.of_nat (Z.to_nat x)).
Proof. unfold range, seqZ. by rewrite Nat2Z.id. Qed.

Lemma take_min_length {A} (l : list A) (k : Z) :
  take (Z.to_nat (Z.min k (Z.of_nat (length l)))) l = take (Z.to_nat k) l.
Proof.
  destruct (Z.le_gt_cases k (Z.of_nat (length l))) as [Hle|Hgt].
  - by rewrite Z.min_l.
  - rewrite Z.min_r by lia. rewrite Nat2Z.id. rewrite !take_ge; [done|lia|done].
Qed.

(** The board after the solution is written in and the first cells of
    the shuffled list are blanked. *)
Lemma filled_and_blanked (n k : Z) (seeded : list (list Z)) (s : gmap cell Z)
    (cs : list cell) :
  shaped n seeded → cs ≡ₚ cells n →
  ∃ puzzle,
    (board1 ← foldl (fill_step s) (Ok seeded) (cells n);
     foldl (blank_step cs) (Ok board1)
           (range (Z.min k (Z.of_nat (length cs))))) = Ok puzzle ∧
    shaped n puzzle ∧
    ∀ rc, rc ∈ cells n →
          cell_val puzzle rc
          = if decide (rc ∈ take (Z.to_nat k) cs) then 0
            else default (cell_val seeded rc) (s !! rc).
Proof.
  intros Hshape Hperm. rewrite fill_step_writes.
  destruct (set_cells_spec n (omap (λ rc, pair rc <$> s !! rc) (cells n)) seeded)
    as (board1 & Hfill & Hshape1 & Hval1); [done| | |].
  { apply Forall_forall. intros w Hw.
    assert (w.1 ∈ (omap (λ rc, pair rc <$> s !! rc) (cells n)).*1) as Hk
      by (apply list_elem_of_fmap; by exists w).
    rewrite fill_writes_keys in Hk. by apply list_elem_of_filter in Hk as [_ ?]. }
  { rewrite fill_writes_keys. apply NoDup_filter, NoDup_cells. }
  rewrite Hfill. cbn [mbind res_bind].
  rewrite range_to_nat, blank_step_writes.
  2: { rewrite Z2Nat.inj_min, Nat2Z.id. lia. }
  rewrite take_min_length.
  destruct (set_cells_spec n ((λ rc : cell, (rc, 0)) <$> take (Z.to_nat k) cs) board1)
    as (puzzle & Hblank & Hshape2 & Hval2); [done| | |].
  { apply Forall_forall. intros w Hw.
    assert (w.1 ∈ ((λ rc : cell, (rc, 0)) <$> take (Z.to_nat k) cs).*1) as Hk
      by (apply list_elem_of_fmap; by exists w).
    rewrite blank_writes_keys in Hk. rewrite <- Hperm.
    apply elem_of_take in Hk as (i & Hi & _). by eapply list_elem_of_lookup_2. }
  { rewrite blank_writes_keys.
    eapply sublist_NoDup; [|apply sublist_take].
    rewrite Hperm. apply NoDup_cells. }
  exists puzzle. split_and!; [done..|]. intros rc Hrc.
  rewrite (Hval2 rc Hrc), blank_writes_lookup, (Hval1 rc Hrc), fill_writes_lookup.
  rewrite (decide_True _ _ Hrc). by case_decide.
Qed.

Lemma graph_lookup (f : cell → Z) (l : list cell) (k : cell) :
  (list_to_map ((λ rc, (rc, f rc)) <$> l) : gmap cell Z) !! k
  = if decide (k ∈ l) then Some (f k) else None.
Proof.
  induction l as [|rc l IH].
  - rewrite decide_False by (by intros ?%elem_of_nil). done.
  - rewrite fmap_cons. cbn [list_to_map foldr curry fst snd].
    destruct (decide (k = rc)) as [->|Hne].
    + rewrite lookup_insert_eq, decide_True by left. done.
    + rewrite lookup_insert_ne by done. rewrite IH.
      destruct (decide (k ∈ l)) as [Hin|Hin].
      * rewrite decide_True by (by right). done.
      * rewrite decide_False; [done|]. by intros [?|?]%elem_of_cons.
Qed.

Lemma latin_ext (n bs : Z) (g1 g2 : cell → Z) :
  (∀ k, k ∈ cells n → g1 k = g2 k) → latin n bs g1 → latin n bs g2.
Proof.
  intros Heq [Hrange Hdiff]. split.
  - intros k Hk. rewrite <- (Heq k Hk). by apply Hrange.
  - intros k1 k2 Hk1 Hk2 Hne Hsu. rewrite <- (Heq k1 Hk1), <- (Heq k2 Hk2).
    by apply Hdiff.
Qed.

Lemma elem_of_empty_cells (n : Z) (board : list (list Z)) (rc : cell) :
  rc ∈ empty_cells n board ↔ rc ∈ cells n ∧ cell_val board rc = 0.
Proof. unfold empty_cells. rewrite list_elem_of_filter. tauto. Qed.

(** A board that agrees with a solved grid wherever it is filled has a
    completion: the solved grid on its empty cells. *)
Lemma blanked_has_completion (b : Z) (puzzle : list (list Z)) (g : cell → Z) :
  0 < b → shaped (b * b) puzzle → grid_solved (b * b) b g →
  (∀ rc, rc ∈ cells (b * b) → cell_val puzzle rc = 0 ∨ cell_val puzzle rc = g rc) →
  ∃ s', completion puzzle s'.
Proof.
  intros Hb [Hlen _] Hsolved Hagree.
  exists (list_to_map ((λ rc, (rc, g rc)) <$> empty_cells (b * b) puzzle)).
  unfold completion. rewrite Hlen, (Z.sqrt_square b) by lia. split.
  - intros rc. rewrite graph_lookup, <- elem_of_empty_cells.
    case_decide as Hin; split.
    + done.
    + intros _. by eexists.
    + by intros [? ?].
    + done.
  - apply (latin_solved _ b _ Hb eq_refl).
    apply (latin_ext _ _ g); [|by apply (solved_latin _ b _ Hb eq_refl)].
    intros rc Hrc. unfold merged. rewrite graph_lookup.
    destruct (Z.eqb_spec (cell_val puzzle rc) 0) as [Hz|Hnz].
    + rewrite decide_True by (by apply elem_of_empty_cells). done.
    + by destruct (Hagree rc Hrc) as [ ? | -> ].
Qed.

(** X15: for a size [b * b] with [b > 0], when every shuffle left a
    permutation of what it was given, [generate_puzzle] returns a board of
    [b * b] rows of [b * b] entries, whatever number of cells is to be
    removed.  Either the seeded board has no completion and is returned as
    it is, or the search found a completion [s] of it, and then: unless
    [s] is empty, the returned cell is empty at the first [cells_to_remove]
    cells of the shuffled list and holds the value of the completed grid
    everywhere else; the returned board has a completion; its empty cells
    are exactly those first cells; and [s] is not empty when [b > 1]. *)
Theorem generate_puzzle_keeps_a_solution (b cells_to_remove : Z)
    (shuffled_nums : Z → list Z) (shuffled_cells : list cell) :
  0 < b →
  Forall (λ j, shuffled_nums j ≡ₚ seqZ 1 (b * b)) (range b) →
  shuffled_cells ≡ₚ cells (b * b) →
  ∃ seeded puzzle,
    seed_board (b * b) b shuffled_nums = Ok seeded ∧
    generate_puzzle (b * b) cells_to_remove shuffled_nums shuffled_cells
    = Some (Ok puzzle) ∧
    shaped (b * b) puzzle ∧
    (((∀ s, ¬ completion seeded s) ∧ puzzle = seeded) ∨
     ∃ s, completion seeded s ∧
          (∀ rc, rc ∈ cells (b * b) →
                 cell_val puzzle rc
                 = if decide (s ≠ ∅ ∧
                              rc ∈ take (Z.to_nat cells_to_remove) shuffled_cells)
                   then 0 else merged seeded s rc) ∧
          (∃ s', completion puzzle s') ∧
          (s ≠ ∅ →
           empty_cells (b * b) puzzle
           ≡ₚ take (Z.to_nat cells_to_remove) shuffled_cells) ∧
          (1 < b → s ≠ ∅)).
Proof.
  intros Hb Hsh Hcs.
  destruct (seeded_board b shuffled_nums Hb Hsh) as (seeded & Hseed & Hshape & Hval).
  pose proof (seeded_well_formed b shuffled_nums Hb Hsh seeded Hshape Hval) as Hwf.
  pose proof Hshape as [Hlen Hrows].
  destruct (well_formed_init seeded Hwf) as [self Hinit].
  destruct (well_formed_solutions seeded self Hwf Hinit) as (Hret & Hnd & Hiff).
  rewrite Hlen in Hinit.
  assert (Hsqrt : Z.sqrt (b * b) = b) by (apply Z.sqrt_square; lia).
  exists seeded. unfold generate_puzzle.
  rewrite int_sqrt_nonneg by nia.
  rewrite Hsqrt, Hseed, Hinit. cbv zeta. rewrite Hret, first_solution_Returned.
  destruct (solutions_of (events (backtrack_generator self None None)))
    as [|s sols] eqn:Hsols; cbn [head].
  { exists seeded. split_and!; [done..|]. left. split; [|done].
    intros s Hs%Hiff. by apply elem_of_nil in Hs. }
  assert (Hcomp : completion seeded s) by (apply Hiff; by left).
  pose proof Hcomp as [Hdom Hsolved]. cbv zeta in Hdom, Hsolved.
  rewrite Hlen in Hdom, Hsolved. rewrite Hsqrt in Hsolved.
  assert (Hmerged : ∀ rc, rc ∈ cells (b * b) →
            default (cell_val seeded rc) (s !! rc) = merged seeded s rc).
  { intros rc Hrc. unfold merged.
    destruct (Z.eqb_spec (cell_val seeded rc) 0) as [Hz|Hnz].
    - rewrite Hz. by destruct (s !! rc).
    - destruct (s !! rc) as [v|] eqn:Hs; [|done].
      destruct (proj1 (Hdom rc) ltac:(by eexists)) as [_ ?]. done. }
  assert (Hbig : 1 < b → s ≠ ∅).
  { intros H1 ->.
    assert ((0, b) ∈ cells (b * b)) as Hin by (apply elem_of_cells; cbn; nia).
    assert (cell_val seeded (0, b) = 0) as Hz.
    { apply (seeded_off_diagonal b shuffled_nums Hb Hsh seeded _ Hval Hin).
      cbn. rewrite Z.div_0_l, Z.div_same by lia. done. }
    destruct (proj2 (Hdom (0, b)) (conj Hin Hz)) as [v Hv].
    by rewrite lookup_empty in Hv. }
  case_bool_decide as Hempty.
  { exists seeded. split_and!; [done..|]. right. exists s.
    split_and!; [done| |by exists s|done|done].
    intros rc Hrc. rewrite decide_False by (by intros [? _]).
    rewrite <- (Hmerged rc Hrc), Hempty, lookup_empty. done. }
  destruct (filled_and_blanked (b * b) cells_to_remove seeded s shuffled_cells
              Hshape Hcs) as (puzzle & Hgen & Hshape' & Hcell).
  exists puzzle. rewrite Hgen. split_and!; [done..|]. right. exists s.
  assert (Hform : ∀ rc, rc ∈ cells (b * b) →
            cell_val puzzle rc
            = if decide (rc ∈ take (Z.to_nat cells_to_remove) shuffled_cells)
              then 0 else merged seeded s rc).
  { intros rc Hrc. rewrite (Hcell rc Hrc). case_decide; [done|]. by apply Hmerged. }
  pose proof (solved_latin _ b _ Hb eq_refl Hsolved) as [Hrange _].
  split_and!; [done| | | |done].
  - intros rc Hrc. rewrite (Hform rc Hrc).
    destruct (decide (rc ∈ take _ shuffled_cells)) as [Hin|Hin].
    + by rewrite decide_True.
    + rewrite decide_False; [done|]. by intros [_ ?].
  - apply (blanked_has_completion b puzzle (merged seeded s)); [done..|].
    intros rc Hrc. rewrite (Hform rc Hrc). case_decide; [by left|by right].
  - intros _. apply NoDup_Permutation.
    + apply NoDup_filter, NoDup_cells.
    + eapply sublist_NoDup; [|apply sublist_take]. rewrite Hcs. apply NoDup_cells.
    + intros rc. rewrite elem_of_empty_cells. split.
      * intros [Hrc Hz]. rewrite (Hform rc Hrc) in Hz.
        case_decide as Hin; [done|]. specialize (Hrange rc Hrc). lia.
      * intros Hin. assert (rc ∈ cells (b * b)) as Hrc.
        { rewrite <- Hcs. apply elem_of_take in Hin as (i & Hi & _).
          by eapply list_elem_of_lookup_2. }
        split; [done|]. by rewrite (Hform rc Hrc), decide_True.
Qed.

Lemma generate_puzzle_keeps_a_solution_witness :
  ∃ seeded puzzle,
    seed_board (2 * 2) 2 (λ j, if j =? 0 then [3; 1; 4; 2] else [2; 4; 1; 3])
    = Ok seeded ∧
    generate_puzzle (2 * 2) 5 (λ j, if j =? 0 then [3; 1; 4; 2] else [2; 4; 1; 3])
      (reverse (cells 4))
    = Some (Ok puzzle) ∧
    shaped (2 * 2) puzzle ∧
    (((∀ s, ¬ completion seeded s) ∧ puzzle = seeded) ∨
     ∃ s, completion seeded s ∧
          (∀ rc, rc ∈ cells (2 * 2) →
                 cell_val puzzle rc
                 = if decide (s ≠ ∅ ∧ rc ∈ take (Z.to_nat 5) (reverse (cells 4)))
                   then 0 else merged seeded s rc) ∧
          (∃ s', completion puzzle s') ∧
          (s ≠ ∅ →
           empty_cells (2 * 2) puzzle ≡ₚ take (Z.to_nat 5) (reverse (cells 4))) ∧
          (1 < 2 → s ≠ ∅)).
Proof.
  apply (generate_puzzle_keeps_a_solution 2 5
           (λ j, if j =? 0 then [3; 1; 4; 2] else [2; 4; 1; 3])
           (reverse (cells 4))).
  - lia.
  - apply (bool_decide_unpack _). vm_compute. exact I.
  - apply (bool_decide_unpack _). vm_compute. exact I.
Defined.

(** The instance above, run: the search completes the seeded board, and
    the last five cells in row-major order are blanked. *)
Example generate_puzzle_on_a_4_by_4 :
  generate_puzzle 4 5 (λ j, if j =? 0 then [3; 1; 4; 2] else [2; 4; 1; 3])
    (reverse (cells 4))
  = Some (Ok [[3; 1; 4; 2]; [4; 2; 3; 1]; [1; 3; 2; 0]; [0; 0; 0; 0]]).
Proof. vm_compute. reflexivity. Qed.
